(** * rag-js: the retrieval core, embedded in Rocq

    The development follows the JavaScript sources:
    - [src/embeddings/local.js]   (class LocalEmbeddings),
    - the engine                   (class RAGEngine),
    - [src/datasources/...]        (class FileDataSource, method chunkText).

    Conventions of the embedding.
    - A JavaScript string is a list of code units; the model covers the code
      units below 256 (type [ascii]).  Lengths, indices, hashes and counts are
      integers ([Z] or [nat]) as in the code.
    - A JavaScript number that carries a weight, a vector component, a score
      or a threshold is a real number ([R]); [LocalEmbeddings] and
      [RAGEngine] compute on them without rounding.  The module [Rounded]
      writes the numeric part of the vectorizer over an arithmetic that
      rounds, for the properties that depend on it.
      A number that counts ([topK], [dimension], frequencies, sizes) is a
      natural number; the module [TopK] has the setting [topK] on numbers.
    - A [Map] is an association list in insertion order; [set] on a present
      key updates the value in place, as the JavaScript [Map] does.
    - [throw] is the constructor [Throw] of the type [result]; [await] is
      sequencing. *)

From Stdlib Require Import List String Ascii ZArith Arith Bool Lia.
From Stdlib Require Import DecimalString DecimalNat.
From Stdlib Require Import Reals Lra.
From Stdlib Require Import Permutation Sorted.
Import ListNotations.

Set Implicit Arguments.

(* ================================================================= *)
(** ** JavaScript strings *)

Module JS.

Definition str := list ascii.

Definition lit (s : string) : str := list_ascii_of_string s.

Definition len (s : str) : Z := Z.of_nat (List.length s).

(** [charCodeAt] on one code unit. *)
Definition code (c : ascii) : Z := Z.of_nat (nat_of_ascii c).

Definition LF : ascii := ascii_of_nat 10.
Definition SP : ascii := ascii_of_nat 32.

(** White space of [trim] and of the regular expression class [\s],
    restricted to the code units below 256: TAB, LF, VT, FF, CR, SP, NBSP. *)
Definition isWhiteSpace (c : ascii) : bool :=
  let n := nat_of_ascii c in
  ((9 <=? n) && (n <=? 13)) || (n =? 32) || (n =? 160).

(** The regular expression class [\w]: [A-Za-z0-9_]. *)
Definition isWordChar (c : ascii) : bool :=
  let n := nat_of_ascii c in
  ((48 <=? n) && (n <=? 57)) || ((65 <=? n) && (n <=? 90))
  || ((97 <=? n) && (n <=? 122)) || (n =? 95).

(** [toLowerCase] on one code unit below 256: A-Z and the Latin-1 capitals
    (0xC0-0xDE but the multiplication sign 0xD7) move up by 32. *)
Definition toLowerChar (c : ascii) : ascii :=
  let n := nat_of_ascii c in
  if ((65 <=? n) && (n <=? 90))
     || ((192 <=? n) && (n <=? 222) && negb (n =? 215))
  then ascii_of_nat (n + 32) else c.

Definition toLowerCase (s : str) : str := map toLowerChar s.

Fixpoint trimStart (s : str) : str :=
  match s with
  | c :: rest => if isWhiteSpace c then trimStart rest else s
  | [] => []
  end.

Definition trimEnd (s : str) : str := rev (trimStart (rev s)).

Definition trim (s : str) : str := trimEnd (trimStart s).

(** [s.slice(from, to)]: a negative index counts from the end of the
    string, both indices are clamped to the string. *)
Definition relIndex (n i : Z) : Z :=
  if (i <? 0)%Z then Z.max (n + i) 0 else Z.min i n.

Definition slice (s : str) (from to : Z) : str :=
  let n := len s in
  let a := relIndex n from in
  let b := relIndex n to in
  firstn (Z.to_nat (b - a)) (skipn (Z.to_nat a) s).

Fixpoint startsWith (s p : str) {struct p} : bool :=
  match p, s with
  | [], _ => true
  | _ :: _, [] => false
  | c :: p', d :: s' => Ascii.eqb c d && startsWith s' p'
  end.

(** Backward search of [lastIndexOf]: the largest [k] not above [n] at
    which [p] occurs in [s], or -1. *)
Fixpoint lastIndexFrom (s p : str) (n : nat) : Z :=
  if startsWith (skipn n s) p then Z.of_nat n
  else match n with
       | O => (-1)%Z
       | S n' => lastIndexFrom s p n'
       end.

(** [s.lastIndexOf(p, pos)]: the position is clamped to [0, s.length]. *)
Definition lastIndexOf (s p : str) (pos : Z) : Z :=
  lastIndexFrom s p (Z.to_nat (Z.min (Z.max pos 0) (len s))).

End JS.

(* ================================================================= *)
(** ** Exceptions *)

Inductive error : Type :=
| DataSourceRequired      (* 'Data source is required' *)
| LLMRequired             (* 'LLM is required' *)
| NotInitialized          (* 'RAG engine not initialized. Call initialize() first.' *)
| DimensionMismatch       (* 'Vectors must have the same dimension' *)
| TypeError.              (* a property read on [undefined] *)

Inductive result (A : Type) : Type :=
| Ok (a : A)
| Throw (e : error).

Arguments Ok {A} a.
Arguments Throw {A} e.

Definition bind {A B : Type} (m : result A) (f : A -> result B) : result B :=
  match m with
  | Ok a => f a
  | Throw e => Throw e
  end.

Notation "x <- m ;; k" := (bind m (fun x => k))
  (at level 61, m at next level, right associativity).

(** [xs.map(f)] with a callback that may throw: the first exception leaves
    the loop. *)
Fixpoint mapM {A B : Type} (f : A -> result B) (xs : list A) : result (list B) :=
  match xs with
  | [] => Ok []
  | x :: rest =>
      y <- f x ;;
      ys <- mapM f rest ;;
      Ok (y :: ys)
  end.

(* ================================================================= *)
(** ** FileDataSource.chunkText *)

Module FileDataSource.

Record config : Type := {
  chunkSize : Z;
  chunkOverlap : Z
}.

(** [const breakPoints = ['\n\n', '\n', '. ', '! ', '? ']] *)
Definition breakPoints : list JS.str :=
  [ [JS.LF; JS.LF]; [JS.LF]; JS.lit ". "; JS.lit "! "; JS.lit "? " ].

(** The test [lastBreak > start + this.chunkSize / 2], written on integers
    (the division of the source is exact division of numbers). *)
Definition pastHalf (cfg : config) (start lastBreak : Z) : bool :=
  (2 * start + chunkSize cfg <? 2 * lastBreak)%Z.

(** The [for (const bp of breakPoints)] loop with its [break]. *)
Fixpoint pickBreak (cfg : config) (text : JS.str) (start e : Z)
  (bps : list JS.str) : Z :=
  match bps with
  | [] => e
  | bp :: rest =>
      let lastBreak := JS.lastIndexOf text bp e in
      if pastHalf cfg start lastBreak
      then (lastBreak + JS.len bp)%Z
      else pickBreak cfg text start e rest
  end.

(** The value of [end] when the chunk is pushed. *)
Definition windowEnd (cfg : config) (text : JS.str) (start : Z) : Z :=
  let e := (start + chunkSize cfg)%Z in
  if (e <? JS.len text)%Z then pickBreak cfg text start e breakPoints else e.

(** One turn of the [while] loop: the chunk pushed and the next [start]. *)
Definition step (cfg : config) (text : JS.str) (start : Z) : JS.str * Z :=
  let e := windowEnd cfg text start in
  (JS.trim (JS.slice text start e), (e - chunkOverlap cfg)%Z).

(** The [while (start < text.length)] loop; [None] when the fuel runs out
    before the loop is left. *)
Fixpoint chunkLoop (fuel : nat) (cfg : config) (text : JS.str)
  (start : Z) (chunks : list JS.str) : option (list JS.str) :=
  match fuel with
  | O => None
  | S fuel' =>
      if (start <? JS.len text)%Z
      then let '(chunk, next) := step cfg text start in
           chunkLoop fuel' cfg text next (chunks ++ [chunk])
      else Some chunks
  end.

Definition nonEmpty (c : JS.str) : bool := (0 <? JS.len c)%Z.

Definition chunkText (fuel : nat) (cfg : config) (text : JS.str)
  : option (list JS.str) :=
  if (JS.len text <=? chunkSize cfg)%Z
  then Some [JS.trim text]
  else option_map (filter nonEmpty) (chunkLoop fuel cfg text 0%Z []).

End FileDataSource.

(* ================================================================= *)
(** ** Map: insertion-ordered association lists with string keys *)

Module JSMap.

Fixpoint keyEqb (a b : JS.str) : bool :=
  match a, b with
  | [], [] => true
  | c :: a', d :: b' => Ascii.eqb c d && keyEqb a' b'
  | _, _ => false
  end.

Section Ops.
Variable V : Type.

Definition t := list (JS.str * V).

Definition empty : t := [].

Fixpoint get (k : JS.str) (m : t) : option V :=
  match m with
  | [] => None
  | (k', v) :: rest => if keyEqb k k' then Some v else get k rest
  end.

Definition has (k : JS.str) (m : t) : bool :=
  match get k m with Some _ => true | None => false end.

(** [m.set(k, v)]: a present key keeps its place, a new key goes last. *)
Fixpoint set (k : JS.str) (v : V) (m : t) : t :=
  match m with
  | [] => [(k, v)]
  | (k', v') :: rest =>
      if keyEqb k k' then (k, v) :: rest else (k', v') :: set k v rest
  end.

Definition size (m : t) : nat := List.length m.

Definition keys (m : t) : list JS.str := map fst m.

Definition values (m : t) : list V := map snd m.

End Ops.

Arguments empty {V}.

End JSMap.

(** [new Set(tokens)] iterated: first occurrences, in order. *)
Fixpoint unique (seen : list JS.str) (l : list JS.str) : list JS.str :=
  match l with
  | [] => []
  | x :: rest =>
      if existsb (JSMap.keyEqb x) seen then unique seen rest
      else x :: unique (x :: seen) rest
  end.

(* ================================================================= *)
(** ** Documents and cache entries *)

Definition Metadata := list (JS.str * JS.str).

Record Document : Type := {
  id : JS.str;
  content : JS.str;
  metadata : Metadata
}.

Record VectorEntry : Type := {
  entryId : JS.str;
  entryContent : JS.str;
  entryMetadata : Metadata;
  vector : list R
}.

Record Scored : Type := {
  scoredId : JS.str;
  score : R
}.

Record RetrievalResult : Type := {
  resultId : JS.str;
  resultContent : JS.str;
  resultMetadata : Metadata;
  resultScore : R
}.

(* ================================================================= *)
(** ** Array.prototype.sort

    The sort of the language is stable; with a consistent comparator its
    result is the one of any stable sort.  [cmp a b > 0] puts [a] after [b]. *)

Section Sort.
Variable A : Type.
Variable cmp : A -> A -> R.

Fixpoint insertSorted (x : A) (l : list A) : list A :=
  match l with
  | [] => [x]
  | y :: rest =>
      if Rlt_dec 0 (cmp x y) then y :: insertSorted x rest else x :: l
  end.

Fixpoint sortBy (l : list A) : list A :=
  match l with
  | [] => []
  | x :: rest => insertSorted x (sortBy rest)
  end.

End Sort.

(* ================================================================= *)
(** ** LocalEmbeddings *)

Module LocalEmbeddings.

Record t : Type := {
  dimension : nat;
  vocabulary : JSMap.t nat;
  idf : JSMap.t R;
  documentCount : nat;
  initialized : bool
}.

(** [constructor(config)]: [config.dimension || 384]. *)
Definition create (configDimension : option nat) : t :=
  {| dimension := match configDimension with
                  | Some (S d) => S d
                  | _ => 384
                  end;
     vocabulary := JSMap.empty;
     idf := JSMap.empty;
     documentCount := 0;
     initialized := false |}.

(** [.replace(/[^\w\s]/g, ' ')] on one code unit. *)
Definition stripChar (c : ascii) : ascii :=
  if JS.isWordChar c || JS.isWhiteSpace c then c else JS.SP.

(** [.split(/\s+/)]: the pieces between the maximal runs of white space;
    a run at either end of the string leaves an empty piece there. *)
Fixpoint splitWs (inRun : bool) (cur : JS.str) (s : JS.str) : list JS.str :=
  match s with
  | [] => [cur]
  | c :: rest =>
      if JS.isWhiteSpace c
      then if inRun then splitWs true cur rest
           else cur :: splitWs true [] rest
      else splitWs false (cur ++ [c]) rest
  end.

Definition tokenize (text : JS.str) : list JS.str :=
  filter (fun token => (1 <? JS.len token)%Z)
         (splitWs false [] (map stripChar (JS.toLowerCase text))).

(** ToInt32 of an integer. *)
Definition toInt32 (z : Z) : Z :=
  ((z + 2 ^ 31) mod 2 ^ 32 - 2 ^ 31)%Z.

(** One turn of the loop of [hashString]:
    [hash = ((hash << 5) - hash) + char; hash = hash & hash]. *)
Definition hashStep (hash : Z) (c : ascii) : Z :=
  toInt32 (toInt32 (Z.shiftl hash 5) - hash + JS.code c)%Z.

Definition hashString (s : JS.str) : Z := fold_left hashStep s 0%Z.

(** [a || b] on numbers: zero is falsy. *)
Definition orNum (a : option R) (b : R) : R :=
  match a with
  | Some v => if Req_dec_T v 0 then b else v
  | None => b
  end.

Definition orNat (a : option nat) (b : nat) : nat :=
  match a with
  | Some (S n) => S n
  | _ => b
  end.

(** Counting loop shared by [buildVocabulary] (document frequencies) and
    [embed] (term frequencies): [m.set(token, (m.get(token) || 0) + 1)]. *)
Definition countToken (m : JSMap.t nat) (token : JS.str) : JSMap.t nat :=
  JSMap.set token (orNat (JSMap.get token m) 0 + 1) m.

(** The body of the inner loop of [buildVocabulary]. *)
Definition seeToken (st : JSMap.t nat * JSMap.t nat) (token : JS.str)
  : JSMap.t nat * JSMap.t nat :=
  let '(docFreq, vocab) := st in
  (countToken docFreq token,
   if JSMap.has token vocab then vocab
   else JSMap.set token (JSMap.size vocab) vocab).

Definition seeDocument (st : JSMap.t nat * JSMap.t nat) (doc : JS.str)
  : JSMap.t nat * JSMap.t nat :=
  fold_left seeToken (unique [] (tokenize doc)) st.

(** [Math.log((this.documentCount + 1) / (df + 1)) + 1] *)
Definition idfValueOf (N df : nat) : R :=
  (ln ((INR N + 1) / (INR df + 1)) + 1)%R.

Definition setIdf (N : nat) (m : JSMap.t R) (entry : JS.str * nat) : JSMap.t R :=
  JSMap.set (fst entry) (idfValueOf N (snd entry)) m.

Definition buildVocabulary (le : t) (documents : list JS.str) : t :=
  let N := List.length documents in
  let '(docFreq, vocab) :=
    fold_left seeDocument documents (JSMap.empty, vocabulary le) in
  {| dimension := dimension le;
     vocabulary := vocab;
     idf := fold_left (setIdf N) docFreq (idf le);
     documentCount := N;
     initialized := initialized le |}.

(** [initialize(documents = [])] *)
Definition initialize (le : t) (documents : list JS.str) : t :=
  let le' := match documents with
             | [] => le
             | _ :: _ => buildVocabulary le documents
             end in
  {| dimension := dimension le';
     vocabulary := vocabulary le';
     idf := idf le';
     documentCount := documentCount le';
     initialized := true |}.

(** Term frequencies of [embed], and [Math.max(...tf.values(), 1)]. *)
Definition termFrequency (tokens : list JS.str) : JSMap.t nat :=
  fold_left countToken tokens JSMap.empty.

Definition maxTf (tf : JSMap.t nat) : nat :=
  fold_left Nat.max (JSMap.values tf) 1.

(** The first loop of [embed] fills the map [sparse], which nothing
    reads afterwards; this is the weight it stores for a term. *)
Definition sparseWeight (le : t) (mx : nat) (entry : JS.str * nat) : R :=
  let normalizedTf := (INR (snd entry) / INR mx)%R in
  let idfValue := orNum (JSMap.get (fst entry) (idf le))
                        (ln (INR (documentCount le) + 2)) in
  (normalizedTf * idfValue)%R.

Fixpoint setSlot (slot : nat) (w : R) (m : list (nat * R)) : list (nat * R) :=
  match m with
  | [] => [(slot, w)]
  | (slot', w') :: rest =>
      if Nat.eqb slot slot' then (slot, w) :: rest
      else (slot', w') :: setSlot slot w rest
  end.

Definition sparse (le : t) (tf : JSMap.t nat) : list (nat * R) :=
  fold_left
    (fun (m : list (nat * R)) (entry : JS.str * nat) =>
       match JSMap.get (fst entry) (vocabulary le) with
       | Some slot => setSlot slot (sparseWeight le (maxTf tf) entry) m
       | None => m
       end)
    tf [].

(** [vector[index] += x]; an index outside the array leaves its elements
    as they are. *)
Fixpoint addAt (i : nat) (x : R) (v : list R) : list R :=
  match v, i with
  | [], _ => []
  | y :: rest, O => (y + x)%R :: rest
  | y :: rest, S i' => y :: addAt i' x rest
  end.

(** [Math.abs(hash) % this.dimension] *)
Definition bucket (le : t) (term : JS.str) : nat :=
  Z.to_nat (Z.abs (hashString term) mod Z.of_nat (dimension le)).

(** [hash >= 0 ? 1 : -1] *)
Definition sign (term : JS.str) : R :=
  if (0 <=? hashString term)%Z then 1%R else (-1)%R.

(** [this.idf.get(term) || 1], the weight of the dense loop. *)
Definition denseIdf (le : t) (term : JS.str) : R :=
  orNum (JSMap.get term (idf le)) 1.

(** What the dense loop adds to the bucket of a term. *)
Definition contribution (le : t) (mx : nat) (entry : JS.str * nat) : R :=
  (sign (fst entry) * (INR (snd entry) / INR mx) * denseIdf le (fst entry))%R.

Definition accumulate (le : t) (mx : nat) (v : list R) (entry : JS.str * nat)
  : list R :=
  addAt (bucket le (fst entry)) (contribution le mx entry) v.

(** The vector of [embed] before [normalize]. *)
Definition denseVector (le : t) (text : JS.str) : list R :=
  let tf := termFrequency (tokenize text) in
  fold_left (accumulate le (maxTf tf)) tf (repeat 0%R (dimension le)).

Definition sumSquares (v : list R) : R :=
  fold_left (fun sum val => (sum + val * val)%R) v 0%R.

Definition normalize (v : list R) : list R :=
  let norm := sqrt (sumSquares v) in
  if Req_dec_T norm 0 then v else map (fun val => (val / norm)%R) v.

Definition embed (le : t) (text : JS.str) : list R :=
  normalize (denseVector le text).

Definition embedBatch (le : t) (texts : list JS.str) : list (list R) :=
  map (embed le) texts.

Definition dotLoop (a b : list R) : R :=
  fold_left (fun acc xy => (acc + fst xy * snd xy)%R) (combine a b) 0%R.

Definition cosineSimilarity (a b : list R) : result R :=
  if Nat.eqb (List.length a) (List.length b)
  then Ok (dotLoop a b)
  else Throw DimensionMismatch.

(** The comparator [(a, b) => b.score - a.score]. *)
Definition byScore (a b : Scored) : R := (score b - score a)%R.

(** The callback of [documents.map] in [findSimilar]. *)
Definition scoreDoc (queryVector : list R) (doc : VectorEntry) : result Scored :=
  s <- cosineSimilarity queryVector (vector doc) ;;
  Ok {| scoredId := entryId doc; score := s |}.

(** [findSimilar(queryVector, documents, topK)]; [topK] counts results
    (the default of the parameter is 5). *)
Definition findSimilar (queryVector : list R) (documents : list VectorEntry)
  (topK : nat) : result (list Scored) :=
  scores <- mapM (scoreDoc queryVector) documents ;;
  Ok (firstn topK (sortBy byScore scores)).

Definition getDimension (le : t) : nat := dimension le.

Definition getVocabularySize (le : t) : nat := JSMap.size (vocabulary le).

End LocalEmbeddings.

(* ================================================================= *)
(** ** The arithmetic of doubles

    [LocalEmbeddings] above computes on real numbers.  The program
    computes on doubles, and every operation rounds.  Here the numeric
    part of [embed], [normalize] and [cosineSimilarity] is written once
    more, from the same lines of the source, over an arithmetic [A] that is
    a parameter: the four operations that these lines use.  [exact] is the
    arithmetic of the reals; [standard u A] says that every operation of
    [A] returns the exact result with a relative error of at most [u], as
    the operations on doubles do with [u = 2^-53] as long as nothing
    overflows or underflows.

    A quotient by zero is Infinity or NaN in JavaScript, which no real
    number stands for: [quotient] returns [None] there. *)

Module Rounded.

Record arith : Type := {
  add : R -> R -> R;
  mul : R -> R -> R;
  div : R -> R -> R;
  root : R -> R
}.

Definition exact : arith :=
  {| add := Rplus; mul := Rmult; div := Rdiv; root := sqrt |}.

(** [x] is [y] up to a relative error of [u]. *)
Definition near (u x y : R) : Prop :=
  exists d, (Rabs d <= u)%R /\ x = (y * (1 + d))%R.

Record standard (u : R) (A : arith) : Prop := {
  add_near : forall x y, near u (add A x y) (x + y);
  mul_near : forall x y, near u (mul A x y) (x * y);
  mul_sym : forall x y, mul A x y = mul A y x;
  div_near : forall x y, y <> 0%R -> near u (div A x y) (x / y);
  root_near : forall x, (0 <= x)%R -> near u (root A x) (sqrt x)
}.

(** The roundoff that [normalize] leaves on a vector of [n] components:
    [2 n + 4] roundings lie between the vector and the sum of the squares
    of the result. *)
Definition slack (u : R) (n : nat) : R := ((2 * INR n + 4) * u)%R.

Fixpoint collect {X Y : Type} (f : X -> option Y) (l : list X)
  : option (list Y) :=
  match l with
  | [] => Some []
  | x :: rest =>
      match f x, collect f rest with
      | Some y, Some ys => Some (y :: ys)
      | _, _ => None
      end
  end.

Section Arithmetic.
Variable A : arith.

(** [x / y] *)
Definition quotient (x y : R) : option R :=
  if Req_dec_T y 0 then None else Some (div A x y).

(** [vector[index] += x] *)
Fixpoint addAt (i : nat) (x : R) (v : list R) : list R :=
  match v, i with
  | [], _ => []
  | y :: rest, O => add A y x :: rest
  | y :: rest, S i' => y :: addAt i' x rest
  end.

(** [sign * (freq / maxTf) * idfValue] *)
Definition contribution (le : LocalEmbeddings.t) (mx : nat)
  (entry : JS.str * nat) : option R :=
  match quotient (INR (snd entry)) (INR mx) with
  | Some normalizedTf =>
      Some (mul A (mul A (LocalEmbeddings.sign (fst entry)) normalizedTf)
                  (LocalEmbeddings.denseIdf le (fst entry)))
  | None => None
  end.

Definition accumulate (le : LocalEmbeddings.t) (mx : nat)
  (v : option (list R)) (entry : JS.str * nat) : option (list R) :=
  match v, contribution le mx entry with
  | Some v', Some x => Some (addAt (LocalEmbeddings.bucket le (fst entry)) x v')
  | _, _ => None
  end.

(** The vector of [embed] before [normalize]. *)
Definition denseVector (le : LocalEmbeddings.t) (text : JS.str)
  : option (list R) :=
  let tf := LocalEmbeddings.termFrequency (LocalEmbeddings.tokenize text) in
  fold_left (accumulate le (LocalEmbeddings.maxTf tf)) tf
            (Some (repeat 0%R (LocalEmbeddings.dimension le))).

(** [vector.reduce((sum, val) => sum + val * val, 0)] *)
Definition sumSquares (v : list R) : R :=
  fold_left (fun sum val => add A sum (mul A val val)) v 0%R.

Definition normalize (v : list R) : option (list R) :=
  let norm := root A (sumSquares v) in
  if Req_dec_T norm 0 then Some v
  else collect (fun val => quotient val norm) v.

Definition embed (le : LocalEmbeddings.t) (text : JS.str)
  : option (list R) :=
  match denseVector le text with
  | Some v => normalize v
  | None => None
  end.

Definition dotLoop (a b : list R) : R :=
  fold_left (fun acc xy => add A acc (mul A (fst xy) (snd xy)))
            (combine a b) 0%R.

Definition cosineSimilarity (a b : list R) : result R :=
  if Nat.eqb (List.length a) (List.length b)
  then Ok (dotLoop a b)
  else Throw DimensionMismatch.

End Arithmetic.

End Rounded.

(* ================================================================= *)
(** ** The document source consumed by the engine

    The sources of the repository (files, CSV, SQLite, Postgres) keep the
    loaded documents in an array [this.documents], which [loadDocuments]
    replaces by what the backing store holds at that moment. *)

Record NewDocument : Type := {
  newId : option JS.str;
  newContent : JS.str;
  newMetadata : option Metadata
}.

Module DataSource.

Record t : Type := {
  initialized : bool;
  documents : list Document;
  (** the content of the backing store, read by [loadDocuments] *)
  store : list Document;
  (** the text search of the source, over its loaded documents *)
  searchFn : list Document -> JS.str -> nat -> list RetrievalResult
}.

Definition loadDocuments (ds : t) : t :=
  {| initialized := initialized ds;
     documents := store ds;
     store := store ds;
     searchFn := searchFn ds |}.

Definition initialize (ds : t) : t :=
  let ds' := loadDocuments ds in
  {| initialized := true;
     documents := documents ds';
     store := store ds';
     searchFn := searchFn ds' |}.

Definition getDocuments (ds : t) : list Document := documents ds.

Definition getDocumentCount (ds : t) : nat := List.length (documents ds).

Definition search (ds : t) (query : JS.str) (limit : nat)
  : list RetrievalResult :=
  searchFn ds (documents ds) query limit.

(** [document.id || `doc_${this.documents.length}`] *)
Definition freshId (ds : t) (doc : NewDocument) : JS.str :=
  match newId doc with
  | Some (c :: rest) => c :: rest
  | _ => JS.lit "doc_" ++
         JS.lit (NilEmpty.string_of_uint (Nat.to_uint (List.length (documents ds))))
  end.

Definition addDocument (ds : t) (doc : NewDocument) : t * JS.str :=
  let i := freshId ds doc in
  ({| initialized := initialized ds;
      documents := documents ds ++
                   [{| id := i;
                       content := newContent doc;
                       metadata := match newMetadata doc with
                                   | Some m => m
                                   | None => []
                                   end |}];
      store := store ds;
      searchFn := searchFn ds |}, i).

Definition close (ds : t) : t :=
  {| initialized := false;
     documents := documents ds;
     store := store ds;
     searchFn := searchFn ds |}.

(** The environment changes the backing store (files are added, changed
    or deleted); the loaded documents stay as they are until the next
    [loadDocuments]. *)
Definition storeBecomes (ds : t) (stored : list Document) : t :=
  {| initialized := initialized ds;
     documents := documents ds;
     store := stored;
     searchFn := searchFn ds |}.

End DataSource.

(** The generation provider, as far as the engine reads it. *)
Module LLM.

Record t : Type := {
  model : JS.str;
  initialized : bool
}.

Definition initialize (l : t) : t :=
  {| model := model l; initialized := true |}.

End LLM.

(* ================================================================= *)
(** ** RAGEngine *)

Module RAGEngine.

Record t : Type := {
  dataSource : option DataSource.t;
  llm : option LLM.t;
  embeddings : option LocalEmbeddings.t;
  topK : nat;
  similarityThreshold : R;
  documentVectors : JSMap.t VectorEntry;
  initialized : bool
}.

Record config : Type := {
  configDataSource : option DataSource.t;
  configLlm : option LLM.t;
  configEmbeddings : option LocalEmbeddings.t;
  configTopK : option nat;
  configSimilarityThreshold : option R
}.

(** [constructor(config = {})] *)
Definition create (c : config) : t :=
  {| dataSource := configDataSource c;
     llm := configLlm c;
     embeddings := configEmbeddings c;
     topK := LocalEmbeddings.orNat (configTopK c) 5;
     similarityThreshold :=
       LocalEmbeddings.orNum (configSimilarityThreshold c) (3 / 10);
     documentVectors := JSMap.empty;
     initialized := false |}.

Definition withCollaborators (e : t) (ds : option DataSource.t)
  (l : option LLM.t) (le : option LocalEmbeddings.t) : t :=
  {| dataSource := ds;
     llm := l;
     embeddings := le;
     topK := topK e;
     similarityThreshold := similarityThreshold e;
     documentVectors := documentVectors e;
     initialized := initialized e |}.

Definition withVectors (e : t) (m : JSMap.t VectorEntry) : t :=
  {| dataSource := dataSource e;
     llm := llm e;
     embeddings := embeddings e;
     topK := topK e;
     similarityThreshold := similarityThreshold e;
     documentVectors := m;
     initialized := initialized e |}.

Definition withInitialized (e : t) (b : bool) : t :=
  {| dataSource := dataSource e;
     llm := llm e;
     embeddings := embeddings e;
     topK := topK e;
     similarityThreshold := similarityThreshold e;
     documentVectors := documentVectors e;
     initialized := b |}.

Definition withTopK (e : t) (k : nat) : t :=
  {| dataSource := dataSource e;
     llm := llm e;
     embeddings := embeddings e;
     topK := k;
     similarityThreshold := similarityThreshold e;
     documentVectors := documentVectors e;
     initialized := initialized e |}.

Definition withSimilarityThreshold (e : t) (x : R) : t :=
  {| dataSource := dataSource e;
     llm := llm e;
     embeddings := embeddings e;
     topK := topK e;
     similarityThreshold := x;
     documentVectors := documentVectors e;
     initialized := initialized e |}.

(** The body of the loop of [buildVectorIndex]:
    [this.documentVectors.set(doc.id, { ...doc, vector })]. *)
Definition indexDocument (le : LocalEmbeddings.t) (m : JSMap.t VectorEntry)
  (doc : Document) : JSMap.t VectorEntry :=
  JSMap.set (id doc)
    {| entryId := id doc;
       entryContent := content doc;
       entryMetadata := metadata doc;
       vector := LocalEmbeddings.embed le (content doc) |}
    m.

Definition buildVectorIndex (e : t) : result t :=
  match dataSource e, embeddings e with
  | Some ds, Some le =>
      Ok (withVectors e
            (fold_left (indexDocument le) (DataSource.getDocuments ds)
                       (documentVectors e)))
  | _, _ => Throw TypeError
  end.

Definition initialize (e : t) : result t :=
  match dataSource e with
  | None => Throw DataSourceRequired
  | Some ds =>
      match llm e with
      | None => Throw LLMRequired
      | Some l =>
          let ds' := if DataSource.initialized ds then ds
                     else DataSource.initialize ds in
          let l' := LLM.initialize l in
          e' <- match embeddings e with
                | Some le =>
                    let texts := map content (DataSource.getDocuments ds') in
                    let le' := LocalEmbeddings.initialize le texts in
                    buildVectorIndex
                      (withCollaborators e (Some ds') (Some l') (Some le'))
                | None =>
                    Ok (withCollaborators e (Some ds') (Some l') None)
                end ;;
          Ok (withInitialized e' true)
      end
  end.

Definition addDocument (e : t) (document : NewDocument) : result (t * JS.str) :=
  match dataSource e with
  | None => Throw TypeError
  | Some ds =>
      let '(ds', i) := DataSource.addDocument ds document in
      let e' := withCollaborators e (Some ds') (llm e) (embeddings e) in
      match embeddings e with
      | Some le =>
          Ok (withVectors e'
                (JSMap.set i
                   {| entryId := i;
                      entryContent := newContent document;
                      entryMetadata := match newMetadata document with
                                       | Some m => m
                                       | None => []
                                       end;
                      vector := LocalEmbeddings.embed le (newContent document) |}
                   (documentVectors e')), i)
      | None => Ok (e', i)
      end
  end.

(** The pushes of [retrieveByVector]:
    [const doc = this.documentVectors.get(id); results.push({...})]. *)
Definition pushResult (e : t) (results : list RetrievalResult) (s : Scored)
  : result (list RetrievalResult) :=
  match JSMap.get (scoredId s) (documentVectors e) with
  | Some doc =>
      Ok (results ++ [{| resultId := entryId doc;
                         resultContent := entryContent doc;
                         resultMetadata := entryMetadata doc;
                         resultScore := score s |}])
  | None => Throw TypeError
  end.

(** The first loop: [score >= this.similarityThreshold &&
    results.length < topK]. *)
Fixpoint filterLoop (e : t) (k : nat) (similarities : list Scored)
  (results : list RetrievalResult) : result (list RetrievalResult) :=
  match similarities with
  | [] => Ok results
  | s :: rest =>
      if Rle_dec (similarityThreshold e) (score s)
      then if Nat.ltb (List.length results) k
           then results' <- pushResult e results s ;;
                filterLoop e k rest results'
           else filterLoop e k rest results
      else filterLoop e k rest results
  end.

(** The second loop, over [similarities.slice(0, topK)]. *)
Fixpoint pushAll (e : t) (similarities : list Scored)
  (results : list RetrievalResult) : result (list RetrievalResult) :=
  match similarities with
  | [] => Ok results
  | s :: rest =>
      results' <- pushResult e results s ;;
      pushAll e rest results'
  end.

Definition retrieveByVector (e : t) (le : LocalEmbeddings.t)
  (query : JS.str) (k : nat) : result (list RetrievalResult) :=
  let queryVector := LocalEmbeddings.embed le query in
  let documents := JSMap.values (documentVectors e) in
  similarities <- LocalEmbeddings.findSimilar queryVector documents (k * 2) ;;
  results <- filterLoop e k similarities [] ;;
  match results, similarities with
  | [], _ :: _ => pushAll e (firstn k similarities) results
  | _, _ => Ok results
  end.

(** [retrieve(query, topK = this.topK)] *)
Definition retrieve (e : t) (query : JS.str) (k : nat)
  : result (list RetrievalResult) :=
  match embeddings e with
  | Some le =>
      if Nat.ltb 0 (JSMap.size (documentVectors e))
      then retrieveByVector e le query k
      else match dataSource e with
           | Some ds => Ok (DataSource.search ds query k)
           | None => Throw TypeError
           end
  | None =>
      match dataSource e with
      | Some ds => Ok (DataSource.search ds query k)
      | None => Throw TypeError
      end
  end.

Record stats : Type := {
  statsInitialized : bool;
  documentCount : nat;
  statsTopK : nat;
  statsSimilarityThreshold : R;
  llmModel : option JS.str;
  embeddingDimension : option nat
}.

(** [documentCount: this.documentVectors.size ||
    this.dataSource?.getDocumentCount() || 0] *)
Definition getStats (e : t) : stats :=
  {| statsInitialized := initialized e;
     documentCount :=
       match JSMap.size (documentVectors e) with
       | S n => S n
       | O => match dataSource e with
              | Some ds => DataSource.getDocumentCount ds
              | None => 0
              end
       end;
     statsTopK := topK e;
     statsSimilarityThreshold := similarityThreshold e;
     llmModel := option_map LLM.model (llm e);
     embeddingDimension := option_map LocalEmbeddings.getDimension (embeddings e) |}.

Record update : Type := {
  updateTopK : option nat;
  updateSimilarityThreshold : option R
}.

(** [if (config.topK) this.topK = config.topK;
     if (config.similarityThreshold !== undefined) ...] *)
Definition updateConfig (e : t) (c : update) : t :=
  let e1 := match updateTopK c with
            | Some (S k) => withTopK e (S k)
            | _ => e
            end in
  match updateSimilarityThreshold c with
  | Some x => withSimilarityThreshold e1 x
  | None => e1
  end.

Definition refresh (e : t) : result t :=
  match dataSource e with
  | None => Throw TypeError
  | Some ds =>
      let ds' := DataSource.loadDocuments ds in
      match embeddings e with
      | Some le =>
          let texts := map content (DataSource.getDocuments ds') in
          let le' := LocalEmbeddings.buildVocabulary le texts in
          buildVectorIndex (withCollaborators e (Some ds') (llm e) (Some le'))
      | None => Ok (withCollaborators e (Some ds') (llm e) None)
      end
  end.

Definition close (e : t) : t :=
  withInitialized
    (withCollaborators e (option_map DataSource.close (dataSource e))
       (llm e) (embeddings e))
    false.

End RAGEngine.

(* ================================================================= *)
(** ** RAGEngine over any embeddings provider

    The engine calls [this.embeddings.initialize], [.buildVocabulary] and
    [.embed] on whatever object it was given.  [RAGEngine] above fixes
    them to [LocalEmbeddings] on real numbers; here the operations that
    fill the cache are written once more, from the same lines, with the
    three methods as parameters, so that they can be read with [embed] on
    doubles. *)

Module GenericEngine.

Section Provider.
Variable embed : LocalEmbeddings.t -> JS.str -> list R.
Variable initializeEmbeddings :
  LocalEmbeddings.t -> list JS.str -> LocalEmbeddings.t.
Variable buildVocabulary :
  LocalEmbeddings.t -> list JS.str -> LocalEmbeddings.t.

(** [this.documentVectors.set(doc.id, { ...doc, vector })] *)
Definition indexDocument (le : LocalEmbeddings.t) (m : JSMap.t VectorEntry)
  (doc : Document) : JSMap.t VectorEntry :=
  JSMap.set (id doc)
    {| entryId := id doc;
       entryContent := content doc;
       entryMetadata := metadata doc;
       vector := embed le (content doc) |}
    m.

Definition buildVectorIndex (e : RAGEngine.t) : result RAGEngine.t :=
  match RAGEngine.dataSource e, RAGEngine.embeddings e with
  | Some ds, Some le =>
      Ok (RAGEngine.withVectors e
            (fold_left (indexDocument le) (DataSource.getDocuments ds)
                       (RAGEngine.documentVectors e)))
  | _, _ => Throw TypeError
  end.

Definition initialize (e : RAGEngine.t) : result RAGEngine.t :=
  match RAGEngine.dataSource e with
  | None => Throw DataSourceRequired
  | Some ds =>
      match RAGEngine.llm e with
      | None => Throw LLMRequired
      | Some l =>
          let ds' := if DataSource.initialized ds then ds
                     else DataSource.initialize ds in
          let l' := LLM.initialize l in
          e' <- match RAGEngine.embeddings e with
                | Some le =>
                    let texts := map content (DataSource.getDocuments ds') in
                    let le' := initializeEmbeddings le texts in
                    buildVectorIndex
                      (RAGEngine.withCollaborators e (Some ds') (Some l')
                         (Some le'))
                | None =>
                    Ok (RAGEngine.withCollaborators e (Some ds') (Some l') None)
                end ;;
          Ok (RAGEngine.withInitialized e' true)
      end
  end.

Definition addDocument (e : RAGEngine.t) (document : NewDocument)
  : result (RAGEngine.t * JS.str) :=
  match RAGEngine.dataSource e with
  | None => Throw TypeError
  | Some ds =>
      let '(ds', i) := DataSource.addDocument ds document in
      let e' := RAGEngine.withCollaborators e (Some ds') (RAGEngine.llm e)
                  (RAGEngine.embeddings e) in
      match RAGEngine.embeddings e with
      | Some le =>
          Ok (RAGEngine.withVectors e'
                (JSMap.set i
                   {| entryId := i;
                      entryContent := newContent document;
                      entryMetadata := match newMetadata document with
                                       | Some m => m
                                       | None => []
                                       end;
                      vector := embed le (newContent document) |}
                   (RAGEngine.documentVectors e')), i)
      | None => Ok (e', i)
      end
  end.

Definition refresh (e : RAGEngine.t) : result RAGEngine.t :=
  match RAGEngine.dataSource e with
  | None => Throw TypeError
  | Some ds =>
      let ds' := DataSource.loadDocuments ds in
      match RAGEngine.embeddings e with
      | Some le =>
          let texts := map content (DataSource.getDocuments ds') in
          let le' := buildVocabulary le texts in
          buildVectorIndex
            (RAGEngine.withCollaborators e (Some ds') (RAGEngine.llm e)
               (Some le'))
      | None =>
          Ok (RAGEngine.withCollaborators e (Some ds') (RAGEngine.llm e) None)
      end
  end.

End Provider.

End GenericEngine.

(* ================================================================= *)
(** ** Vocabulary of the specification *)

Module Spec.

(** The L2 norm of a vector. *)
Definition l2norm (v : list R) : R := sqrt (LocalEmbeddings.sumSquares v).

(** The dot product of two vectors. *)
Fixpoint dotProduct (a b : list R) : R :=
  match a, b with
  | x :: a', y :: b' => (x * y + dotProduct a' b')%R
  | _, _ => 0%R
  end.

(** The (id, score) pairs of the documents, in input order. *)
Definition scoresOf (queryVector : list R) (documents : list VectorEntry)
  : list Scored :=
  map (fun doc => {| scoredId := entryId doc;
                     score := dotProduct queryVector (vector doc) |})
      documents.

(** Descending by score. *)
Definition descending (l : list Scored) : Prop :=
  StronglySorted (fun a b => (score b <= score a)%R) l.

Definition hasScore (x : R) (s : Scored) : bool :=
  if Req_dec_T (score s) x then true else false.

(** Stability: the elements of one score keep their input order. *)
Definition stableWrt (input output : list Scored) : Prop :=
  forall x, filter (hasScore x) output = filter (hasScore x) input.

Definition passes (threshold : R) (s : Scored) : bool :=
  if Rle_dec threshold (score s) then true else false.

(** The marker [bp] occurs in [text] at position [p]. *)
Definition occursAt (text bp : JS.str) (p : Z) : Prop :=
  exists pre post, text = pre ++ bp ++ post /\ JS.len pre = p.

(** [p] is the last position not after [e] at which [bp] occurs. *)
Definition lastOccurrence (text bp : JS.str) (e p : Z) : Prop :=
  occursAt text bp p /\ (p <= e)%Z
  /\ forall q, occursAt text bp q -> (q <= e)%Z -> (q <= p)%Z.

(** No occurrence of [bp] not after [e] lies past the middle of the
    window that starts at [start]. *)
Definition noneInReach (cfg : FileDataSource.config) (text : JS.str)
  (start e : Z) (bp : JS.str) : Prop :=
  forall q, occursAt text bp q -> (q <= e)%Z ->
            (2 * q <= 2 * start + FileDataSource.chunkSize cfg)%Z.





(** The retrieval result built from a ranked pair and the cache. *)
Definition answers (cache : JSMap.t VectorEntry) (r : RetrievalResult)
  (s : Scored) : Prop :=
  exists doc,
    JSMap.get (scoredId s) cache = Some doc
    /\ r = {| resultId := entryId doc;
              resultContent := entryContent doc;
              resultMetadata := entryMetadata doc;
              resultScore := score s |}.

(** What [retrieve] keeps of the ranked candidates: the first [k] that
    pass the threshold, or the first [k] of all when none passes. *)
Definition chosen (threshold : R) (k : nat) (similarities : list Scored)
  : list Scored :=
  match firstn k (filter (passes threshold) similarities) with
  | [] => firstn k similarities
  | kept => kept
  end.

(** Every ranked pair names an entry of the cache. *)
Definition covered (cache : JSMap.t VectorEntry) (l : list Scored) : Prop :=
  Forall (fun s => exists doc, JSMap.get (scoredId s) cache = Some doc) l.

(** The ranked candidates of a query: [2 * topK] are asked for. *)
Definition candidates (e : RAGEngine.t) (le : LocalEmbeddings.t) (query : JS.str)
  (k : nat) : list Scored :=
  firstn (k * 2)
    (sortBy LocalEmbeddings.byScore
       (scoresOf (LocalEmbeddings.embed le query)
                 (JSMap.values (RAGEngine.documentVectors e)))).

(** Every cache entry is stored under its own id. *)
Definition keyed (cache : JSMap.t VectorEntry) : Prop :=
  Forall (fun kv => entryId (snd kv) = fst kv) cache.

(** A property of the cached entries, indexed by the width of the
    vectorizer of the engine. *)
Definition cacheHolds (P : nat -> VectorEntry -> Prop) (e : RAGEngine.t)
  : Prop :=
  forall le, RAGEngine.embeddings e = Some le ->
    Forall (P (LocalEmbeddings.dimension le))
           (JSMap.values (RAGEngine.documentVectors e)).


(** The cache of an engine fits its vectorizer: entries under their ids,
    vectors of the width of the vectorizer. *)
Definition wellFormed (e : RAGEngine.t) : Prop :=
  keyed (RAGEngine.documentVectors e)
  /\ cacheHolds (fun d en => List.length (vector en) = d) e.

End Spec.

(* ================================================================= *)
(** ** Concrete inputs *)

Module Scenario.

(** A source whose own text search finds nothing; the engines below have
    a vectorizer and a filled cache, so the search is not reached. *)
Definition noSearch (_ : list Document) (_ : JS.str) (_ : nat)
  : list RetrievalResult := [].

Definition source (stored : list Document) : DataSource.t :=
  {| DataSource.initialized := false;
     DataSource.documents := [];
     DataSource.store := stored;
     DataSource.searchFn := noSearch |}.

Definition llm0 : LLM.t :=
  {| LLM.model := JS.lit "llama-3.3-70b-versatile";
     LLM.initialized := false |}.

Definition vectorizer0 : LocalEmbeddings.t := LocalEmbeddings.create None.

(** [new RAGEngine({ dataSource, llm, embeddings })] *)
Definition engine (stored : list Document) : RAGEngine.t :=
  RAGEngine.create
    {| RAGEngine.configDataSource := Some (source stored);
       RAGEngine.configLlm := Some llm0;
       RAGEngine.configEmbeddings := Some vectorizer0;
       RAGEngine.configTopK := None;
       RAGEngine.configSimilarityThreshold := None |}.

(** The backing store of the source of an engine changes. *)
Definition storeBecomes (e : RAGEngine.t) (stored : list Document)
  : RAGEngine.t :=
  RAGEngine.withCollaborators e
    (option_map (fun ds => DataSource.storeBecomes ds stored)
                (RAGEngine.dataSource e))
    (RAGEngine.llm e) (RAGEngine.embeddings e).

Definition doc1 : Document :=
  {| id := JS.lit "1";
     content := JS.lit "Machine learning is a subset of artificial intelligence";
     metadata := [] |}.

Definition doc2 : Document :=
  {| id := JS.lit "2";
     content := JS.lit "Paris is the capital of France";
     metadata := [] |}.

(** The cache entry that [buildVectorIndex] stores for a document. *)
Definition entryOf (le : LocalEmbeddings.t) (doc : Document) : VectorEntry :=
  {| entryId := id doc;
     entryContent := content doc;
     entryMetadata := metadata doc;
     vector := LocalEmbeddings.embed le (content doc) |}.

(** The vectorizer and the engine after [initialize] over the two
    documents. *)
Definition vectorizer1 : LocalEmbeddings.t :=
  LocalEmbeddings.initialize vectorizer0 [content doc1; content doc2].

Definition engine1 : RAGEngine.t :=
  {| RAGEngine.dataSource :=
       Some (DataSource.initialize (source [doc1; doc2]));
     RAGEngine.llm := Some (LLM.initialize llm0);
     RAGEngine.embeddings := Some vectorizer1;
     RAGEngine.topK := 5;
     RAGEngine.similarityThreshold := (3 / 10)%R;
     RAGEngine.documentVectors :=
       [(JS.lit "1", entryOf vectorizer1 doc1);
        (JS.lit "2", entryOf vectorizer1 doc2)];
     RAGEngine.initialized := true |}.

(** The same after the second document has left the store and [refresh]
    has run. *)
Definition vectorizer2 : LocalEmbeddings.t :=
  LocalEmbeddings.buildVocabulary vectorizer1 [content doc1].

Definition engine2 : RAGEngine.t :=
  {| RAGEngine.dataSource :=
       Some (DataSource.loadDocuments
               (DataSource.storeBecomes
                  (DataSource.initialize (source [doc1; doc2])) [doc1]));
     RAGEngine.llm := Some (LLM.initialize llm0);
     RAGEngine.embeddings := Some vectorizer2;
     RAGEngine.topK := 5;
     RAGEngine.similarityThreshold := (3 / 10)%R;
     RAGEngine.documentVectors :=
       [(JS.lit "1", entryOf vectorizer2 doc1);
        (JS.lit "2", entryOf vectorizer1 doc2)];
     RAGEngine.initialized := true |}.



(** Three documents on one axis, two of them with the same score. *)
Definition ranked3 : list VectorEntry :=
  [ {| entryId := JS.lit "c"; entryContent := []; entryMetadata := [];
       vector := [(5 / 10)%R] |};
    {| entryId := JS.lit "a"; entryContent := []; entryMetadata := [];
       vector := [(9 / 10)%R] |};
    {| entryId := JS.lit "b"; entryContent := []; entryMetadata := [];
       vector := [(9 / 10)%R] |} ].

(** A text of 31 code units with one line break after "abcdefg", and a
    configuration whose overlap is below the chunk size. *)
Definition loopConfig : FileDataSource.config :=
  {| FileDataSource.chunkSize := 10; FileDataSource.chunkOverlap := 8 |}.

Definition loopText : JS.str :=
  JS.lit "abcdefg" ++ [JS.LF] ++ JS.lit "hijklmnopqrstuvwxyz0123".

(** A text with a paragraph break at 11 and a line break at 17. *)
Definition breakConfig : FileDataSource.config :=
  {| FileDataSource.chunkSize := 20; FileDataSource.chunkOverlap := 4 |}.

Definition breakText : JS.str :=
  JS.lit "first parag" ++ [JS.LF; JS.LF] ++ JS.lit "more" ++ [JS.LF]
  ++ JS.lit "and a long tail of text".

(** A text on which an overlap of 19 below a chunk size of 20 takes
    [start] from 0 to -6 and to -13. *)
Definition backConfig : FileDataSource.config :=
  {| FileDataSource.chunkSize := 20; FileDataSource.chunkOverlap := 19 |}.

Definition backText : JS.str :=
  JS.lit "aaaaa" ++ [JS.LF] ++ JS.lit "bbbbb. cccccccccccccccccccc".

(** The unit roundoff of doubles, and an arithmetic that is not exact:
    every result is too large by one part in 2^53. *)
Definition roundoff : R := (/ 9007199254740992)%R.

Definition biased : Rounded.arith :=
  {| Rounded.add := fun x y => ((x + y) * (1 + roundoff))%R;
     Rounded.mul := fun x y => ((x * y) * (1 + roundoff))%R;
     Rounded.div := fun x y => ((x / y) * (1 + roundoff))%R;
     Rounded.root := fun x => (sqrt x * (1 + roundoff))%R |}.





End Scenario.

(* ================================================================= *)
(** ** RAGEngine.query and RAGEngine.queryStream

    The generation provider is a parameter: [generate] stands for
    [llm.generateResponse], [generateStream] for the chunks that
    [llm.generateStreamingResponse] yields. *)

Module Pipeline.

Record options : Type := {
  optTopK : option nat;
  optSystemPrompt : option JS.str;
  optTemperature : option R;
  optHistory : option (list (JS.str * JS.str))
}.

Record source : Type := {
  sourceId : JS.str;
  sourceContent : JS.str;
  sourceMetadata : Metadata;
  sourceScore : R
}.

Record response : Type := {
  answer : JS.str;
  sources : list source;
  responseQuery : JS.str
}.

Inductive event : Type :=
| SourcesEvent (l : list source)
| ContentEvent (chunk : JS.str)
| DoneEvent.

Record stream : Type := {
  events : list event;
  failure : option error
}.

(** [doc.content.substring(0, 200) + (doc.content.length > 200 ? '...' : '')] *)
Definition preview (c : JS.str) : JS.str :=
  firstn 200 c ++ (if Nat.ltb 200 (List.length c) then JS.lit "..." else []).

Definition sourceOf (doc : RetrievalResult) : source :=
  {| sourceId := resultId doc;
     sourceContent := preview (resultContent doc);
     sourceMetadata := resultMetadata doc;
     sourceScore := resultScore doc |}.

(** The options that [query] hands to [generateResponse]: history, system
    prompt and temperature. *)
Definition generationOptions (o : options) : options :=
  {| optTopK := None;
     optSystemPrompt := optSystemPrompt o;
     optTemperature := optTemperature o;
     optHistory := optHistory o |}.

Section Provider.
Variable generate : JS.str -> list RetrievalResult -> options -> JS.str.
Variable generateStream :
  JS.str -> list RetrievalResult -> options -> list JS.str.

Definition query (e : RAGEngine.t) (q : JS.str) (o : options)
  : result response :=
  if negb (RAGEngine.initialized e) then Throw NotInitialized
  else
    let k := LocalEmbeddings.orNat (optTopK o) (RAGEngine.topK e) in
    retrievedDocs <- RAGEngine.retrieve e q k ;;
    match RAGEngine.llm e with
    | None => Throw TypeError
    | Some _ =>
        Ok {| answer := generate q retrievedDocs (generationOptions o);
              sources := map sourceOf retrievedDocs;
              responseQuery := q |}
    end.

(** The events that [queryStream] yields, in order, and the exception
    that ends the iteration, if any. *)
Definition queryStream (e : RAGEngine.t) (q : JS.str) (o : options)
  : stream :=
  if negb (RAGEngine.initialized e)
  then {| events := []; failure := Some NotInitialized |}
  else
    let k := LocalEmbeddings.orNat (optTopK o) (RAGEngine.topK e) in
    match RAGEngine.retrieve e q k with
    | Throw err => {| events := []; failure := Some err |}
    | Ok retrievedDocs =>
        let first := SourcesEvent (map sourceOf retrievedDocs) in
        match RAGEngine.llm e with
        | None => {| events := [first]; failure := Some TypeError |}
        | Some _ =>
            {| events := first
                         :: map ContentEvent (generateStream q retrievedDocs o)
                         ++ [DoneEvent];
               failure := None |}
        end
    end.

End Provider.

End Pipeline.

(* ================================================================= *)
(** ** RAGEngine.initialize with collaborators that can throw

    [DataSource.initialize] and [LLM.initialize] above always return.
    The sources and providers of the repository can throw from
    [initialize] (no path, a path that does not exist, a read that fails,
    no API key).  Here [initialize] is written once more with the two
    calls as parameters that return or throw; [X] is what they throw.
    What the engine holds after an exception is not modelled. *)

Module Startup.

Inductive outcome (X : Type) : Type :=
| Ready (e : RAGEngine.t)     (* [initialize] returned *)
| Refused (err : error)       (* thrown by the engine *)
| Failed (x : X).             (* thrown by a collaborator *)

Arguments Ready {X} e.
Arguments Refused {X} err.
Arguments Failed {X} x.

Section Collaborators.
Variable X : Type.
(** [await this.dataSource.initialize()] and [await this.llm.initialize()] *)
Variable sourceInitialize : DataSource.t -> DataSource.t + X.
Variable llmInitialize : LLM.t -> LLM.t + X.

Definition initialize (e : RAGEngine.t) : outcome X :=
  match RAGEngine.dataSource e with
  | None => Refused DataSourceRequired
  | Some ds =>
      match RAGEngine.llm e with
      | None => Refused LLMRequired
      | Some l =>
          match (if DataSource.initialized ds then inl ds
                 else sourceInitialize ds) with
          | inr x => Failed x
          | inl ds' =>
              match llmInitialize l with
              | inr x => Failed x
              | inl l' =>
                  match
                    match RAGEngine.embeddings e with
                    | Some le =>
                        let texts :=
                          map content (DataSource.getDocuments ds') in
                        let le' := LocalEmbeddings.initialize le texts in
                        RAGEngine.buildVectorIndex
                          (RAGEngine.withCollaborators e (Some ds') (Some l')
                             (Some le'))
                    | None =>
                        Ok (RAGEngine.withCollaborators e (Some ds') (Some l')
                              None)
                    end
                  with
                  | Ok e' => Ready (RAGEngine.withInitialized e' true)
                  | Throw err => Refused err
                  end
              end
          end
      end
  end.

End Collaborators.

End Startup.

(* ================================================================= *)
(** ** The setting topK as a number

    [RAGEngine] above keeps [topK] as a count.  The constructor and
    [updateConfig] store every number that is truthy, a negative or a
    fractional one included; their two lines on [topK] are written here on
    numbers (NaN, which is falsy, is not among the reals). *)

Module TopK.

(** [this.topK = config.topK || 5] *)
Definition create (configTopK : option R) : R :=
  LocalEmbeddings.orNum configTopK 5.

(** [if (config.topK) this.topK = config.topK] *)
Definition updateConfig (topK : R) (configTopK : option R) : R :=
  match configTopK with
  | Some v => if Req_dec_T v 0 then topK else v
  | None => topK
  end.

End TopK.

(* ================================================================= *)
(** ** The windows of chunkText

    The loop of [chunkText] read as the list of its windows
    [start, end): the chunk pushed for a window is
    [text.slice(start, end).trim()]. *)

Module Windows.

Fixpoint windows (fuel : nat) (cfg : FileDataSource.config) (text : JS.str)
  (start : Z) : option (list (Z * Z)) :=
  match fuel with
  | O => None
  | S fuel' =>
      if (start <? JS.len text)%Z
      then let e := FileDataSource.windowEnd cfg text start in
           option_map (cons (start, e))
             (windows fuel' cfg text (e - FileDataSource.chunkOverlap cfg)%Z)
      else Some []
  end.

Definition chunkOf (text : JS.str) (w : Z * Z) : JS.str :=
  JS.trim (JS.slice text (fst w) (snd w)).

End Windows.

(* ================================================================= *)
(** ** FileDataSource.loadText

    The file system is outside the model: [loadText] takes the name, the
    path and the content of the file it would read.  Numbers in metadata
    are written in decimal. *)

Module FileLoader.

(** [`${n}`] for a count. *)
Definition decimal (n : nat) : JS.str :=
  JS.lit (NilEmpty.string_of_uint (Nat.to_uint n)).

(** The document pushed for one chunk. *)
Definition chunkDocument (fileName filePath : JS.str) (total : nat)
  (indexed : nat * JS.str) : Document :=
  {| id := fileName ++ JS.lit "_chunk_" ++ decimal (fst indexed);
     content := snd indexed;
     metadata := [ (JS.lit "source", filePath);
                   (JS.lit "fileName", fileName);
                   (JS.lit "fileType", JS.lit "text");
                   (JS.lit "chunkIndex", decimal (fst indexed));
                   (JS.lit "totalChunks", decimal total) ] |}.

(** [chunks.forEach((chunk, index) => this.documents.push({...}))] *)
Definition pushChunks (documents : list Document) (fileName filePath : JS.str)
  (chunks : list JS.str) : list Document :=
  documents
  ++ map (chunkDocument fileName filePath (List.length chunks))
         (combine (seq 0 (List.length chunks)) chunks).

Definition loadText (fuel : nat) (cfg : FileDataSource.config)
  (documents : list Document) (fileName filePath content : JS.str)
  : option (list Document) :=
  option_map (pushChunks documents fileName filePath)
             (FileDataSource.chunkText fuel cfg content).

End FileLoader.

(* ================================================================= *)
(** ** Vocabulary of the further properties *)

Module Facts.

(** The polynomial hash [h * 31 + c] over the code units, without wrap. *)
Definition polyHash (s : JS.str) : Z :=
  fold_left (fun h c => (h * 31 + JS.code c)%Z) s 0%Z.

(** The characters [a-z0-9_]. *)
Definition lowerWord (c : ascii) : bool :=
  let n := nat_of_ascii c in
  ((48 <=? n) && (n <=? 57)) || ((97 <=? n) && (n <=? 122)) || (n =? 95).

(** The document holds the term as one of its tokens. *)
Definition containsTerm (t : JS.str) (doc : JS.str) : bool :=
  existsb (JSMap.keyEqb t) (LocalEmbeddings.tokenize doc).

(** The document frequency of a term. *)
Definition df (t : JS.str) (docs : list JS.str) : nat :=
  List.length (filter (containsTerm t) docs).

(** The keys of a map after [set] on a key: a new key goes last. *)
Definition addKey (ks : list JS.str) (k : JS.str) : list JS.str :=
  if existsb (JSMap.keyEqb k) ks then ks else ks ++ [k].

(** No white space at either end. *)
Definition trimmed (s : JS.str) : Prop :=
  (forall c rest, s = c :: rest -> JS.isWhiteSpace c = false)
  /\ (forall c front, s = front ++ [c] -> JS.isWhiteSpace c = false).

(** [c] is a contiguous part of [text]. *)
Definition partOf (c text : JS.str) : Prop :=
  exists pre post, text = pre ++ c ++ post.

(** A chain of windows: the first starts at [from], each next one starts
    [ov] before the end of the one before, and after the last one the next
    start is not below [len]. *)
Fixpoint chained (ov len from : Z) (ws : list (Z * Z)) : Prop :=
  match ws with
  | [] => (len <= from)%Z
  | (s, e) :: rest => s = from /\ chained ov len (e - ov)%Z rest
  end.

(** A count as the maps hold it: no entry for zero. *)
Definition entryOfCount (n : nat) : option nat :=
  match n with
  | O => None
  | S _ => Some n
  end.

End Facts.

(* ================================================================= *)
(** * Properties *)

(* ================================================================= *)
(** ** Facts on maps *)

Section MapFacts.
Variable V : Type.
Implicit Types (m : JSMap.t V) (k : JS.str) (v : V).

Lemma keyEqb_eq (a b : JS.str) : JSMap.keyEqb a b = true <-> a = b.
Proof.
  revert b; induction a as [|c a IH]; intros [|d b]; simpl;
    try (split; [discriminate | discriminate]); try tauto.
  rewrite andb_true_iff, Ascii.eqb_eq, IH.
  split; [intros [-> ->]; reflexivity | intros [= -> ->]; auto].
Qed.

Lemma keyEqb_refl (a : JS.str) : JSMap.keyEqb a a = true.
Proof. apply keyEqb_eq; reflexivity. Qed.

Lemma keyEqb_neq (a b : JS.str) : JSMap.keyEqb a b = false <-> a <> b.
Proof.
  rewrite <- keyEqb_eq. destruct (JSMap.keyEqb a b); split; congruence.
Qed.

Lemma get_set_same m k v : JSMap.get k (JSMap.set k v m) = Some v.
Proof.
  induction m as [|[k' v'] m IH]; simpl.
  - now rewrite keyEqb_refl.
  - destruct (JSMap.keyEqb k k') eqn:E; simpl.
    + now rewrite keyEqb_refl.
    + now rewrite E.
Qed.

Lemma get_set_other m k k' v :
  k' <> k -> JSMap.get k' (JSMap.set k v m) = JSMap.get k' m.
Proof.
  intros Hne. induction m as [|[k0 v0] m IH]; simpl.
  - apply keyEqb_neq in Hne. now rewrite Hne.
  - destruct (JSMap.keyEqb k k0) eqn:E; simpl.
    + apply keyEqb_eq in E; subst k0.
      apply keyEqb_neq in Hne. now rewrite Hne.
    + destruct (JSMap.keyEqb k' k0); auto.
Qed.

(** [set] never removes a key: a present key stays where it is. *)
Lemma keys_set m k v :
  JSMap.keys (JSMap.set k v m) =
  if existsb (JSMap.keyEqb k) (JSMap.keys m)
  then JSMap.keys m else JSMap.keys m ++ [k].
Proof.
  unfold JSMap.keys.
  induction m as [|[k' v'] m IH]; simpl; auto.
  destruct (JSMap.keyEqb k k') eqn:E; simpl.
  - apply keyEqb_eq in E. now subst.
  - rewrite IH. destruct (existsb _ _); reflexivity.
Qed.

Lemma keys_set_incl m k v k' :
  In k' (JSMap.keys m) -> In k' (JSMap.keys (JSMap.set k v m)).
Proof.
  rewrite keys_set. destruct (existsb _ _); auto.
  intros H. apply in_or_app. now left.
Qed.

Lemma in_keys_set m k v : In k (JSMap.keys (JSMap.set k v m)).
Proof.
  rewrite keys_set. destruct (existsb _ _) eqn:E.
  - apply existsb_exists in E. destruct E as [x [Hx Hk]].
    apply keyEqb_eq in Hk. now subst.
  - apply in_or_app. right. now left.
Qed.

Lemma get_in_keys m k : In k (JSMap.keys m) -> exists v, JSMap.get k m = Some v.
Proof.
  induction m as [|[k' v'] m IH]; simpl; [tauto|].
  intros [->|H].
  - rewrite keyEqb_refl. eauto.
  - destruct (JSMap.keyEqb k k'); eauto.
Qed.

Lemma get_in_values m k v : JSMap.get k m = Some v -> In v (JSMap.values m).
Proof.
  induction m as [|[k' v'] m IH]; simpl; [discriminate|].
  destruct (JSMap.keyEqb k k'); [intros [= ->]; now left | auto].
Qed.

(** A property of every value survives [set] when the new value has it. *)
Lemma Forall_values_set (P : V -> Prop) m k v :
  P v -> Forall P (JSMap.values m) -> Forall P (JSMap.values (JSMap.set k v m)).
Proof.
  intros Hv. induction m as [|[k' v'] m IH]; simpl; intros Hm.
  - constructor; auto.
  - inversion Hm; subst.
    destruct (JSMap.keyEqb k k'); simpl; constructor; auto.
Qed.

Lemma size_set_le m k v : JSMap.size m <= JSMap.size (JSMap.set k v m).
Proof.
  unfold JSMap.size. induction m as [|[k' v'] m IH]; simpl; [lia|].
  destruct (JSMap.keyEqb k k'); simpl; lia.
Qed.

End MapFacts.

(* ================================================================= *)
(** ** Facts on the vectorizer *)

Section VectorFacts.
Open Scope R_scope.
Import LocalEmbeddings Spec.

Lemma addAt_length i x v : List.length (addAt i x v) = List.length v.
Proof.
  revert i; induction v as [|y v IH]; intros [|i]; simpl; auto.
Qed.



Lemma denseVector_length le text :
  List.length (denseVector le text) = dimension le.
Proof.
  unfold denseVector.
  generalize (maxTf (termFrequency (tokenize text))) as mx.
  generalize (termFrequency (tokenize text)) as tf.
  intros tf mx.
  assert (H : forall v, List.length (fold_left (accumulate le mx) tf v)
                        = List.length v).
  { induction tf as [|en tf IH]; simpl; intros v; auto.
    rewrite IH. apply addAt_length. }
  rewrite H. apply repeat_length.
Qed.

Lemma sumSquares_from (v : list R) (a : R) :
  fold_left (fun sum val => sum + val * val) v a = a + sumSquares v.
Proof.
  unfold sumSquares. revert a. induction v as [|x v IH]; intros a; simpl.
  - lra.
  - rewrite IH, (IH (0 + x * x)). lra.
Qed.

Lemma sumSquares_cons x v : sumSquares (x :: v) = x * x + sumSquares v.
Proof.
  unfold sumSquares at 1. simpl. rewrite sumSquares_from. lra.
Qed.

Lemma sumSquares_nonneg v : 0 <= sumSquares v.
Proof.
  induction v as [|x v IH].
  - unfold sumSquares; simpl; lra.
  - rewrite sumSquares_cons. nra.
Qed.

Lemma sumSquares_zero v : sumSquares v = 0 -> Forall (fun x => x = 0) v.
Proof.
  induction v as [|x v IH]; intros H; constructor;
    rewrite sumSquares_cons in H; pose proof (sumSquares_nonneg v).
  - nra.
  - apply IH. nra.
Qed.

Lemma sumSquares_repeat_zero n : sumSquares (repeat 0 n) = 0.
Proof.
  induction n as [|n IH]; [reflexivity|].
  simpl repeat. rewrite sumSquares_cons, IH. lra.
Qed.

Lemma Forall_zero_repeat v :
  Forall (fun x => x = 0) v -> v = repeat 0 (List.length v).
Proof.
  induction 1 as [|x v Hx _ IH]; simpl; [reflexivity|].
  now rewrite Hx, <- IH.
Qed.

Lemma sumSquares_scale c v :
  sumSquares (map (fun val => val / c) v) = sumSquares v / (c * c).
Proof.
  destruct (Req_dec_T c 0) as [->|Hc].
  - induction v as [|x v IH]; simpl.
    + unfold sumSquares; simpl. unfold Rdiv. lra.
    + rewrite !sumSquares_cons, IH. unfold Rdiv.
      rewrite Rmult_0_l, Rinv_0. lra.
  - induction v as [|x v IH]; simpl.
    + unfold sumSquares; simpl. unfold Rdiv. lra.
    + rewrite !sumSquares_cons, IH. field. exact Hc.
Qed.

(** The two branches of [normalize]: the division is reached only with a
    norm different from zero. *)
Lemma normalize_cases v :
  (l2norm v = 0 /\ normalize v = v) \/
  (l2norm v <> 0 /\ normalize v = map (fun val => val / l2norm v) v).
Proof.
  unfold normalize, l2norm. destruct (Req_dec_T _ 0); auto.
Qed.

Lemma normalize_length v : List.length (normalize v) = List.length v.
Proof.
  destruct (normalize_cases v) as [[_ ->]|[_ ->]]; auto using length_map.
Qed.

Lemma normalize_zero n : normalize (repeat 0 n) = repeat 0 n.
Proof.
  destruct (normalize_cases (repeat 0 n)) as [[_ ->]|[H _]]; auto.
  exfalso. apply H. unfold l2norm.
  rewrite sumSquares_repeat_zero. apply sqrt_0.
Qed.

Lemma normalize_unit v : l2norm v <> 0 -> l2norm (normalize v) = 1.
Proof.
  intros H. destruct (normalize_cases v) as [[H0 _]|[_ ->]]; [tauto|].
  unfold l2norm in *. rewrite sumSquares_scale.
  rewrite sqrt_sqrt by apply sumSquares_nonneg.
  assert (sumSquares v <> 0) by (intros E; rewrite E, sqrt_0 in H; tauto).
  replace (sumSquares v / sumSquares v) with 1 by (field; assumption).
  apply sqrt_1.
Qed.

Lemma normalize_null v :
  l2norm v = 0 -> normalize v = repeat 0 (List.length v).
Proof.
  intros H. destruct (normalize_cases v) as [[_ ->]|[H0 _]]; [|tauto].
  apply Forall_zero_repeat, sumSquares_zero.
  apply sqrt_eq_0; [apply sumSquares_nonneg | exact H].
Qed.

Lemma embed_length le text : List.length (embed le text) = dimension le.
Proof.
  unfold embed. rewrite normalize_length. apply denseVector_length.
Qed.

Lemma embed_no_token le text :
  tokenize text = [] -> embed le text = repeat 0 (dimension le).
Proof.
  intros H. unfold embed, denseVector. rewrite H. simpl.
  apply normalize_zero.
Qed.

Lemma embed_unit_or_zero le text :
  (l2norm (denseVector le text) <> 0 /\ l2norm (embed le text) = 1) \/
  (l2norm (denseVector le text) = 0 /\ embed le text = repeat 0 (dimension le)).
Proof.
  destruct (Req_dec_T (l2norm (denseVector le text)) 0) as [H|H].
  - right. split; auto. unfold embed.
    rewrite normalize_null by exact H. now rewrite denseVector_length.
  - left. split; auto. now apply normalize_unit.
Qed.

Lemma nth_addAt i j x v :
  (j < List.length v)%nat ->
  nth i (addAt j x v) 0 = if Nat.eqb i j then nth i v 0 + x else nth i v 0.
Proof.
  revert i j. induction v as [|y v IH]; intros i j Hj; simpl in Hj; [lia|].
  destruct j as [|j], i as [|i]; simpl; auto.
  apply IH. lia.
Qed.

Lemma sumSquares_ge_nth v i : nth i v 0 * nth i v 0 <= sumSquares v.
Proof.
  revert i. induction v as [|y v IH]; intros i.
  - destruct i; simpl; unfold sumSquares; simpl; lra.
  - rewrite sumSquares_cons. pose proof (sumSquares_nonneg v).
    destruct i as [|i]; simpl.
    + nra.
    + specialize (IH i). nra.
Qed.

Lemma l2norm_nonzero_at v i : nth i v 0 <> 0 -> l2norm v <> 0.
Proof.
  intros Hi H. unfold l2norm in H.
  apply sqrt_eq_0 in H; [|apply sumSquares_nonneg].
  pose proof (sumSquares_ge_nth v i). nra.
Qed.

Lemma dotProduct_self v : dotProduct v v = sumSquares v.
Proof.
  induction v as [|x v IH]; simpl.
  - reflexivity.
  - rewrite sumSquares_cons, IH. reflexivity.
Qed.

Lemma l2norm_one_sumSquares v : l2norm v = 1 -> sumSquares v = 1.
Proof.
  unfold l2norm. intros H.
  rewrite <- (sqrt_sqrt (sumSquares v)) by apply sumSquares_nonneg.
  rewrite H. lra.
Qed.

Lemma termFrequency_keys tokens : forall m t,
  In t (JSMap.keys (fold_left countToken tokens m)) ->
  In t (JSMap.keys m) \/ In t tokens.
Proof.
  induction tokens as [|x tokens IH]; intros m t Ht; simpl in *; auto.
  apply IH in Ht. destruct Ht as [Ht|Ht]; auto.
  unfold countToken in Ht. rewrite keys_set in Ht.
  destruct (existsb _ _); auto.
  apply in_app_or in Ht. destruct Ht as [Ht|[<-|[]]]; auto.
Qed.

Lemma fold_left_ext_in (A B : Type) (f g : A -> B -> A) (l : list B) :
  (forall a x, In x l -> f a x = g a x) ->
  forall a, fold_left f l a = fold_left g l a.
Proof.
  induction l as [|x l IH]; intros H a; simpl; auto.
  rewrite H by now left. apply IH. intros; apply H. now right.
Qed.

(** [denseVector] reads the vectorizer through its width and through the
    weights of the tokens of the text only. *)
Lemma denseVector_ext le le' text :
  dimension le = dimension le' ->
  (forall t, In t (tokenize text) -> denseIdf le t = denseIdf le' t) ->
  denseVector le text = denseVector le' text.
Proof.
  intros Hd Hw. unfold denseVector. rewrite Hd.
  apply fold_left_ext_in. intros v [t f] Hin.
  unfold accumulate, contribution, bucket. cbn [fst snd].
  rewrite Hd, Hw; [reflexivity|].
  assert (Hk : In t (JSMap.keys (termFrequency (tokenize text)))).
  { unfold JSMap.keys. apply in_map_iff. now exists (t, f). }
  apply termFrequency_keys in Hk. destruct Hk as [[]|Hk]. exact Hk.
Qed.

Lemma maxTf_positive tf : (1 <= maxTf tf)%nat.
Proof.
  unfold maxTf. generalize (JSMap.values tf) as l. intros l.
  assert (H : forall a, (1 <= a)%nat -> (1 <= fold_left Nat.max l a)%nat).
  { induction l as [|x l IH]; simpl; intros a Ha; auto. apply IH. lia. }
  apply H. lia.
Qed.

End VectorFacts.

(* ================================================================= *)
(** ** Facts on the ranker *)

Section RankerFacts.
Open Scope R_scope.
Import LocalEmbeddings Spec.

Lemma dotLoop_from (l : list (R * R)) (a : R) :
  fold_left (fun acc xy => acc + fst xy * snd xy) l a
  = a + fold_left (fun acc xy => acc + fst xy * snd xy) l 0.
Proof.
  revert a. induction l as [|p l IH]; intros a; simpl.
  - lra.
  - rewrite IH, (IH (0 + _)). lra.
Qed.

Lemma dotLoop_dotProduct a b : dotLoop a b = dotProduct a b.
Proof.
  unfold dotLoop. revert b.
  induction a as [|x a IH]; intros [|y b]; simpl; auto.
  rewrite dotLoop_from, IH. simpl. lra.
Qed.

Lemma dotProduct_zero_l n b : dotProduct (repeat 0 n) b = 0.
Proof.
  revert b. induction n as [|n IH]; intros [|y b]; simpl; auto.
  rewrite IH. lra.
Qed.

Lemma cosineSimilarity_eq a b :
  cosineSimilarity a b =
  if Nat.eqb (List.length a) (List.length b)
  then Ok (dotProduct a b) else Throw DimensionMismatch.
Proof.
  unfold cosineSimilarity. now rewrite dotLoop_dotProduct.
Qed.

Lemma scoring_ok q docs :
  Forall (fun d => List.length (vector d) = List.length q) docs ->
  mapM (scoreDoc q) docs = Ok (scoresOf q docs).
Proof.
  induction 1 as [|d docs Hd _ IH]; simpl; auto.
  unfold scoreDoc at 1. rewrite cosineSimilarity_eq, Hd, Nat.eqb_refl.
  simpl. now rewrite IH.
Qed.


Lemma insertSorted_perm (x : Scored) l :
  Permutation (insertSorted byScore x l) (x :: l).
Proof.
  induction l as [|y l IH]; simpl; auto.
  destruct (Rlt_dec 0 (byScore x y)); auto.
  rewrite IH. apply perm_swap.
Qed.

Lemma sortBy_perm (l : list Scored) : Permutation (sortBy byScore l) l.
Proof.
  induction l as [|x l IH]; simpl; auto.
  rewrite insertSorted_perm. now constructor.
Qed.

Lemma insertSorted_descending x l :
  descending l -> descending (insertSorted byScore x l).
Proof.
  unfold descending.
  induction 1 as [|y l Hl IH Hy]; simpl.
  - repeat constructor.
  - unfold byScore at 1. destruct (Rlt_dec 0 (score y - score x)) as [Hlt|Hge].
    + constructor; auto.
      apply Forall_forall. intros z Hz.
      apply (Permutation_in _ (insertSorted_perm x l)) in Hz.
      destruct Hz as [<-|Hz]; [lra|].
      rewrite Forall_forall in Hy. auto.
    + constructor; [constructor; auto|].
      constructor; [lra|].
      eapply Forall_impl; [|exact Hy]. simpl. intros z Hz. lra.
Qed.

Lemma sortBy_descending (l : list Scored) : descending (sortBy byScore l).
Proof.
  induction l as [|x l IH]; simpl.
  - constructor.
  - now apply insertSorted_descending.
Qed.

Lemma insertSorted_filter c x l :
  filter (hasScore c) (insertSorted byScore x l)
  = filter (hasScore c) (x :: l).
Proof.
  induction l as [|y l IH]; simpl; auto.
  unfold byScore at 1.
  destruct (Rlt_dec 0 (score y - score x)) as [Hlt|Hge]; auto.
  simpl in *. rewrite IH. unfold hasScore.
  destruct (Req_dec_T (score x) c), (Req_dec_T (score y) c); auto.
  lra.
Qed.

Lemma sortBy_stable (l : list Scored) : stableWrt l (sortBy byScore l).
Proof.
  intros c. induction l as [|x l IH]; simpl; auto.
  rewrite insertSorted_filter. simpl. now rewrite IH.
Qed.

(** With equal scores everywhere the sort changes nothing. *)
Lemma sortBy_constant c (l : list Scored) :
  Forall (fun s => score s = c) l -> sortBy byScore l = l.
Proof.
  induction 1 as [|x l Hx Hl IH]; simpl; auto.
  rewrite IH. destruct Hl as [|y l Hy Hl]; simpl; auto.
  unfold byScore. destruct (Rlt_dec 0 (score y - score x)); auto. lra.
Qed.

End RankerFacts.

(* ================================================================= *)
(** ** Facts on the engine *)

Section EngineFacts.
Import RAGEngine Spec.

Lemma keyed_set m k v : entryId v = k -> keyed m -> keyed (JSMap.set k v m).
Proof.
  intros Hv. unfold keyed.
  induction 1 as [|[k' v'] m Hk Hm IH]; simpl.
  - repeat constructor. exact Hv.
  - destruct (JSMap.keyEqb k k'); constructor; auto.
Qed.

Lemma keyed_get m k v : keyed m -> JSMap.get k m = Some v -> entryId v = k.
Proof.
  unfold keyed. induction 1 as [|[k' v'] m Hk Hm IH]; simpl; [discriminate|].
  destruct (JSMap.keyEqb k k') eqn:E; auto.
  intros [= ->]. apply keyEqb_eq in E. simpl in Hk. congruence.
Qed.

Lemma keyed_in_keys m d :
  keyed m -> In d (JSMap.values m) -> In (entryId d) (JSMap.keys m).
Proof.
  unfold keyed, JSMap.values, JSMap.keys. rewrite Forall_forall.
  intros Hk Hd. apply in_map_iff in Hd. destruct Hd as [[k v] [<- Hin]].
  pose proof (Hk _ Hin) as E. simpl in *. rewrite E.
  apply in_map_iff. now exists (k, v).
Qed.

Lemma scoresOf_covered cache q :
  keyed cache -> covered cache (scoresOf q (JSMap.values cache)).
Proof.
  intros Hk. apply Forall_forall. intros s Hs.
  apply in_map_iff in Hs. destruct Hs as [d [<- Hd]]. simpl.
  apply get_in_keys. now apply keyed_in_keys.
Qed.

Lemma covered_incl cache l l' :
  incl l l' -> covered cache l' -> covered cache l.
Proof.
  unfold covered. rewrite !Forall_forall. auto.
Qed.

Lemma firstn_incl (A : Type) n (l : list A) : incl (firstn n l) l.
Proof.
  intros x Hx. rewrite <- (firstn_skipn n l). apply in_or_app. now left.
Qed.

Lemma pushResult_ok e acc s doc :
  JSMap.get (scoredId s) (documentVectors e) = Some doc ->
  exists r, pushResult e acc s = Ok (acc ++ [r])
            /\ answers (documentVectors e) r s.
Proof.
  intros H. unfold pushResult. rewrite H.
  eexists. split; [reflexivity|]. exists doc. auto.
Qed.

Lemma filterLoop_ok e k sims : forall acc,
  covered (documentVectors e) sims ->
  exists rs,
    filterLoop e k sims acc = Ok (acc ++ rs)
    /\ Forall2 (answers (documentVectors e)) rs
         (firstn (k - List.length acc)
                 (filter (passes (similarityThreshold e)) sims)).
Proof.
  induction sims as [|s sims IH]; intros acc Hc; simpl.
  - exists []. rewrite app_nil_r, firstn_nil. auto.
  - inversion Hc as [|? ? [doc Hdoc] Hc']; subst.
    unfold passes at 1.
    destruct (Rle_dec (similarityThreshold e) (score s)) as [Hp|Hp].
    + destruct (Nat.ltb (List.length acc) k) eqn:Hlt.
      * apply Nat.ltb_lt in Hlt.
        destruct (pushResult_ok e acc s Hdoc) as [r [-> Hr]]. simpl.
        destruct (IH (acc ++ [r]) Hc') as [rs [-> Hrs]].
        exists (r :: rs). rewrite <- app_assoc. split; [reflexivity|].
        rewrite length_app in Hrs. simpl in Hrs.
        replace (k - List.length acc)
          with (S (k - (List.length acc + 1))) by lia.
        simpl. constructor; auto.
      * apply Nat.ltb_ge in Hlt.
        destruct (IH acc Hc') as [rs [-> Hrs]].
        exists rs. split; [reflexivity|].
        replace (k - List.length acc) with 0 in * by lia.
        exact Hrs.
    + destruct (IH acc Hc') as [rs [-> Hrs]]. eauto.
Qed.

Lemma pushAll_ok e sims : forall acc,
  covered (documentVectors e) sims ->
  exists rs,
    pushAll e sims acc = Ok (acc ++ rs)
    /\ Forall2 (answers (documentVectors e)) rs sims.
Proof.
  induction sims as [|s sims IH]; intros acc Hc; simpl.
  - exists []. rewrite app_nil_r. auto.
  - inversion Hc as [|? ? [doc Hdoc] Hc']; subst.
    destruct (pushResult_ok e acc s Hdoc) as [r [-> Hr]]. simpl.
    destruct (IH (acc ++ [r]) Hc') as [rs [-> Hrs]].
    exists (r :: rs). rewrite <- app_assoc. split; [reflexivity|].
    constructor; auto.
Qed.

Lemma findSimilar_candidates e le query k :
  wellFormed e -> embeddings e = Some le ->
  LocalEmbeddings.findSimilar (LocalEmbeddings.embed le query)
    (JSMap.values (documentVectors e)) (k * 2)
  = Ok (candidates e le query k).
Proof.
  intros [_ Hw] Hle. unfold LocalEmbeddings.findSimilar.
  rewrite scoring_ok; [reflexivity|].
  eapply Forall_impl; [|exact (Hw le Hle)].
  simpl. intros d Hd. now rewrite embed_length.
Qed.

Lemma candidates_covered e le query k :
  wellFormed e -> covered (documentVectors e) (candidates e le query k).
Proof.
  intros [Hk _]. unfold candidates.
  eapply covered_incl; [apply firstn_incl|].
  eapply covered_incl; [|apply scoresOf_covered, Hk].
  intros x Hx. eapply Permutation_in; [apply sortBy_perm|exact Hx].
Qed.

Lemma retrieveByVector_spec e le query k :
  wellFormed e -> embeddings e = Some le ->
  exists results,
    retrieveByVector e le query k = Ok results
    /\ Forall2 (answers (documentVectors e)) results
         (chosen (similarityThreshold e) k (candidates e le query k)).
Proof.
  intros Hw Hle. unfold retrieveByVector.
  rewrite findSimilar_candidates by assumption. simpl.
  pose proof (candidates_covered le query k Hw) as Hc.
  destruct (filterLoop_ok e k [] Hc) as [rs [-> Hrs]]. simpl in *.
  rewrite Nat.sub_0_r in Hrs. unfold chosen.
  destruct rs as [|r rs].
  - inversion Hrs as [E|]. 
    destruct (candidates e le query k) as [|s sims] eqn:Ec.
    + exists []. rewrite firstn_nil. auto.
    + destruct (pushAll_ok e [] (covered_incl (firstn_incl k (s :: sims)) Hc))
        as [rs [-> Hrs']].
      exists rs. auto.
  - exists (r :: rs). split; [reflexivity|].
    inversion Hrs; subst. constructor; auto.
Qed.

Lemma answers_ids cache results l :
  keyed cache -> Forall2 (answers cache) results l ->
  map resultId results = map scoredId l
  /\ map resultScore results = map score l.
Proof.
  intros Hk. induction 1 as [|r s results l [doc [Hg ->]] _ [IH1 IH2]]; simpl.
  - auto.
  - rewrite IH1, IH2, (keyed_get _ Hk Hg). auto.
Qed.

Lemma retrieve_vector_path e le query k :
  embeddings e = Some le -> 0 < JSMap.size (documentVectors e) ->
  retrieve e query k = retrieveByVector e le query k.
Proof.
  intros Hle Hs. unfold retrieve. rewrite Hle.
  apply Nat.ltb_lt in Hs. now rewrite Hs.
Qed.

(** *** Operations that fill the cache *)

Lemma buildVocabulary_dimension le docs :
  LocalEmbeddings.dimension (LocalEmbeddings.buildVocabulary le docs)
  = LocalEmbeddings.dimension le.
Proof.
  unfold LocalEmbeddings.buildVocabulary.
  destruct (fold_left _ _ _) as [docFreq vocab]. reflexivity.
Qed.

Lemma initialize_dimension le docs :
  LocalEmbeddings.dimension (LocalEmbeddings.initialize le docs)
  = LocalEmbeddings.dimension le.
Proof.
  unfold LocalEmbeddings.initialize. destruct docs; simpl; auto.
  apply buildVocabulary_dimension.
Qed.

Lemma index_keyed le docs : forall m,
  keyed m -> keyed (fold_left (indexDocument le) docs m).
Proof.
  induction docs as [|d docs IH]; simpl; intros m Hm; auto.
  apply IH. unfold indexDocument. now apply keyed_set.
Qed.

Lemma index_keys_incl le docs : forall m k,
  In k (JSMap.keys m) -> In k (JSMap.keys (fold_left (indexDocument le) docs m)).
Proof.
  induction docs as [|d docs IH]; simpl; intros m k Hk; auto.
  apply IH. unfold indexDocument. now apply keys_set_incl.
Qed.

Section Preservation.
Variable P : nat -> VectorEntry -> Prop.
Hypothesis P_embed : forall le i c md,
  P (LocalEmbeddings.dimension le)
    {| entryId := i; entryContent := c; entryMetadata := md;
       vector := LocalEmbeddings.embed le c |}.

Lemma index_Forall le docs : forall m,
  Forall (P (LocalEmbeddings.dimension le)) (JSMap.values m) ->
  Forall (P (LocalEmbeddings.dimension le))
         (JSMap.values (fold_left (indexDocument le) docs m)).
Proof.
  induction docs as [|d docs IH]; simpl; intros m Hm; auto.
  apply IH. unfold indexDocument. apply Forall_values_set; auto.
Qed.

Lemma buildVectorIndex_holds e e' :
  cacheHolds P e -> buildVectorIndex e = Ok e' -> cacheHolds P e'.
Proof.
  unfold buildVectorIndex, cacheHolds. intros H.
  destruct (dataSource e) as [ds|]; [|discriminate].
  destruct (embeddings e) as [le|] eqn:Hle; [|discriminate].
  intros [= <-] le' Hle'. simpl in *. rewrite Hle in Hle'.
  injection Hle' as <-. apply index_Forall. auto.
Qed.

Lemma initialize_holds e e' :
  cacheHolds P e -> initialize e = Ok e' -> cacheHolds P e'.
Proof.
  unfold initialize. intros H.
  destruct (dataSource e) as [ds|]; [|discriminate].
  destruct (llm e) as [l|]; [|discriminate].
  destruct (embeddings e) as [le|] eqn:Hle.
  - match goal with
    | |- context [buildVectorIndex ?x] =>
        destruct (buildVectorIndex x) as [e1|] eqn:Hb; [|discriminate]
    end.
    simpl. intros [= <-].
    eapply buildVectorIndex_holds in Hb.
    + intros le' Hle'. apply Hb. exact Hle'.
    + intros le' [= <-]. rewrite initialize_dimension. auto.
  - simpl. intros [= <-] le' Hle'. discriminate.
Qed.

Lemma refresh_holds e e' :
  cacheHolds P e -> refresh e = Ok e' -> cacheHolds P e'.
Proof.
  unfold refresh. intros H.
  destruct (dataSource e) as [ds|]; [|discriminate].
  destruct (embeddings e) as [le|] eqn:Hle.
  - intros Hb. eapply buildVectorIndex_holds in Hb; auto.
    intros le' [= <-]. rewrite buildVocabulary_dimension. auto.
  - intros [= <-] le' Hle'. discriminate.
Qed.

Lemma addDocument_holds e e' doc i :
  cacheHolds P e -> addDocument e doc = Ok (e', i) -> cacheHolds P e'.
Proof.
  unfold addDocument. intros H.
  destruct (dataSource e) as [ds|]; [|discriminate].
  destruct (DataSource.addDocument ds doc) as [ds' i'].
  destruct (embeddings e) as [le|] eqn:Hle.
  - intros [= <- <-] le' Hle'. simpl in *.
    injection Hle' as <-. apply Forall_values_set; auto.
  - intros [= <- <-] le' Hle'. simpl in Hle'. congruence.
Qed.

End Preservation.

Lemma buildVectorIndex_keyed e e' :
  keyed (documentVectors e) -> buildVectorIndex e = Ok e' ->
  keyed (documentVectors e').
Proof.
  unfold buildVectorIndex. intros H.
  destruct (dataSource e) as [ds|]; [|discriminate].
  destruct (embeddings e) as [le|]; [|discriminate].
  intros [= <-]. simpl. now apply index_keyed.
Qed.

Lemma initialize_keyed e e' :
  keyed (documentVectors e) -> initialize e = Ok e' ->
  keyed (documentVectors e').
Proof.
  unfold initialize. intros H.
  destruct (dataSource e) as [ds|]; [|discriminate].
  destruct (llm e) as [l|]; [|discriminate].
  destruct (embeddings e) as [le|].
  - match goal with
    | |- context [buildVectorIndex ?x] =>
        destruct (buildVectorIndex x) as [e1|] eqn:Hb; [|discriminate]
    end.
    simpl. intros [= <-]. simpl.
    eapply buildVectorIndex_keyed; [|exact Hb]. exact H.
  - simpl. intros [= <-]. exact H.
Qed.

Lemma refresh_keyed e e' :
  keyed (documentVectors e) -> refresh e = Ok e' ->
  keyed (documentVectors e').
Proof.
  unfold refresh. intros H.
  destruct (dataSource e) as [ds|]; [|discriminate].
  destruct (embeddings e) as [le|].
  - intros Hb. eapply buildVectorIndex_keyed; [|exact Hb]. exact H.
  - intros [= <-]. exact H.
Qed.

Lemma addDocument_keyed e e' doc i :
  keyed (documentVectors e) -> addDocument e doc = Ok (e', i) ->
  keyed (documentVectors e').
Proof.
  unfold addDocument. intros H.
  destruct (dataSource e) as [ds|]; [|discriminate].
  destruct (DataSource.addDocument ds doc) as [ds' i'].
  destruct (embeddings e) as [le|].
  - intros [= <- <-]. simpl. now apply keyed_set.
  - intros [= <- <-]. exact H.
Qed.

Lemma embed_width le i c md :
  List.length (vector {| entryId := i; entryContent := c; entryMetadata := md;
                         vector := LocalEmbeddings.embed le c |})
  = LocalEmbeddings.dimension le.
Proof. apply embed_length. Qed.

Lemma create_wellFormed c : wellFormed (create c).
Proof.
  split; [constructor|]. intros le _. constructor.
Qed.

Lemma initialize_wellFormed e e' :
  wellFormed e -> initialize e = Ok e' -> wellFormed e'.
Proof.
  intros [Hk Hw] H. split.
  - eapply initialize_keyed; eauto.
  - eapply initialize_holds; eauto. intros; apply embed_width.
Qed.

Lemma refresh_wellFormed e e' :
  wellFormed e -> refresh e = Ok e' -> wellFormed e'.
Proof.
  intros [Hk Hw] H. split.
  - eapply refresh_keyed; eauto.
  - eapply refresh_holds; eauto. intros; apply embed_width.
Qed.

Lemma addDocument_wellFormed e e' doc i :
  wellFormed e -> addDocument e doc = Ok (e', i) -> wellFormed e'.
Proof.
  intros [Hk Hw] H. split.
  - eapply addDocument_keyed; eauto.
  - eapply addDocument_holds; eauto. intros; apply embed_width.
Qed.

Lemma storeBecomes_wellFormed e stored :
  wellFormed e -> wellFormed (Scenario.storeBecomes e stored).
Proof. intros [Hk Hw]. split; auto. Qed.

Lemma create_cacheHolds P c : cacheHolds P (create c).
Proof. intros le _. constructor. Qed.

End EngineFacts.

(** C8. Ranking order: when every document vector has the length of the
    query vector, [findSimilar] returns the first [topK] elements of a
    list that holds the (id, dot product) pairs of the documents, is sorted
    descending by score, and keeps documents of equal score in their
    input order. *)
Theorem findSimilar_ranking (q : list R) (docs : list VectorEntry) (k : nat) :
  Forall (fun d => List.length (vector d) = List.length q) docs ->
  exists ranked,
    LocalEmbeddings.findSimilar q docs k = Ok (firstn k ranked)
    /\ Permutation ranked (Spec.scoresOf q docs)
    /\ Spec.descending ranked
    /\ Spec.stableWrt (Spec.scoresOf q docs) ranked.
Proof.
  intros H. exists (sortBy LocalEmbeddings.byScore (Spec.scoresOf q docs)).
  unfold LocalEmbeddings.findSimilar. rewrite scoring_ok by exact H. simpl.
  repeat split.
  - apply sortBy_perm.
  - apply sortBy_descending.
  - apply sortBy_stable.
Qed.

Lemma findSimilar_ranking_witness :
  exists ranked,
    LocalEmbeddings.findSimilar [1%R] Scenario.ranked3 2 = Ok (firstn 2 ranked)
    /\ Permutation ranked (Spec.scoresOf [1%R] Scenario.ranked3)
    /\ Spec.descending ranked
    /\ Spec.stableWrt (Spec.scoresOf [1%R] Scenario.ranked3) ranked.
Proof.
  apply (@findSimilar_ranking [1%R] Scenario.ranked3 2).
  repeat constructor.
Defined.

(** The ranking of the three documents of [Scenario.ranked3]: the two
    documents of score 0.9 come first, in their input order. *)
Example findSimilar_ranked3 :
  exists out,
    LocalEmbeddings.findSimilar [1%R] Scenario.ranked3 2 = Ok out
    /\ map scoredId out = [JS.lit "a"; JS.lit "b"].
Proof.
  unfold LocalEmbeddings.findSimilar.
  rewrite scoring_ok by repeat constructor.
  eexists. split; [reflexivity|].
  unfold Spec.scoresOf, Scenario.ranked3. simpl map at 2.
  cbn [sortBy insertSorted LocalEmbeddings.byScore score vector entryId
       Spec.dotProduct].
  repeat match goal with
         | |- context [Rlt_dec ?a ?b] =>
             let H := fresh "H" in
             destruct (Rlt_dec a b) as [H|H];
             unfold LocalEmbeddings.byScore in H; cbn [score] in H;
             try (exfalso; lra); cbn [insertSorted]
         end.
  reflexivity.
Qed.




(* ================================================================= *)
(** ** Threshold and fallback *)

Section ThresholdFacts.
Import RAGEngine Spec.

Lemma candidates_length e le query k :
  List.length (candidates e le query k)
  = Nat.min (k * 2) (JSMap.size (documentVectors e)).
Proof.
  unfold candidates. rewrite length_firstn.
  rewrite (Permutation_length (sortBy_perm _)).
  unfold scoresOf, JSMap.size, JSMap.values. now rewrite !length_map.
Qed.

Lemma chosen_zero threshold l : chosen threshold 0 l = [].
Proof. reflexivity. Qed.

Lemma chosen_nonempty threshold k l :
  1 <= k -> l <> [] -> chosen threshold k l <> [].
Proof.
  intros Hk Hl. unfold chosen.
  destruct (firstn k (filter (passes threshold) l)); [|discriminate].
  destruct l; [congruence|]. destruct k; [lia|]. discriminate.
Qed.

Lemma passes_below threshold s :
  (score s < threshold)%R -> passes threshold s = false.
Proof.
  intros H. unfold passes. destruct (Rle_dec threshold (score s)); auto. lra.
Qed.

Lemma chosen_none_passes threshold k l :
  Forall (fun s => (score s < threshold)%R) l ->
  chosen threshold k l = firstn k l.
Proof.
  intros H. unfold chosen.
  assert (E : filter (passes threshold) l = []).
  { induction H as [|s l Hs _ IH]; simpl; auto.
    now rewrite passes_below. }
  rewrite E, firstn_nil. reflexivity.
Qed.

End ThresholdFacts.

(** C2 (as amended). Threshold fallback: with a vectorizer and a
    non-empty cache, [retrieve(query, topK)] asks the ranker for [2 * topK]
    candidates and returns, in rank order, the first [topK] candidates whose
    score is at least [similarityThreshold], or the first [topK] candidates
    when none passes; the result is not empty when [topK] is at least 1. *)
Theorem retrieve_threshold_fallback
  (e : RAGEngine.t) (le : LocalEmbeddings.t) (query : JS.str) (k : nat) :
  RAGEngine.embeddings e = Some le ->
  Spec.wellFormed e ->
  0 < JSMap.size (RAGEngine.documentVectors e) ->
  exists results,
    LocalEmbeddings.findSimilar (LocalEmbeddings.embed le query)
      (JSMap.values (RAGEngine.documentVectors e)) (k * 2)
    = Ok (Spec.candidates e le query k)
    /\ RAGEngine.retrieve e query k = Ok results
    /\ Forall2 (Spec.answers (RAGEngine.documentVectors e)) results
         (Spec.chosen (RAGEngine.similarityThreshold e) k
                      (Spec.candidates e le query k))
    /\ map resultId results
       = map scoredId (Spec.chosen (RAGEngine.similarityThreshold e) k
                                   (Spec.candidates e le query k))
    /\ map resultScore results
       = map score (Spec.chosen (RAGEngine.similarityThreshold e) k
                                (Spec.candidates e le query k))
    /\ (1 <= k -> results <> []).
Proof.
  intros Hle Hw Hsize.
  destruct (retrieveByVector_spec query k Hw Hle) as [results [Hr Ha]].
  exists results.
  destruct (answers_ids (proj1 Hw) Ha) as [Hids Hscores].
  repeat split; auto.
  - now apply findSimilar_candidates.
  - now rewrite (retrieve_vector_path e query k Hle Hsize).
  - intros Hk Hnil. subst results. apply Forall2_length in Ha.
    destruct (Spec.chosen _ _ _) eqn:E; [|discriminate].
    revert E. apply chosen_nonempty; auto.
    intros Hc. pose proof (candidates_length e le query k) as Hl.
    rewrite Hc in Hl. simpl in Hl. lia.
Qed.

Lemma engine1_initialized :
  RAGEngine.initialize (Scenario.engine [Scenario.doc1; Scenario.doc2])
  = Ok Scenario.engine1.
Proof. reflexivity. Qed.

Lemma engine1_wellFormed : Spec.wellFormed Scenario.engine1.
Proof.
  eapply initialize_wellFormed; [|exact engine1_initialized].
  apply create_wellFormed.
Qed.

Lemma retrieve_threshold_fallback_witness :
  exists results,
    LocalEmbeddings.findSimilar
      (LocalEmbeddings.embed Scenario.vectorizer1 (JS.lit "machine learning"))
      (JSMap.values (RAGEngine.documentVectors Scenario.engine1)) (1 * 2)
    = Ok (Spec.candidates Scenario.engine1 Scenario.vectorizer1
            (JS.lit "machine learning") 1)
    /\ RAGEngine.retrieve Scenario.engine1 (JS.lit "machine learning") 1
       = Ok results
    /\ Forall2 (Spec.answers (RAGEngine.documentVectors Scenario.engine1))
         results
         (Spec.chosen (RAGEngine.similarityThreshold Scenario.engine1) 1
            (Spec.candidates Scenario.engine1 Scenario.vectorizer1
               (JS.lit "machine learning") 1))
    /\ map resultId results
       = map scoredId
           (Spec.chosen (RAGEngine.similarityThreshold Scenario.engine1) 1
              (Spec.candidates Scenario.engine1 Scenario.vectorizer1
                 (JS.lit "machine learning") 1))
    /\ map resultScore results
       = map score
           (Spec.chosen (RAGEngine.similarityThreshold Scenario.engine1) 1
              (Spec.candidates Scenario.engine1 Scenario.vectorizer1
                 (JS.lit "machine learning") 1))
    /\ (1 <= 1 -> results <> []).
Proof.
  apply (@retrieve_threshold_fallback Scenario.engine1 Scenario.vectorizer1
           (JS.lit "machine learning") 1).
  - reflexivity.
  - exact engine1_wellFormed.
  - lazy. lia.
Defined.

(** C2, counterexample to the property as the specification states it:
    with a vectorizer and two cached
    documents, [retrieve(query, 0)] returns the empty list. *)
Lemma retrieve_zero_is_empty :
  RAGEngine.embeddings Scenario.engine1 = Some Scenario.vectorizer1
  /\ JSMap.size (RAGEngine.documentVectors Scenario.engine1) = 2
  /\ RAGEngine.retrieve Scenario.engine1 (JS.lit "machine learning") 0 = Ok [].
Proof.
  split; [reflexivity|]. split; [reflexivity|].
  rewrite (@retrieve_vector_path Scenario.engine1 Scenario.vectorizer1)
    by (try reflexivity; lazy; lia).
  destruct (@retrieveByVector_spec Scenario.engine1 Scenario.vectorizer1
              (JS.lit "machine learning") 0 engine1_wellFormed eq_refl)
    as [results [-> Ha]].
  rewrite chosen_zero in Ha. inversion Ha. reflexivity.
Qed.

(* ================================================================= *)
(** ** Refresh *)

Section RefreshFacts.
Import RAGEngine Spec.

(** [refresh] only calls [set] on the cache: no key ever leaves it. *)
Lemma refresh_keeps_keys e e' k :
  refresh e = Ok e' ->
  In k (JSMap.keys (documentVectors e)) ->
  In k (JSMap.keys (documentVectors e')).
Proof.
  unfold refresh, buildVectorIndex.
  destruct (dataSource e) as [ds|]; [|discriminate].
  destruct (embeddings e) as [le|]; simpl.
  - intros [= <-] Hk. simpl. now apply index_keys_incl.
  - intros [= <-] Hk. exact Hk.
Qed.

Lemma scoresOf_zero_query n docs :
  scoresOf (repeat 0%R n) docs
  = map (fun d => {| scoredId := entryId d; score := 0%R |}) docs.
Proof.
  unfold scoresOf. apply map_ext. intros d.
  now rewrite dotProduct_zero_l.
Qed.

(** A query without token scores 0 against every entry: the candidates
    are the cache entries in cache order. *)
Lemma candidates_no_token e le query k :
  LocalEmbeddings.tokenize query = [] ->
  candidates e le query k
  = firstn (k * 2)
      (map (fun d => {| scoredId := entryId d; score := 0%R |})
           (JSMap.values (documentVectors e))).
Proof.
  intros H. unfold candidates.
  rewrite embed_no_token by exact H.
  rewrite scoresOf_zero_query.
  rewrite (@sortBy_constant 0%R); [reflexivity|].
  apply Forall_forall. intros s Hs.
  apply in_map_iff in Hs. now destruct Hs as [d [<- _]].
Qed.

(** With room for every candidate, an entry whose score passes the
    threshold is returned. *)
Lemma retrieve_returns_passing e le query k en :
  wellFormed e -> embeddings e = Some le ->
  JSMap.size (documentVectors e) <= k ->
  In en (JSMap.values (documentVectors e)) ->
  (similarityThreshold e
   <= dotProduct (LocalEmbeddings.embed le query) (vector en))%R ->
  exists results,
    retrieve e query k = Ok results
    /\ In (entryId en) (map resultId results).
Proof.
  intros Hw Hle Hk Hen Hscore.
  assert (Hsize : 0 < JSMap.size (documentVectors e)).
  { unfold JSMap.size, JSMap.values in *.
    destruct (documentVectors e); simpl in *; [tauto | lia]. }
  rewrite (retrieve_vector_path e query k Hle Hsize).
  destruct (retrieveByVector_spec query k Hw Hle) as [results [-> Ha]].
  exists results. split; [reflexivity|].
  destruct (answers_ids (proj1 Hw) Ha) as [-> _].
  set (s := {| scoredId := entryId en;
               score := dotProduct (LocalEmbeddings.embed le query)
                                   (vector en) |}).
  change (entryId en) with (scoredId s). apply in_map.
  set (scores := scoresOf (LocalEmbeddings.embed le query)
                          (JSMap.values (documentVectors e))).
  assert (Hlen : List.length (sortBy LocalEmbeddings.byScore scores)
                 = JSMap.size (documentVectors e)).
  { rewrite (Permutation_length (sortBy_perm _)). unfold scores, scoresOf.
    rewrite length_map. unfold JSMap.values, JSMap.size. apply length_map. }
  assert (Hc : candidates e le query k = sortBy LocalEmbeddings.byScore scores).
  { unfold candidates. apply firstn_all2. fold scores. lia. }
  assert (Hin : In s (filter (passes (similarityThreshold e))
                             (candidates e le query k))).
  { apply filter_In. split.
    - rewrite Hc. eapply Permutation_in;
        [apply Permutation_sym, sortBy_perm|].
      unfold scores, scoresOf. apply in_map_iff. now exists en.
    - unfold passes. simpl.
      destruct (Rle_dec _ _); [reflexivity | contradiction]. }
  unfold chosen. rewrite firstn_all2.
  - destruct (filter _ _); [destruct Hin | exact Hin].
  - etransitivity; [apply filter_length_le|]. rewrite Hc, Hlen. exact Hk.
Qed.

Lemma engine2_refreshed :
  refresh (Scenario.storeBecomes Scenario.engine1 [Scenario.doc1])
  = Ok Scenario.engine2.
Proof. reflexivity. Qed.

Lemma engine2_wellFormed : wellFormed Scenario.engine2.
Proof.
  eapply refresh_wellFormed; [|exact engine2_refreshed].
  apply storeBecomes_wellFormed, engine1_wellFormed.
Qed.

(** *** The deleted document as a query *)

Lemma idfValueOf_same n : LocalEmbeddings.idfValueOf n n = 1%R.
Proof.
  unfold LocalEmbeddings.idfValueOf. pose proof (pos_INR n).
  replace ((INR n + 1) / (INR n + 1))%R with 1%R by (field; lra).
  rewrite ln_1. lra.
Qed.

Lemma idfValueOf_2_1_positive : (0 < LocalEmbeddings.idfValueOf 2 1)%R.
Proof.
  unfold LocalEmbeddings.idfValueOf. simpl INR.
  assert (ln 1 < ln ((1 + 1 + 1) / (1 + 1)))%R
    by (apply ln_increasing; lra).
  rewrite ln_1 in *. lra.
Qed.

Lemma doc2_tokens :
  LocalEmbeddings.tokenize (content Scenario.doc2)
  = map JS.lit ["paris"; "is"; "the"; "capital"; "of"; "france"]%string.
Proof. vm_compute. reflexivity. Qed.

Ltac idf_entries v w :=
  unfold LocalEmbeddings.denseIdf;
  match goal with
  | |- LocalEmbeddings.orNum (JSMap.get ?t (LocalEmbeddings.idf ?a)) _
       = LocalEmbeddings.orNum (JSMap.get ?t (LocalEmbeddings.idf ?b)) _ =>
      replace (JSMap.get t (LocalEmbeddings.idf a)) with (Some v)
        by reflexivity;
      replace (JSMap.get t (LocalEmbeddings.idf b)) with (Some w)
        by reflexivity
  end;
  rewrite ?idfValueOf_same; reflexivity.

(** The rebuilt vocabulary weighs the tokens of the deleted document as
    the earlier one did. *)
Lemma doc2_weights_agree t :
  In t (LocalEmbeddings.tokenize (content Scenario.doc2)) ->
  LocalEmbeddings.denseIdf Scenario.vectorizer2 t
  = LocalEmbeddings.denseIdf Scenario.vectorizer1 t.
Proof.
  rewrite doc2_tokens. simpl map.
  intros [<-|[<-|[<-|[<-|[<-|[<-|[]]]]]]].
  - idf_entries (LocalEmbeddings.idfValueOf 2 1) (LocalEmbeddings.idfValueOf 2 1).
  - idf_entries (LocalEmbeddings.idfValueOf 1 1) (LocalEmbeddings.idfValueOf 2 2).
  - idf_entries (LocalEmbeddings.idfValueOf 2 1) (LocalEmbeddings.idfValueOf 2 1).
  - idf_entries (LocalEmbeddings.idfValueOf 2 1) (LocalEmbeddings.idfValueOf 2 1).
  - idf_entries (LocalEmbeddings.idfValueOf 1 1) (LocalEmbeddings.idfValueOf 2 2).
  - idf_entries (LocalEmbeddings.idfValueOf 2 1) (LocalEmbeddings.idfValueOf 2 1).
Qed.

Lemma doc2_query_vector :
  LocalEmbeddings.embed Scenario.vectorizer2 (content Scenario.doc2)
  = LocalEmbeddings.embed Scenario.vectorizer1 (content Scenario.doc2).
Proof.
  unfold LocalEmbeddings.embed. f_equal.
  apply denseVector_ext; [reflexivity | exact doc2_weights_agree].
Qed.

Lemma doc2_vector_nonzero :
  l2norm (LocalEmbeddings.denseVector Scenario.vectorizer1
            (content Scenario.doc2)) <> 0%R.
Proof.
  apply l2norm_nonzero_at with (i := 267).
  unfold LocalEmbeddings.denseVector.
  replace (LocalEmbeddings.termFrequency
             (LocalEmbeddings.tokenize (content Scenario.doc2)))
    with [(JS.lit "paris", 1); (JS.lit "is", 1); (JS.lit "the", 1);
          (JS.lit "capital", 1); (JS.lit "of", 1); (JS.lit "france", 1)]
    by (vm_compute; reflexivity).
  match goal with
  | |- context [LocalEmbeddings.maxTf ?tf] =>
      replace (LocalEmbeddings.maxTf tf) with 1 by reflexivity
  end.
  cbn [fold_left]. unfold LocalEmbeddings.accumulate. cbn [fst snd].
  repeat match goal with
         | |- context [LocalEmbeddings.bucket ?le ?t] =>
             let b := eval vm_compute in (LocalEmbeddings.bucket le t) in
             replace (LocalEmbeddings.bucket le t) with b
               by (vm_compute; reflexivity)
         end.
  repeat (rewrite nth_addAt
            by (rewrite ?addAt_length, repeat_length;
                apply Nat.ltb_lt; vm_compute; reflexivity);
          match goal with
          | |- context [Nat.eqb ?a ?b] =>
              let r := eval vm_compute in (Nat.eqb a b) in
              replace (Nat.eqb a b) with r by (vm_compute; reflexivity)
          end).
  rewrite nth_repeat.
  unfold LocalEmbeddings.contribution, LocalEmbeddings.sign,
    LocalEmbeddings.denseIdf. cbn [fst snd].
  replace (LocalEmbeddings.hashString (JS.lit "paris")) with 106437003%Z
    by (vm_compute; reflexivity).
  replace (JSMap.get (JS.lit "paris") (LocalEmbeddings.idf Scenario.vectorizer1))
    with (Some (LocalEmbeddings.idfValueOf 2 1)) by reflexivity.
  unfold LocalEmbeddings.orNum. pose proof idfValueOf_2_1_positive.
  destruct (Req_dec_T _ 0); [lra|].
  replace (0 <=? 106437003)%Z with true by reflexivity.
  cbn [INR]. lra.
Qed.

(** The cached vector of the deleted document scores 1 against its own
    content. *)
Lemma doc2_scores_one :
  dotProduct
    (LocalEmbeddings.embed Scenario.vectorizer2 (content Scenario.doc2))
    (vector (Scenario.entryOf Scenario.vectorizer1 Scenario.doc2))
  = 1%R.
Proof.
  rewrite doc2_query_vector. cbn [vector Scenario.entryOf].
  rewrite dotProduct_self. apply l2norm_one_sumSquares.
  apply normalize_unit, doc2_vector_nonzero.
Qed.

End RefreshFacts.

(** C1. Refresh consistency fails on the code.  Two documents are indexed,
    the second one leaves the store, [refresh] runs: the source holds one
    document, [getStats().documentCount] is 2, the cache still holds the
    entry of the deleted document with its old vector, and [retrieve]
    returns its id: for the content of the deleted document as query (its
    score is 1, above the threshold 0.3), and for a query without token
    (the fallback returns both cached ids). *)
Theorem refresh_keeps_deleted_document :
  RAGEngine.initialize (Scenario.engine [Scenario.doc1; Scenario.doc2])
  = Ok Scenario.engine1
  /\ RAGEngine.refresh (Scenario.storeBecomes Scenario.engine1 [Scenario.doc1])
     = Ok Scenario.engine2
  /\ option_map DataSource.getDocumentCount
       (RAGEngine.dataSource Scenario.engine2) = Some 1
  /\ option_map (fun ds => map id (DataSource.getDocuments ds))
       (RAGEngine.dataSource Scenario.engine2) = Some [JS.lit "1"]
  /\ RAGEngine.documentCount (RAGEngine.getStats Scenario.engine2) = 2
  /\ JSMap.get (JS.lit "2") (RAGEngine.documentVectors Scenario.engine2)
     = Some (Scenario.entryOf Scenario.vectorizer1 Scenario.doc2)
  /\ (exists results,
        RAGEngine.retrieve Scenario.engine2 (content Scenario.doc2) 5
        = Ok results
        /\ In (JS.lit "2") (map resultId results))
  /\ exists results,
       RAGEngine.retrieve Scenario.engine2 (JS.lit "?") 5 = Ok results
       /\ map resultId results = [JS.lit "1"; JS.lit "2"].
Proof.
  repeat (split; [reflexivity|]).
  split.
  { apply (@retrieve_returns_passing Scenario.engine2 Scenario.vectorizer2
             (content Scenario.doc2) 5
             (Scenario.entryOf Scenario.vectorizer1 Scenario.doc2)).
    - exact engine2_wellFormed.
    - reflexivity.
    - lazy. lia.
    - right. left. reflexivity.
    - rewrite doc2_scores_one.
      change (RAGEngine.similarityThreshold Scenario.engine2) with (3 / 10)%R.
      lra. }
  rewrite (@retrieve_vector_path Scenario.engine2 Scenario.vectorizer2)
    by (try reflexivity; lazy; lia).
  destruct (@retrieveByVector_spec Scenario.engine2 Scenario.vectorizer2
              (JS.lit "?") 5 engine2_wellFormed eq_refl)
    as [results [-> Ha]].
  exists results. split; [reflexivity|].
  destruct (answers_ids (proj1 engine2_wellFormed) Ha) as [-> _].
  rewrite candidates_no_token by reflexivity.
  rewrite chosen_none_passes.
  - reflexivity.
  - apply Forall_forall. intros s Hs.
    apply firstn_incl in Hs. apply in_map_iff in Hs.
    destruct Hs as [d [<- _]]. simpl. lra.
Qed.

(* ================================================================= *)
(** ** The invariant of the cached vectors *)

Section CancelFacts.
Open Scope R_scope.
Import LocalEmbeddings Spec.





End CancelFacts.

(* ================================================================= *)
(** ** Rounding in [normalize], [embed] and [cosineSimilarity] *)

Section RoundingFacts.
Open Scope R_scope.
Import Rounded.

Lemma ratio_bounds a b q p N s S S' :
  0 < a -> a * b <= 1 -> 0 < q -> 0 < p -> p * q <= 1 -> 0 < b ->
  0 < S -> 0 <= S' ->
  a * s <= N <= b * s ->
  q * S <= s <= p * S ->
  a * S <= S' * N <= b * S ->
  a * a * q <= S' /\ S' * (a * a * q) <= 1.
Proof.
  intros Ha Hab Hq Hp Hpq Hb HS HS' [HN1 HN2] [Hs1 Hs2] [H1 H2].
  assert (Hs : 0 < s) by nra.
  assert (HN : 0 < N) by nra.
  split.
  - (* a S <= S' b p S *)
    assert (E1 : S' * N <= S' * (b * (p * S))).
    { apply Rmult_le_compat_l; [lra|].
      apply Rle_trans with (b * s); [lra|].
      apply Rmult_le_compat_l; lra. }
    assert (E2 : a * S <= (S' * b * p) * S) by lra.
    assert (E3 : a <= S' * b * p).
    { apply Rmult_le_reg_r with S; lra. }
    assert (E4 : a * (a * q) <= S' * b * p * (a * q)).
    { apply Rmult_le_compat_r; [|lra]. apply Rlt_le. apply Rmult_lt_0_compat; lra. }
    assert (E5 : S' * b * p * (a * q) = S' * ((a * b) * (p * q))) by ring.
    assert (E6 : (a * b) * (p * q) <= 1).
    { assert (0 < a * b) by (apply Rmult_lt_0_compat; lra).
      assert (0 < p * q) by (apply Rmult_lt_0_compat; lra).
      nra. }
    assert (E7 : S' * ((a * b) * (p * q)) <= S' * 1)
      by (apply Rmult_le_compat_l; lra).
    lra.
  - assert (E1 : S' * (a * (q * S)) <= S' * N).
    { apply Rmult_le_compat_l; [lra|].
      apply Rle_trans with (a * s); [|lra].
      apply Rmult_le_compat_l; lra. }
    assert (E2 : (S' * a * q) * S <= b * S) by lra.
    assert (E3 : S' * a * q <= b).
    { apply Rmult_le_reg_r with S; lra. }
    assert (E4 : a * (S' * a * q) <= a * b)
      by (apply Rmult_le_compat_l; lra).
    lra.
Qed.

Lemma ratio_window L K x :
  0 <= K <= 1 / 2 -> 1 - K <= L -> L <= x -> x * L <= 1 ->
  1 - K <= x <= 1 + 2 * K.
Proof.
  intros HK HL Hx HxL. split; [lra|].
  assert (x * (1 - K) <= x * L) by (apply Rmult_le_compat_l; lra).
  assert (1 <= (1 + 2 * K) * (1 - K)) by nra.
  apply Rmult_le_reg_r with (1 - K); lra.
Qed.

Lemma sqrt_window K x :
  0 <= K <= 1 / 2 -> 1 - K <= x <= 1 + 2 * K ->
  Rabs (sqrt x - 1) <= 2 * K.
Proof.
  intros HK [Hlo Hhi].
  assert (Hlow : 1 - K <= sqrt x).
  { rewrite <- (sqrt_square (1 - K)) by lra.
    apply sqrt_le_1_alt. nra. }
  assert (Hhigh : sqrt x <= 1 + 2 * K).
  { rewrite <- (sqrt_square (1 + 2 * K)) by lra.
    apply sqrt_le_1_alt. nra. }
  apply Rabs_le. lra.
Qed.

Variable u : R.
Variable A : arith.
Hypothesis Hu : 0 <= u.
Hypothesis Hu1 : u < 1.
Hypothesis HA : standard u A.

Lemma Rabs_bound d : Rabs d <= u -> - u <= d <= u.
Proof. unfold Rabs. destruct (Rcase_abs d); lra. Qed.

Lemma near_bounds x y :
  near u x y -> 0 <= y -> (1 - u) * y <= x <= (1 + u) * y.
Proof.
  intros [d [Hd ->]] Hy. apply Rabs_bound in Hd. nra.
Qed.

Lemma near_zero x : near u x 0 -> x = 0.
Proof. intros [d [_ ->]]. lra. Qed.

Lemma near_nonzero x y : near u x y -> y <> 0 -> x <> 0.
Proof.
  intros [d [Hd ->]] Hy. apply Rabs_bound in Hd.
  intros H. apply Rmult_integral in H. destruct H; [tauto | lra].
Qed.

Lemma near_square x y :
  near u x y -> (1 - u) * (1 - u) * (y * y) <= x * x
                /\ x * x <= (1 + u) * (1 + u) * (y * y).
Proof.
  intros [d [Hd ->]]. apply Rabs_bound in Hd.
  pose proof (Rle_0_sqr y) as Hy. unfold Rsqr in Hy.
  assert (H1 : (1 - u) * (1 - u) <= (1 + d) * (1 + d)) by nra.
  assert (H2 : (1 + d) * (1 + d) <= (1 + u) * (1 + u)) by nra.
  split.
  - replace (y * (1 + d) * (y * (1 + d))) with ((1 + d) * (1 + d) * (y * y))
      by ring.
    apply Rmult_le_compat_r; assumption.
  - replace (y * (1 + d) * (y * (1 + d))) with ((1 + d) * (1 + d) * (y * y))
      by ring.
    apply Rmult_le_compat_r; assumption.
Qed.

Lemma pow_lower k : 0 < (1 - u) ^ k <= 1.
Proof.
  induction k as [|k IH]; simpl; [lra|]. nra.
Qed.

Lemma pow_upper k : 1 <= (1 + u) ^ k.
Proof.
  induction k as [|k IH]; simpl; [lra|]. nra.
Qed.

Lemma bernoulli k : 1 - INR k * u <= (1 - u) ^ k.
Proof.
  induction k as [|k IH].
  - simpl. lra.
  - rewrite S_INR. simpl. pose proof (pos_INR k). nra.
Qed.

Lemma pow_product k : (1 + u) ^ k * (1 - u) ^ k <= 1.
Proof.
  rewrite <- Rpow_mult_distr.
  replace ((1 + u) * (1 - u)) with (1 - u * u) by ring.
  assert (H : 0 <= 1 - u * u <= 1) by nra.
  clear -H. induction k as [|k IH]; simpl; [lra|]. nra.
Qed.

(** One turn of [reduce]: the sum and the partial sum of the squares. *)
Lemma sumSquares_step acc S0 x lo hi :
  0 <= S0 -> 0 < lo <= 1 -> 1 <= hi ->
  lo * S0 <= acc <= hi * S0 ->
  (1 - u) * (1 - u) * lo * (S0 + x * x) <= add A acc (mul A x x)
  /\ add A acc (mul A x x) <= (1 + u) * (1 + u) * hi * (S0 + x * x).
Proof.
  intros HS [Hlo Hlo1] Hhi [Hl Hh].
  pose proof (Rle_0_sqr x) as Hx. unfold Rsqr in Hx.
  destruct (near_bounds (@mul_near u A HA x x) Hx) as [Hm1 Hm2].
  assert (Hlo0 : 0 <= lo * S0) by (apply Rmult_le_pos; lra).
  assert (Hmx : 0 <= (1 - u) * (x * x)) by (apply Rmult_le_pos; lra).
  assert (Hsum : 0 <= acc + mul A x x) by lra.
  destruct (near_bounds (@add_near u A HA acc (mul A x x)) Hsum) as [Ha1 Ha2].
  assert (Hlow : (1 - u) * lo * (S0 + x * x) <= acc + mul A x x).
  { assert ((1 - u) * lo * S0 <= lo * S0) by nra.
    assert ((1 - u) * lo * (x * x) <= (1 - u) * (x * x)) by nra.
    nra. }
  assert (Hhigh : acc + mul A x x <= (1 + u) * hi * (S0 + x * x)).
  { assert (hi * S0 <= (1 + u) * hi * S0) by nra.
    assert ((1 + u) * (x * x) <= (1 + u) * hi * (x * x)) by nra.
    nra. }
  split.
  - apply Rle_trans with ((1 - u) * (acc + mul A x x)); [|exact Ha1].
    replace ((1 - u) * (1 - u) * lo * (S0 + x * x))
      with ((1 - u) * ((1 - u) * lo * (S0 + x * x))) by ring.
    apply Rmult_le_compat_l; [lra | exact Hlow].
  - apply Rle_trans with ((1 + u) * (acc + mul A x x)); [exact Ha2|].
    replace ((1 + u) * (1 + u) * hi * (S0 + x * x))
      with ((1 + u) * ((1 + u) * hi * (S0 + x * x))) by ring.
    apply Rmult_le_compat_l; [lra | exact Hhigh].
Qed.

Lemma sumSquares_fold v : forall acc S0 j,
  0 <= S0 ->
  (1 - u) ^ j * S0 <= acc <= (1 + u) ^ j * S0 ->
  (1 - u) ^ (j + 2 * List.length v) * (S0 + LocalEmbeddings.sumSquares v)
  <= fold_left (fun sum val => add A sum (mul A val val)) v acc
  /\ fold_left (fun sum val => add A sum (mul A val val)) v acc
     <= (1 + u) ^ (j + 2 * List.length v)
        * (S0 + LocalEmbeddings.sumSquares v).
Proof.
  induction v as [|x v IH]; intros acc S0 j HS Hacc.
  - simpl. rewrite Nat.add_0_r.
    replace (LocalEmbeddings.sumSquares []) with 0 by reflexivity.
    rewrite Rplus_0_r. exact Hacc.
  - cbn [fold_left].
    destruct (@sumSquares_step acc S0 x ((1 - u) ^ j) ((1 + u) ^ j) HS
                (pow_lower j) (pow_upper j) Hacc) as [H1 H2].
    pose proof (Rle_0_sqr x) as Hx. unfold Rsqr in Hx.
    specialize (IH (add A acc (mul A x x)) (S0 + x * x) (2 + j)%nat
                  ltac:(lra)).
    replace (j + 2 * List.length (x :: v))%nat
      with (2 + j + 2 * List.length v)%nat by (simpl; lia).
    rewrite sumSquares_cons.
    replace (S0 + (x * x + LocalEmbeddings.sumSquares v))
      with (S0 + x * x + LocalEmbeddings.sumSquares v) by ring.
    apply IH. simpl. split.
    + replace ((1 - u) * ((1 - u) * (1 - u) ^ j) * (S0 + x * x))
        with ((1 - u) * (1 - u) * (1 - u) ^ j * (S0 + x * x)) by ring.
      exact H1.
    + replace ((1 + u) * ((1 + u) * (1 + u) ^ j) * (S0 + x * x))
        with ((1 + u) * (1 + u) * (1 + u) ^ j * (S0 + x * x)) by ring.
      exact H2.
Qed.

Lemma sumSquares_rounded v :
  (1 - u) ^ (2 * List.length v) * LocalEmbeddings.sumSquares v
  <= sumSquares A v
  /\ sumSquares A v
     <= (1 + u) ^ (2 * List.length v) * LocalEmbeddings.sumSquares v.
Proof.
  unfold sumSquares.
  destruct (@sumSquares_fold v 0 0 0%nat ltac:(lra) ltac:(simpl; lra))
    as [H1 H2].
  rewrite Rplus_0_l in H1, H2. simpl Nat.add in H1, H2. auto.
Qed.

Lemma sumSquares_rounded_nonneg v : 0 <= sumSquares A v.
Proof.
  destruct (sumSquares_rounded v) as [H _].
  pose proof (sumSquares_nonneg v). pose proof (pow_lower (2 * List.length v)).
  eapply Rle_trans; [|exact H]. apply Rmult_le_pos; lra.
Qed.

(** The norm that [normalize] computes is zero for the zero vector only. *)
Lemma norm_rounded_zero v :
  root A (sumSquares A v) = 0 <-> Forall (fun x => x = 0) v.
Proof.
  pose proof (sumSquares_rounded_nonneg v) as Hs.
  destruct (sumSquares_rounded v) as [H1 H2].
  pose proof (pow_lower (2 * List.length v)) as Hq.
  pose proof (sumSquares_nonneg v) as HS.
  split.
  - intros H. apply sumSquares_zero.
    destruct (Req_dec_T (LocalEmbeddings.sumSquares v) 0) as [E|E]; [exact E|].
    exfalso. revert H. apply near_nonzero with (sqrt (sumSquares A v)).
    + apply (@root_near u A HA). exact Hs.
    + intros H0. apply sqrt_eq_0 in H0; [|exact Hs].
      assert (0 < (1 - u) ^ (2 * List.length v) * LocalEmbeddings.sumSquares v)
        by (apply Rmult_lt_0_compat; lra).
      lra.
  - intros H.
    assert (E0 : LocalEmbeddings.sumSquares v = 0).
    { rewrite (Forall_zero_repeat H). apply sumSquares_repeat_zero. }
    rewrite E0, Rmult_0_r in H1, H2.
    assert (E : sumSquares A v = 0) by lra.
    rewrite E. apply near_zero.
    pose proof (@root_near u A HA 0 ltac:(lra)) as Hr.
    rewrite sqrt_0 in Hr. exact Hr.
Qed.

Lemma collect_quotient norm v :
  norm <> 0 ->
  collect (fun val => quotient A val norm) v
  = Some (map (fun val => div A val norm) v).
Proof.
  intros Hn. induction v as [|x v IH]; simpl; [reflexivity|].
  rewrite IH. unfold quotient. destruct (Req_dec_T norm 0); [tauto|reflexivity].
Qed.

(** The squares of the quotients against the squares of the vector. *)
Lemma sumSquares_quotients norm v :
  norm <> 0 ->
  (1 - u) * (1 - u) * LocalEmbeddings.sumSquares v
  <= LocalEmbeddings.sumSquares (map (fun val => div A val norm) v)
     * (norm * norm)
  /\ LocalEmbeddings.sumSquares (map (fun val => div A val norm) v)
     * (norm * norm)
     <= (1 + u) * (1 + u) * LocalEmbeddings.sumSquares v.
Proof.
  intros Hn. induction v as [|x v [IH1 IH2]]; simpl map.
  - replace (LocalEmbeddings.sumSquares []) with 0 by reflexivity. lra.
  - rewrite !sumSquares_cons.
    destruct (near_square (@div_near u A HA x norm Hn)) as [H1 H2].
    assert (E : x / norm * (x / norm) * (norm * norm) = x * x)
      by (field; exact Hn).
    assert (Hn2 : 0 < norm * norm).
    { pose proof (Rle_0_sqr norm) as H. unfold Rsqr in H.
      destruct (Req_dec_T (norm * norm) 0) as [E0|E0]; [|lra].
      apply Rmult_integral in E0. tauto. }
    apply Rmult_le_compat_r with (r := norm * norm) in H1; [|lra].
    apply Rmult_le_compat_r with (r := norm * norm) in H2; [|lra].
    replace ((1 - u) * (1 - u) * (x / norm * (x / norm)) * (norm * norm))
      with ((1 - u) * (1 - u) * (x * x)) in H1 by (rewrite <- E; ring).
    replace ((1 + u) * (1 + u) * (x / norm * (x / norm)) * (norm * norm))
      with ((1 + u) * (1 + u) * (x * x)) in H2 by (rewrite <- E; ring).
    lra.
Qed.

Lemma slack_nonneg n : 0 <= slack u n.
Proof. unfold slack. pose proof (pos_INR n). nra. Qed.

Lemma bernoulli_slack n :
  1 - slack u n
  <= (1 - u) * (1 - u) * ((1 - u) * (1 - u)) * (1 - u) ^ (2 * n).
Proof.
  unfold slack. pose proof (bernoulli (4 + 2 * n)) as Hb.
  rewrite plus_INR, mult_INR, pow_add in Hb.
  replace (INR 4) with 4 in Hb by (simpl; lra).
  replace (INR 2) with 2 in Hb by (simpl; lra).
  replace ((1 - u) ^ 4) with ((1 - u) * (1 - u) * ((1 - u) * (1 - u)))
    in Hb by ring.
  lra.
Qed.

(** [normalize] on doubles: it returns, without a quotient by zero; the
    zero vector is returned as it is, and the squares of any other vector
    add up to 1 within the roundoff. *)
Lemma normalize_rounded_squares v :
  slack u (List.length v) <= 1 / 2 ->
  exists v',
    normalize A v = Some v'
    /\ List.length v' = List.length v
    /\ ((Forall (fun x => x = 0) v /\ v' = v)
        \/ (~ Forall (fun x => x = 0) v
            /\ 1 - slack u (List.length v)
               <= LocalEmbeddings.sumSquares v'
               <= 1 + 2 * slack u (List.length v))).
Proof.
  intros HK. unfold normalize.
  destruct (Req_dec_T (root A (sumSquares A v)) 0) as [Hn|Hn].
  - exists v. split; [reflexivity|]. split; [reflexivity|].
    left. split; [|reflexivity]. now apply norm_rounded_zero.
  - rewrite (collect_quotient v Hn).
    set (norm := root A (sumSquares A v)) in *.
    exists (map (fun val => div A val norm) v).
    split; [reflexivity|]. split; [apply length_map|].
    right.
    assert (Hnz : ~ Forall (fun x => x = 0) v).
    { intros H. apply Hn. now apply norm_rounded_zero. }
    split; [exact Hnz|].
    pose proof (sumSquares_nonneg v) as HS0.
    assert (HS : 0 < LocalEmbeddings.sumSquares v).
    { destruct (Req_dec_T (LocalEmbeddings.sumSquares v) 0) as [E|E]; [|lra].
      exfalso. apply Hnz. now apply sumSquares_zero. }
    pose proof (sumSquares_rounded_nonneg v) as Hs0.
    destruct (sumSquares_rounded v) as [Hs1 Hs2].
    destruct (near_square (@root_near u A HA (sumSquares A v) Hs0))
      as [HN1 HN2].
    rewrite sqrt_sqrt in HN1, HN2 by exact Hs0. fold norm in HN1, HN2.
    destruct (sumSquares_quotients v Hn) as [HQ1 HQ2]. fold norm in HQ1, HQ2.
    pose proof (pow_lower (2 * List.length v)) as Hq.
    pose proof (pow_upper (2 * List.length v)) as Hp.
    pose proof (pow_product (2 * List.length v)) as Hpq.
    pose proof (pow_product 2) as Hab. simpl in Hab.
    rewrite !Rmult_1_r in Hab.
    destruct (@ratio_bounds ((1 - u) * (1 - u)) ((1 + u) * (1 + u))
                ((1 - u) ^ (2 * List.length v))
                ((1 + u) ^ (2 * List.length v))
                (norm * norm) (sumSquares A v)
                (LocalEmbeddings.sumSquares v)
                (LocalEmbeddings.sumSquares
                   (map (fun val => div A val norm) v)))
      as [HL HU]; try lra; try nra.
    + apply sumSquares_nonneg.
    + apply ratio_window
        with (L := (1 - u) * (1 - u) * ((1 - u) * (1 - u))
                   * (1 - u) ^ (2 * List.length v)).
      * pose proof (slack_nonneg (List.length v)). lra.
      * apply bernoulli_slack.
      * exact HL.
      * exact HU.
Qed.

Lemma addAt_rounded_length i x v :
  List.length (addAt A i x v) = List.length v.
Proof.
  revert i; induction v as [|y v IH]; intros [|i]; simpl; auto.
Qed.

Lemma contribution_some le mx entry :
  (1 <= mx)%nat -> exists x, contribution A le mx entry = Some x.
Proof.
  intros Hmx. unfold contribution, quotient.
  destruct (Req_dec_T (INR mx) 0) as [E|_]; [|eauto].
  exfalso. apply (not_INR mx 0); [lia | exact E].
Qed.

(** The dense loop on doubles: no quotient by zero, [dimension] slots. *)
Lemma denseVector_rounded le text :
  exists v,
    denseVector A le text = Some v
    /\ List.length v = LocalEmbeddings.dimension le
    /\ (LocalEmbeddings.tokenize text = [] ->
        v = repeat 0 (LocalEmbeddings.dimension le)).
Proof.
  unfold denseVector.
  pose proof (maxTf_positive
                (LocalEmbeddings.termFrequency (LocalEmbeddings.tokenize text)))
    as Hmx.
  assert (H : forall tf v0,
             exists v, fold_left
                         (accumulate A le
                            (LocalEmbeddings.maxTf
                               (LocalEmbeddings.termFrequency
                                  (LocalEmbeddings.tokenize text))))
                         tf (Some v0) = Some v
                       /\ List.length v = List.length v0).
  { induction tf as [|en tf IH]; intros v0; simpl; [eauto|].
    destruct (@contribution_some le _ en Hmx) as [x ->].
    destruct (IH (addAt A (LocalEmbeddings.bucket le (fst en)) x v0))
      as [v [-> Hlen]].
    exists v. split; [reflexivity|]. now rewrite Hlen, addAt_rounded_length. }
  destruct (H (LocalEmbeddings.termFrequency (LocalEmbeddings.tokenize text))
              (repeat 0 (LocalEmbeddings.dimension le))) as [v [Hv Hlen]].
  exists v. split; [exact Hv|]. split; [now rewrite Hlen, repeat_length|].
  intros Htok. rewrite Htok in Hv. simpl in Hv. congruence.
Qed.



Lemma Forall_repeat_zero n : Forall (fun x : R => x = 0) (repeat 0 n).
Proof. induction n; simpl; constructor; auto. Qed.

(** [embed] on doubles. *)
Lemma embed_rounded le text :
  slack u (LocalEmbeddings.dimension le) <= 1 / 2 ->
  exists v,
    embed A le text = Some v
    /\ List.length v = LocalEmbeddings.dimension le
    /\ (LocalEmbeddings.tokenize text = [] ->
        v = repeat 0 (LocalEmbeddings.dimension le))
    /\ ((v = repeat 0 (LocalEmbeddings.dimension le)
         /\ denseVector A le text
            = Some (repeat 0 (LocalEmbeddings.dimension le)))
        \/ (denseVector A le text
            <> Some (repeat 0 (LocalEmbeddings.dimension le))
            /\ 1 - slack u (LocalEmbeddings.dimension le)
               <= LocalEmbeddings.sumSquares v
               <= 1 + 2 * slack u (LocalEmbeddings.dimension le))).
Proof.
  intros HK. unfold embed.
  destruct (denseVector_rounded le text) as [dense [-> [Hlen Htok]]].
  rewrite <- Hlen in HK.
  destruct (normalize_rounded_squares dense HK) as [v [Hv [Hvlen Hcases]]].
  exists v. split; [exact Hv|]. rewrite Hlen in *.
  split; [congruence|].
  assert (Hzero : Forall (fun x => x = 0) dense ->
                  dense = repeat 0 (LocalEmbeddings.dimension le)).
  { intros H. rewrite <- Hlen. now apply Forall_zero_repeat. }
  split.
  - intros H. specialize (Htok H).
    destruct Hcases as [[_ ->]|[Hnz _]]; [exact Htok|].
    exfalso. apply Hnz. rewrite Htok. apply Forall_repeat_zero.
  - destruct Hcases as [[Hz ->]|[Hnz Hb]].
    + left. split; [|f_equal]; auto.
    + right. split; [|exact Hb].
      intros [= E]. apply Hnz. rewrite E. apply Forall_repeat_zero.
Qed.

Lemma squares_norm n v :
  slack u n <= 1 / 2 ->
  1 - slack u n <= LocalEmbeddings.sumSquares v <= 1 + 2 * slack u n ->
  Rabs (Spec.l2norm v - 1) <= 2 * slack u n.
Proof.
  intros HK Hb. unfold Spec.l2norm. apply sqrt_window; [|exact Hb].
  pose proof (slack_nonneg n). lra.
Qed.

(** The loop of [cosineSimilarity] on doubles. *)
Lemma dotLoop_step acc B0 x y hi :
  1 <= hi -> 0 <= B0 -> Rabs acc <= hi * B0 ->
  Rabs (add A acc (mul A x y))
  <= (1 + u) * (1 + u) * hi * (B0 + (x * x + y * y) / 2).
Proof.
  intros Hhi HB Hacc.
  destruct (@mul_near u A HA x y) as [d1 [Hd1 Em]].
  destruct (@add_near u A HA acc (mul A x y)) as [d2 [Hd2 Ea]].
  apply Rabs_bound in Hd1. apply Rabs_bound in Hd2.
  assert (Hxy : Rabs (x * y) <= (x * x + y * y) / 2).
  { pose proof (Rle_0_sqr (x + y)) as H1. pose proof (Rle_0_sqr (x - y)) as H2.
    unfold Rsqr in H1, H2. apply Rabs_le. lra. }
  assert (Hm : Rabs (mul A x y) <= (1 + u) * ((x * x + y * y) / 2)).
  { rewrite Em, Rabs_mult.
    assert (Rabs (1 + d1) <= 1 + u) by (apply Rabs_le; lra).
    pose proof (Rabs_pos (x * y)). pose proof (Rabs_pos (1 + d1)).
    apply Rle_trans with (Rabs (x * y) * (1 + u)).
    - apply Rmult_le_compat_l; lra.
    - nra. }
  assert (Hsum : Rabs (acc + mul A x y)
                 <= (1 + u) * hi * (B0 + (x * x + y * y) / 2)).
  { apply Rle_trans with (Rabs acc + Rabs (mul A x y)); [apply Rabs_triang|].
    assert (0 <= (x * x + y * y) / 2) by (pose proof (Rabs_pos (x * y)); lra).
    assert (0 <= u * (hi * B0))
      by (apply Rmult_le_pos; [lra | apply Rmult_le_pos; lra]).
    assert (0 <= (1 + u) * ((x * x + y * y) / 2) * (hi - 1))
      by (apply Rmult_le_pos; [apply Rmult_le_pos; lra | lra]).
    lra. }
  rewrite Ea, Rabs_mult.
  assert (Rabs (1 + d2) <= 1 + u) by (apply Rabs_le; lra).
  pose proof (Rabs_pos (acc + mul A x y)). pose proof (Rabs_pos (1 + d2)).
  apply Rle_trans with (Rabs (acc + mul A x y) * (1 + u)).
  - apply Rmult_le_compat_l; lra.
  - replace ((1 + u) * (1 + u) * hi * (B0 + (x * x + y * y) / 2))
      with ((1 + u) * hi * (B0 + (x * x + y * y) / 2) * (1 + u)) by ring.
    apply Rmult_le_compat_r; lra.
Qed.

Lemma dotLoop_fold a : forall b acc B0 j,
  List.length a = List.length b ->
  0 <= B0 -> Rabs acc <= (1 + u) ^ j * B0 ->
  Rabs (fold_left (fun acc xy => add A acc (mul A (fst xy) (snd xy)))
                  (combine a b) acc)
  <= (1 + u) ^ (j + 2 * List.length a)
     * (B0 + (LocalEmbeddings.sumSquares a + LocalEmbeddings.sumSquares b) / 2).
Proof.
  induction a as [|x a IH]; intros [|y b] acc B0 j Hlen HB Hacc;
    try discriminate.
  - simpl. rewrite Nat.add_0_r.
    replace (LocalEmbeddings.sumSquares []) with 0 by reflexivity.
    replace (B0 + (0 + 0) / 2) with B0 by lra. exact Hacc.
  - cbn [combine fold_left fst snd].
    pose proof (@dotLoop_step acc B0 x y ((1 + u) ^ j) (pow_upper j) HB Hacc)
      as Hstep.
    assert (Hxy : 0 <= (x * x + y * y) / 2).
    { pose proof (Rle_0_sqr x) as H1. pose proof (Rle_0_sqr y) as H2.
      unfold Rsqr in H1, H2. lra. }
    injection Hlen as Hlen.
    specialize (IH b (add A acc (mul A x y)) (B0 + (x * x + y * y) / 2)
                  (2 + j)%nat Hlen ltac:(lra)).
    replace (j + 2 * List.length (x :: a))%nat
      with (2 + j + 2 * List.length a)%nat by (simpl; lia).
    rewrite !sumSquares_cons.
    replace (B0 + (x * x + LocalEmbeddings.sumSquares a
                   + (y * y + LocalEmbeddings.sumSquares b)) / 2)
      with (B0 + (x * x + y * y) / 2
            + (LocalEmbeddings.sumSquares a + LocalEmbeddings.sumSquares b) / 2)
      by lra.
    apply IH. simpl.
    replace ((1 + u) * ((1 + u) * (1 + u) ^ j) * (B0 + (x * x + y * y) / 2))
      with ((1 + u) * (1 + u) * (1 + u) ^ j * (B0 + (x * x + y * y) / 2))
      by ring.
    exact Hstep.
Qed.

Lemma dotLoop_rounded a b :
  List.length a = List.length b ->
  Rabs (dotLoop A a b)
  <= (1 + u) ^ (2 * List.length a)
     * ((LocalEmbeddings.sumSquares a + LocalEmbeddings.sumSquares b) / 2).
Proof.
  intros Hlen. unfold dotLoop.
  pose proof (@dotLoop_fold a b 0 0 0%nat Hlen ltac:(lra)
                ltac:(rewrite Rabs_R0; simpl; lra)) as H.
  rewrite Rplus_0_l in H. exact H.
Qed.

Lemma dotLoop_sym a : forall b, dotLoop A a b = dotLoop A b a.
Proof.
  unfold dotLoop. generalize 0 as acc.
  induction a as [|x a IH]; intros acc [|y b]; simpl; auto.
  rewrite (@mul_sym u A HA x y). apply IH.
Qed.

Lemma dotLoop_self a : dotLoop A a a = sumSquares A a.
Proof.
  unfold dotLoop, sumSquares. generalize 0 as acc.
  induction a as [|x a IH]; intros acc; simpl; auto.
Qed.

Lemma pow_upper_slack n :
  slack u n <= 1 / 2 -> (1 + u) ^ (2 * n) <= 1 + 2 * slack u n.
Proof.
  intros HK. pose proof (pow_product (2 * n)) as Hpq.
  pose proof (pow_lower (2 * n)) as Hq. pose proof (pow_upper (2 * n)) as Hp.
  pose proof (bernoulli (2 * n)) as Hb. rewrite mult_INR in Hb.
  replace (INR 2) with 2 in Hb by (simpl; lra).
  pose proof (slack_nonneg n) as HK0.
  assert (Hle : 1 - slack u n <= (1 - u) ^ (2 * n)) by (unfold slack in *; lra).
  assert (H1 : (1 + u) ^ (2 * n) * (1 - slack u n) <= 1).
  { apply Rle_trans with ((1 + u) ^ (2 * n) * (1 - u) ^ (2 * n)); [|exact Hpq].
    apply Rmult_le_compat_l; lra. }
  assert (H2 : 1 <= (1 + 2 * slack u n) * (1 - slack u n)) by nra.
  apply Rmult_le_reg_r with (1 - slack u n); lra.
Qed.

Lemma pow_lower_slack n : 1 - slack u n <= (1 - u) ^ (2 * n).
Proof.
  pose proof (bernoulli (2 * n)) as Hb. rewrite mult_INR in Hb.
  replace (INR 2) with 2 in Hb by (simpl; lra).
  unfold slack. lra.
Qed.

Lemma embed_squares le text v :
  slack u (LocalEmbeddings.dimension le) <= 1 / 2 ->
  embed A le text = Some v ->
  List.length v = LocalEmbeddings.dimension le
  /\ (v = repeat 0 (LocalEmbeddings.dimension le)
      \/ 1 - slack u (LocalEmbeddings.dimension le)
         <= LocalEmbeddings.sumSquares v
         <= 1 + 2 * slack u (LocalEmbeddings.dimension le)).
Proof.
  intros HK Hv.
  destruct (embed_rounded le text HK) as [v' [Hv' [Hlen [_ Hc]]]].
  rewrite Hv in Hv'. injection Hv' as <-. split; [exact Hlen|].
  destruct Hc as [[Hz _]|[_ Hb]]; auto.
Qed.

(** [cosineSimilarity] of two [embed] results on doubles. *)
Lemma cosine_rounded le le' query text :
  LocalEmbeddings.dimension le = LocalEmbeddings.dimension le' ->
  slack u (LocalEmbeddings.dimension le) <= 1 / 2 ->
  exists q t s s',
    embed A le query = Some q
    /\ embed A le' text = Some t
    /\ cosineSimilarity A q t = Ok s
    /\ cosineSimilarity A t q = Ok s
    /\ Rabs s <= 1 + 6 * slack u (LocalEmbeddings.dimension le)
    /\ cosineSimilarity A t t = Ok s'
    /\ ((t = repeat 0 (LocalEmbeddings.dimension le) /\ s' = 0)
        \/ Rabs (s' - 1) <= 6 * slack u (LocalEmbeddings.dimension le)).
Proof.
  intros Hd HK. set (d := LocalEmbeddings.dimension le) in *.
  assert (HK' : slack u (LocalEmbeddings.dimension le') <= 1 / 2)
    by (rewrite <- Hd; exact HK).
  destruct (embed_rounded le query HK) as [q [Hq _]].
  destruct (embed_rounded le' text HK') as [t [Ht _]].
  destruct (embed_squares le query HK Hq) as [Hql Hqc].
  destruct (embed_squares le' text HK' Ht) as [Htl Htc].
  fold d in Hql, Hqc. rewrite <- Hd in Htl, Htc.
  pose proof (slack_nonneg d) as HK0.
  assert (HSq : 0 <= LocalEmbeddings.sumSquares q <= 1 + 2 * slack u d).
  { destruct Hqc as [->|Hb]; [rewrite sumSquares_repeat_zero|]; lra. }
  assert (HSt : 0 <= LocalEmbeddings.sumSquares t <= 1 + 2 * slack u d).
  { destruct Htc as [->|Hb]; [rewrite sumSquares_repeat_zero|]; lra. }
  exists q, t, (dotLoop A q t), (dotLoop A t t).
  split; [exact Hq|]. split; [exact Ht|].
  unfold cosineSimilarity. rewrite Hql, Htl, Nat.eqb_refl.
  split; [reflexivity|]. split; [now rewrite dotLoop_sym|].
  pose proof (@pow_upper_slack d HK) as Hp.
  pose proof (pow_upper (2 * d)) as Hp1.
  split; [|split; [reflexivity|]].
  - pose proof (@dotLoop_rounded q t ltac:(congruence)) as Hdot.
    rewrite Hql in Hdot.
    apply Rle_trans with (1 := Hdot).
    apply Rle_trans with ((1 + 2 * slack u d) * (1 + 2 * slack u d)); [|nra].
    apply Rmult_le_compat; lra.
  - rewrite dotLoop_self. destruct (sumSquares_rounded t) as [H1 H2].
    rewrite Htl in H1, H2.
    pose proof (pow_lower_slack d) as Hq1.
    pose proof (pow_lower (2 * d)) as Hq2.
    destruct Htc as [Hz|Hb].
    + left. split; [exact Hz|].
      assert (E : LocalEmbeddings.sumSquares t = 0)
        by (rewrite Hz; apply sumSquares_repeat_zero).
      rewrite E, Rmult_0_r in H1, H2. lra.
    + right. apply Rabs_le. split.
      * apply Rle_trans with ((1 - slack u d) * (1 - slack u d) - 1); [nra|].
        apply Rplus_le_compat_r.
        apply Rle_trans with (2 := H1). apply Rmult_le_compat; lra.
      * apply Rle_trans with ((1 + 2 * slack u d) * (1 + 2 * slack u d) - 1);
          [|nra].
        apply Rplus_le_compat_r.
        apply Rle_trans with (1 := H2). apply Rmult_le_compat; lra.
Qed.

End RoundingFacts.

Section ExactFacts.
Open Scope R_scope.
Import Rounded.

Lemma roundoff_small : 0 <= Scenario.roundoff <= / 1000000.
Proof. unfold Scenario.roundoff. lra. Qed.

(** The arithmetic that overshoots by one part in 2^53 is within the
    roundoff of doubles. *)
Lemma biased_standard : standard Scenario.roundoff Scenario.biased.
Proof.
  pose proof roundoff_small as Hr.
  assert (Hn : forall x, near Scenario.roundoff (x * (1 + Scenario.roundoff)) x).
  { intros x. exists Scenario.roundoff. split; [|reflexivity].
    rewrite Rabs_pos_eq; lra. }
  constructor; simpl; intros; try apply Hn.
  rewrite (Rmult_comm x y). reflexivity.
Qed.

Lemma slack_small u n : 0 <= u -> slack u n <= 1 / 2 -> u < 1.
Proof.
  unfold slack. intros Hu H. pose proof (pos_INR n). nra.
Qed.

Lemma near_refl u x : 0 <= u -> near u x x.
Proof.
  intros Hu. exists 0. split; [rewrite Rabs_R0; exact Hu | ring].
Qed.

(** The arithmetic of the reals rounds nothing. *)
Lemma exact_standard u : 0 <= u -> standard u exact.
Proof.
  intros Hu. constructor; simpl; intros;
    solve [apply near_refl; exact Hu | apply Rmult_comm].
Qed.



Lemma normalize_exact v :
  normalize exact v = Some (LocalEmbeddings.normalize v).
Proof.
  unfold normalize, LocalEmbeddings.normalize.
  change (sumSquares exact v) with (LocalEmbeddings.sumSquares v).
  change (root exact) with sqrt.
  destruct (Req_dec_T (sqrt (LocalEmbeddings.sumSquares v)) 0) as [E|E];
    [reflexivity|].
  generalize dependent (sqrt (LocalEmbeddings.sumSquares v)). intros norm E.
  induction v as [|x v IH]; simpl; [reflexivity|].
  rewrite IH. unfold quotient.
  destruct (Req_dec_T norm 0); [tauto|reflexivity].
Qed.


End ExactFacts.

Section GenericFacts.
Import RAGEngine Spec.

Variable embed : LocalEmbeddings.t -> JS.str -> list R.
Variable initializeEmbeddings :
  LocalEmbeddings.t -> list JS.str -> LocalEmbeddings.t.
Variable buildVocabulary :
  LocalEmbeddings.t -> list JS.str -> LocalEmbeddings.t.
Hypothesis initialize_width : forall le docs,
  LocalEmbeddings.dimension (initializeEmbeddings le docs)
  = LocalEmbeddings.dimension le.
Hypothesis build_width : forall le docs,
  LocalEmbeddings.dimension (buildVocabulary le docs)
  = LocalEmbeddings.dimension le.

Variable P : nat -> VectorEntry -> Prop.
Hypothesis P_embed : forall le i c md,
  P (LocalEmbeddings.dimension le)
    {| entryId := i; entryContent := c; entryMetadata := md;
       vector := embed le c |}.






End GenericFacts.






(* ================================================================= *)
(** ** The weight of unseen terms, and vocabulary rebuilds *)

Section VocabularyFacts.
Open Scope R_scope.
Import LocalEmbeddings.

Lemma exp_1_gt_2 : 2 < exp 1.
Proof.
  pose proof (exp_ineq1 1). lra.
Qed.

Lemma exp_1_lt_3 : exp 1 < 3.
Proof.
  assert (H8 : 7 / 8 < exp (- (1 / 8))) by (pose proof (exp_ineq1 (- (1 / 8))); lra).
  assert (H4 : exp (- (1 / 4)) = exp (- (1 / 8)) * exp (- (1 / 8)))
    by (rewrite <- exp_plus; f_equal; lra).
  assert (H2 : exp (- (1 / 2)) = exp (- (1 / 4)) * exp (- (1 / 4)))
    by (rewrite <- exp_plus; f_equal; lra).
  assert (H1 : exp (- 1) = exp (- (1 / 2)) * exp (- (1 / 2)))
    by (rewrite <- exp_plus; f_equal; lra).
  assert (Hinv : exp 1 * exp (- 1) = 1)
    by (rewrite <- exp_plus; replace (1 + - 1) with 0 by lra; apply exp_0).
  assert (B4 : 49 / 64 < exp (- (1 / 4))) by (rewrite H4; nra).
  assert (B2 : 2401 / 4096 < exp (- (1 / 2))) by (rewrite H2; nra).
  assert (B1 : 5764801 / 16777216 < exp (- 1)) by (rewrite H1; nra).
  pose proof (exp_pos 1). nra.
Qed.

(** The fallback of the dense loop, 1, is never the value ln(N + 2). *)
Lemma ln_fallback_not_one (N : nat) : ln (INR N + 2) <> 1.
Proof.
  intros H.
  assert (Hpos : 0 < INR N + 2) by (pose proof (pos_INR N); lra).
  pose proof (exp_ln _ Hpos) as E. rewrite H in E.
  pose proof exp_1_gt_2. pose proof exp_1_lt_3.
  destruct N as [|N].
  - simpl in E. lra.
  - rewrite S_INR in E. pose proof (pos_INR N). lra.
Qed.

Lemma denseIdf_unseen le term :
  JSMap.get term (idf le) = None -> denseIdf le term = 1.
Proof. unfold denseIdf. now intros ->. Qed.

Lemma sparseWeight_unseen le mx term freq :
  JSMap.get term (idf le) = None ->
  sparseWeight le mx (term, freq)
  = INR freq / INR mx * ln (INR (documentCount le) + 2).
Proof.
  unfold sparseWeight. simpl. intros ->. simpl.
  destruct (Req_dec_T (ln (INR (documentCount le) + 2)) 0) as [E|E]; [|reflexivity].
  exfalso. pose proof (pos_INR (documentCount le)).
  assert (ln 1 < ln (INR (documentCount le) + 2))
    by (apply ln_increasing; lra).
  rewrite ln_1 in *. lra.
Qed.

Lemma idfValueOf_2_1 : idfValueOf 2 1 = ln (3 / 2) + 1.
Proof. unfold idfValueOf. simpl INR. do 2 f_equal. lra. Qed.

Lemma ln_3_2_positive : 0 < ln (3 / 2).
Proof. rewrite <- ln_1. apply ln_increasing; lra. Qed.

End VocabularyFacts.

(** C3. The fallback weight of an unseen term fails on the code.  With the
    vocabulary of two documents (N = 2), the token "zebra" has no IDF entry:
    [embed] does not fail, the dense loop adds [sign * (1/1) * 1] to the
    bucket of the token, and 1 is not ln(N + 2); only the map [sparse],
    which nothing reads, holds the weight with ln(N + 2). *)
Theorem unseen_term_weighs_one :
  JSMap.get (JS.lit "zebra") (LocalEmbeddings.idf Scenario.vectorizer1) = None
  /\ LocalEmbeddings.documentCount Scenario.vectorizer1 = 2
  /\ LocalEmbeddings.denseIdf Scenario.vectorizer1 (JS.lit "zebra") = 1%R
  /\ LocalEmbeddings.denseVector Scenario.vectorizer1 (JS.lit "zebra")
     = LocalEmbeddings.addAt 262 (1 * (INR 1 / INR 1) * 1)%R (repeat 0%R 384)
  /\ LocalEmbeddings.sparseWeight Scenario.vectorizer1 1 (JS.lit "zebra", 1)
     = (INR 1 / INR 1 * ln (INR 2 + 2))%R
  /\ ln (INR 2 + 2) <> 1%R.
Proof.
  assert (Hget : JSMap.get (JS.lit "zebra")
                   (LocalEmbeddings.idf Scenario.vectorizer1) = None)
    by reflexivity.
  split; [exact Hget|]. split; [reflexivity|].
  split; [now apply denseIdf_unseen|]. split; [|split].
  - unfold LocalEmbeddings.denseVector.
    replace (LocalEmbeddings.termFrequency
               (LocalEmbeddings.tokenize (JS.lit "zebra")))
      with [(JS.lit "zebra", 1)] by (vm_compute; reflexivity).
    replace (LocalEmbeddings.maxTf [(JS.lit "zebra", 1)]) with 1 by reflexivity.
    cbn [fold_left].
    unfold LocalEmbeddings.accumulate, LocalEmbeddings.contribution.
    cbn [fst snd]. rewrite (denseIdf_unseen _ _ Hget).
    replace (LocalEmbeddings.bucket Scenario.vectorizer1 (JS.lit "zebra"))
      with 262 by (vm_compute; reflexivity).
    replace (LocalEmbeddings.sign (JS.lit "zebra")) with 1%R
      by (unfold LocalEmbeddings.sign;
          replace (LocalEmbeddings.hashString (JS.lit "zebra"))
            with 115776262%Z by (vm_compute; reflexivity);
          reflexivity).
    reflexivity.
  - now rewrite sparseWeight_unseen.
  - apply ln_fallback_not_one.
Qed.

(** C4. Vocabulary replacement fails on the code.  The vocabulary is built
    over two documents (by [initialize], which calls [buildVocabulary]),
    then rebuilt over the first one alone: the terms of
    the second document stay in [vocabulary] and in [idf], "paris" with the
    weight of the earlier build, ln(3/2) + 1, which [embed] then uses in
    place of the weight 1 of a term without entry. *)
Theorem vocabulary_survives_rebuild :
  Scenario.vectorizer2
  = LocalEmbeddings.buildVocabulary
      (LocalEmbeddings.initialize Scenario.vectorizer0
         [content Scenario.doc1; content Scenario.doc2])
      [content Scenario.doc1]
  /\ LocalEmbeddings.tokenize (content Scenario.doc1)
     = map JS.lit ["machine"; "learning"; "is"; "subset"; "of"; "artificial";
                   "intelligence"]%string
  /\ JSMap.keys (LocalEmbeddings.vocabulary Scenario.vectorizer2)
     = map JS.lit ["machine"; "learning"; "is"; "subset"; "of"; "artificial";
                   "intelligence"; "paris"; "the"; "capital"; "france"]%string
  /\ JSMap.keys (LocalEmbeddings.idf Scenario.vectorizer2)
     = map JS.lit ["machine"; "learning"; "is"; "subset"; "of"; "artificial";
                   "intelligence"; "paris"; "the"; "capital"; "france"]%string
  /\ LocalEmbeddings.documentCount Scenario.vectorizer2 = 1
  /\ JSMap.get (JS.lit "paris") (LocalEmbeddings.idf Scenario.vectorizer2)
     = Some (LocalEmbeddings.idfValueOf 2 1)
  /\ LocalEmbeddings.denseIdf Scenario.vectorizer2 (JS.lit "paris")
     = (ln (3 / 2) + 1)%R
  /\ (ln (3 / 2) + 1)%R <> 1%R.
Proof.
  assert (Hget : JSMap.get (JS.lit "paris")
                   (LocalEmbeddings.idf Scenario.vectorizer2)
                 = Some (LocalEmbeddings.idfValueOf 2 1)) by reflexivity.
  split; [reflexivity|]. split; [vm_compute; reflexivity|].
  split; [reflexivity|]. split; [reflexivity|]. split; [reflexivity|].
  split; [exact Hget|].
  pose proof ln_3_2_positive. split; [|lra].
  unfold LocalEmbeddings.denseIdf. rewrite Hget, idfValueOf_2_1.
  unfold LocalEmbeddings.orNum.
  destruct (Req_dec_T (ln (3 / 2) + 1) 0); [lra | reflexivity].
Qed.

(* ================================================================= *)
(** ** The chunker *)

Section ChunkFacts.
Open Scope Z_scope.
Import FileDataSource Spec.

Lemma startsWith_prefix s p :
  JS.startsWith s p = true <-> exists post, s = p ++ post.
Proof.
  revert s. induction p as [|c p IH]; intros s; simpl.
  - split; eauto.
  - destruct s as [|d s].
    + split; [discriminate | intros [post H]; discriminate].
    + rewrite andb_true_iff, Ascii.eqb_eq, IH. split.
      * intros [-> [post ->]]. eauto.
      * intros [post [= -> ->]]. eauto.
Qed.

Lemma occursAt_skipn text bp n :
  (n <= List.length text)%nat ->
  JS.startsWith (skipn n text) bp = true <-> occursAt text bp (Z.of_nat n).
Proof.
  intros Hn. rewrite startsWith_prefix. unfold occursAt, JS.len. split.
  - intros [post H]. exists (firstn n text), post. split.
    + now rewrite <- H, firstn_skipn.
    + rewrite length_firstn. lia.
  - intros [pre [post [-> H]]]. exists post.
    apply Nat2Z.inj in H. subst n.
    rewrite skipn_app, skipn_all, Nat.sub_diag. reflexivity.
Qed.

Lemma occursAt_bounds text bp q :
  occursAt text bp q -> 0 <= q /\ q + JS.len bp <= JS.len text.
Proof.
  intros [pre [post [-> <-]]]. unfold JS.len.
  rewrite !length_app. lia.
Qed.

Lemma lastIndexFrom_O s p :
  JS.lastIndexFrom s p 0 =
  if JS.startsWith (skipn 0 s) p then 0 else -1.
Proof. reflexivity. Qed.

Lemma lastIndexFrom_S s p n :
  JS.lastIndexFrom s p (S n) =
  if JS.startsWith (skipn (S n) s) p then Z.of_nat (S n)
  else JS.lastIndexFrom s p n.
Proof. reflexivity. Qed.

Lemma lastIndexFrom_spec s p n :
  (JS.lastIndexFrom s p n = -1
   /\ forall j, (j <= n)%nat -> JS.startsWith (skipn j s) p = false)
  \/ (exists k, JS.lastIndexFrom s p n = Z.of_nat k /\ (k <= n)%nat
                /\ JS.startsWith (skipn k s) p = true
                /\ forall j, (j <= n)%nat ->
                             JS.startsWith (skipn j s) p = true -> (j <= k)%nat).
Proof.
  induction n as [|n IH].
  - rewrite lastIndexFrom_O. destruct (JS.startsWith (skipn 0 s) p) eqn:E.
    + right. exists 0%nat. repeat split; auto; intros; lia.
    + left. split; auto. intros j Hj.
      replace j with 0%nat by lia. exact E.
  - rewrite lastIndexFrom_S.
    destruct (JS.startsWith (skipn (S n) s) p) eqn:E.
    + right. exists (S n). repeat split; auto; intros; lia.
    + destruct IH as [[Hr Hnone]|[k [Hr [Hk [Hat Hmax]]]]].
      * left. split; auto. intros j Hj.
        destruct (Nat.eq_dec j (S n)) as [->|Hne]; auto.
        apply Hnone. lia.
      * right. exists k. repeat split; auto.
        intros j Hj Hs. destruct (Nat.eq_dec j (S n)) as [->|Hne].
        -- congruence.
        -- apply Hmax; auto. lia.
Qed.

(** [lastIndexOf] with a position inside the text. *)
Lemma lastIndexOf_spec text bp e :
  0 <= e <= JS.len text ->
  (JS.lastIndexOf text bp e = -1
   /\ forall q, occursAt text bp q -> q <= e -> False)
  \/ lastOccurrence text bp e (JS.lastIndexOf text bp e).
Proof.
  intros He. unfold JS.lastIndexOf.
  replace (Z.min (Z.max e 0) (JS.len text)) with e by lia.
  assert (Hn : (Z.to_nat e <= List.length text)%nat)
    by (unfold JS.len in He; lia).
  destruct (lastIndexFrom_spec text bp (Z.to_nat e))
    as [[Hr Hnone]|[k [Hr [Hk [Hat Hmax]]]]]; rewrite Hr.
  - left. split; auto. intros q Hq Hqe.
    destruct (occursAt_bounds Hq) as [Hq0 _].
    assert (Hj : (Z.to_nat q <= Z.to_nat e)%nat) by lia.
    specialize (Hnone _ Hj).
    replace q with (Z.of_nat (Z.to_nat q)) in Hq by lia.
    apply occursAt_skipn in Hq; [congruence | lia].
  - right. repeat split.
    + apply occursAt_skipn; [lia | exact Hat].
    + lia.
    + intros q Hq Hqe. destruct (occursAt_bounds Hq) as [Hq0 _].
      assert (Hj : (Z.to_nat q <= Z.to_nat e)%nat) by lia.
      replace q with (Z.of_nat (Z.to_nat q)) in Hq by lia.
      apply occursAt_skipn in Hq; [|lia].
      specialize (Hmax _ Hj Hq). lia.
Qed.

(** The loop over the markers, after the kinds [earlier] have been tried
    without success. *)
Lemma pickBreak_spec cfg text start e :
  0 <= 2 * start + chunkSize cfg -> 0 <= e <= JS.len text ->
  forall bps earlier,
    Forall (noneInReach cfg text start e) earlier ->
    (exists bp before after p,
        earlier ++ bps = before ++ bp :: after
        /\ Forall (noneInReach cfg text start e) before
        /\ lastOccurrence text bp e p
        /\ 2 * start + chunkSize cfg < 2 * p
        /\ pickBreak cfg text start e bps = p + JS.len bp)
    \/ (Forall (noneInReach cfg text start e) (earlier ++ bps)
        /\ pickBreak cfg text start e bps = e).
Proof.
  intros Hhalf He. induction bps as [|bp bps IH]; intros earlier Hearlier.
  - right. rewrite app_nil_r. auto.
  - simpl. unfold pastHalf.
    destruct (2 * start + chunkSize cfg <? 2 * JS.lastIndexOf text bp e)
      eqn:Hpast.
    + apply Z.ltb_lt in Hpast. left.
      exists bp, earlier, bps, (JS.lastIndexOf text bp e).
      destruct (lastIndexOf_spec text bp He) as [[Hr _]|Hlast].
      * rewrite Hr in Hpast. lia.
      * repeat split; auto; apply Hlast.
    + apply Z.ltb_ge in Hpast.
      assert (Hbp : noneInReach cfg text start e bp).
      { intros q Hq Hqe.
        destruct (lastIndexOf_spec text bp He) as [[_ Hnone]|[_ [_ Hmax]]].
        - exfalso. eauto.
        - specialize (Hmax q Hq Hqe). lia. }
      specialize (IH (earlier ++ [bp])).
      rewrite <- !app_assoc in IH. simpl in IH.
      apply IH. apply Forall_app. auto.
Qed.







Lemma breakPoints_nonempty bp : In bp breakPoints -> 1 <= JS.len bp.
Proof.
  unfold breakPoints. simpl.
  intros [<-|[<-|[<-|[<-|[<-|[]]]]]]; vm_compute; discriminate.
Qed.

(** With an overlap of at most half the chunk size every turn of the loop
    moves [start] forward. *)
Lemma step_progress cfg text start :
  0 <= start -> 0 < chunkSize cfg ->
  0 <= 2 * chunkOverlap cfg <= chunkSize cfg ->
  start < snd (step cfg text start).
Proof.
  intros Hstart Hsize Hov. unfold step, windowEnd. cbn [snd].
  destruct (start + chunkSize cfg <? JS.len text) eqn:Hend; [|lia].
  apply Z.ltb_lt in Hend.
  destruct (@pickBreak_spec cfg text start (start + chunkSize cfg)
              ltac:(lia) ltac:(lia) breakPoints [] (Forall_nil _))
    as [[bp [before [after [p [Hbps [_ [_ [Hp ->]]]]]]]]|[_ ->]]; [|lia].
  assert (Hin : In bp breakPoints).
  { simpl in Hbps. rewrite Hbps. apply in_or_app. right. now left. }
  pose proof (breakPoints_nonempty Hin). lia.
Qed.

Lemma chunkLoop_terminates cfg text :
  0 < chunkSize cfg -> 0 <= 2 * chunkOverlap cfg <= chunkSize cfg ->
  forall fuel start chunks,
    0 <= start -> JS.len text - start <= Z.of_nat fuel ->
    exists out, chunkLoop (S fuel) cfg text start chunks = Some out.
Proof.
  intros Hsize Hov. induction fuel as [|fuel IH]; intros start chunks Hs Hf;
    cbn [chunkLoop]; destruct (start <? JS.len text) eqn:E; eauto.
  - apply Z.ltb_lt in E. lia.
  - apply Z.ltb_lt in E.
    pose proof (@step_progress cfg text start Hs Hsize Hov) as Hp.
    destruct (step cfg text start) as [chunk next]. cbn [snd] in Hp.
    apply IH; lia.
Qed.

(** [chunkText] returns when the overlap is at most half the chunk size. *)
Lemma chunkText_terminates cfg text :
  0 < chunkSize cfg -> 0 <= 2 * chunkOverlap cfg <= chunkSize cfg ->
  exists chunks, chunkText (S (List.length text)) cfg text = Some chunks.
Proof.
  intros Hsize Hov. unfold chunkText.
  destruct (JS.len text <=? chunkSize cfg); [eauto|].
  destruct (@chunkLoop_terminates cfg text Hsize Hov
              (List.length text) 0 [] ltac:(lia)
              ltac:(unfold JS.len; lia)) as [out ->].
  simpl. eauto.
Qed.

End ChunkFacts.



(** The loop reaches negative starts with an overlap below the chunk
    size: on this text the turns start at 0, -6 and -13, and the third
    window ends at 1, after no marker. *)
Lemma negative_start_reached :
  (0 <= FileDataSource.chunkOverlap Scenario.backConfig
   < FileDataSource.chunkSize Scenario.backConfig)%Z
  /\ snd (FileDataSource.step Scenario.backConfig Scenario.backText 0) = (-6)%Z
  /\ snd (FileDataSource.step Scenario.backConfig Scenario.backText (-6))
     = (-13)%Z
  /\ JS.lastIndexOf Scenario.backText [JS.LF; JS.LF] (-13 + 20) = (-1)%Z
  /\ FileDataSource.windowEnd Scenario.backConfig Scenario.backText (-13)
     = 1%Z.
Proof.
  split; [simpl; lia|]. repeat split; vm_compute; reflexivity.
Qed.


Section LoopFacts.
Open Scope Z_scope.
Import FileDataSource.

Lemma loop_step :
  step Scenario.loopConfig Scenario.loopText 0 = (JS.lit "abcdefg", 0).
Proof. vm_compute. reflexivity. Qed.

Lemma loop_never_leaves fuel : forall chunks,
  chunkLoop fuel Scenario.loopConfig Scenario.loopText 0 chunks = None.
Proof.
  induction fuel as [|fuel IH]; intros chunks; [reflexivity|].
  cbn [chunkLoop].
  replace (0 <? JS.len Scenario.loopText) with true by (vm_compute; reflexivity).
  rewrite loop_step. apply IH.
Qed.

End LoopFacts.

(** C5. Chunking termination fails on the code.  With [chunkSize = 10] and
    [chunkOverlap = 8] (an overlap that is not negative and below the chunk
    size) and a text of 31 code units with its only line break at 7, the
    first turn of the loop ends the window at 8 and sets [start] back to 0:
    [start] does not increase, and the loop is never left, whatever the
    number of turns. *)
Theorem chunkText_overlap_loops :
  (0 <= FileDataSource.chunkOverlap Scenario.loopConfig
   < FileDataSource.chunkSize Scenario.loopConfig)%Z
  /\ JS.len Scenario.loopText = 31%Z
  /\ FileDataSource.windowEnd Scenario.loopConfig Scenario.loopText 0 = 8%Z
  /\ FileDataSource.step Scenario.loopConfig Scenario.loopText 0
     = (JS.lit "abcdefg", 0%Z)
  /\ forall fuel,
       FileDataSource.chunkText fuel Scenario.loopConfig Scenario.loopText
       = None.
Proof.
  split; [simpl; lia|]. split; [reflexivity|].
  split; [vm_compute; reflexivity|]. split; [exact loop_step|].
  intros fuel. unfold FileDataSource.chunkText.
  replace (JS.len Scenario.loopText <=?
           FileDataSource.chunkSize Scenario.loopConfig)%Z
    with false by (vm_compute; reflexivity).
  now rewrite loop_never_leaves.
Qed.

(* ================================================================= *)
(** * Further properties of the code *)

(* ================================================================= *)
(** ** Hashing and tokens *)

Section HashFacts.
Open Scope Z_scope.
Import LocalEmbeddings Facts.

Lemma toInt32_range z : - 2 ^ 31 <= toInt32 z < 2 ^ 31.
Proof.
  unfold toInt32. pose proof (Z.mod_pos_bound (z + 2 ^ 31) (2 ^ 32)). lia.
Qed.

Lemma toInt32_shift z m : toInt32 (z + m * 2 ^ 32) = toInt32 z.
Proof.
  unfold toInt32.
  replace (z + m * 2 ^ 32 + 2 ^ 31) with (z + 2 ^ 31 + m * 2 ^ 32) by ring.
  now rewrite Z_mod_plus_full.
Qed.

Lemma toInt32_wraps z : exists m, toInt32 z = z + m * 2 ^ 32.
Proof.
  unfold toInt32. exists (- ((z + 2 ^ 31) / 2 ^ 32)).
  pose proof (Z_div_mod_eq_full (z + 2 ^ 31) (2 ^ 32)). lia.
Qed.

Lemma toInt32_small z : - 2 ^ 31 <= z < 2 ^ 31 -> toInt32 z = z.
Proof.
  intros H. unfold toInt32. rewrite Z.mod_small; lia.
Qed.

Lemma hashStep_poly h h' c :
  h = toInt32 h' -> hashStep h c = toInt32 (h' * 31 + JS.code c).
Proof.
  intros ->. unfold hashStep. rewrite Z.shiftl_mul_pow2 by lia.
  destruct (toInt32_wraps h') as [m Hm].
  destruct (toInt32_wraps (toInt32 h' * 2 ^ 5)) as [n Hn].
  rewrite Hn, Hm.
  replace ((h' + m * 2 ^ 32) * 2 ^ 5 + n * 2 ^ 32 - (h' + m * 2 ^ 32)
           + JS.code c)
    with (h' * 31 + JS.code c + (31 * m + n) * 2 ^ 32) by ring.
  apply toInt32_shift.
Qed.

Lemma hashString_poly_from s : forall h h',
  h = toInt32 h' ->
  fold_left hashStep s h
  = toInt32 (fold_left (fun a c => a * 31 + JS.code c) s h').
Proof.
  induction s as [|c s IH]; intros h h' H; simpl; auto.
  apply IH. now apply hashStep_poly.
Qed.

End HashFacts.

(** X1. [hashString] is the polynomial hash [h * 31 + c] of the code units
    wrapped to a signed 32-bit integer; on every string it stays within
    [-2^31, 2^31), and [Math.abs(hash) % dimension] is below [dimension]
    for every vectorizer of non-zero width. *)
Theorem hashString_is_wrapped_polynomial (s : JS.str) (le : LocalEmbeddings.t) :
  LocalEmbeddings.hashString s = LocalEmbeddings.toInt32 (Facts.polyHash s)
  /\ (- 2 ^ 31 <= LocalEmbeddings.hashString s < 2 ^ 31)%Z
  /\ (exists m, LocalEmbeddings.hashString s
                = (Facts.polyHash s + m * 2 ^ 32)%Z)
  /\ (LocalEmbeddings.dimension le = 0
      \/ LocalEmbeddings.bucket le s < LocalEmbeddings.dimension le).
Proof.
  assert (H : LocalEmbeddings.hashString s
              = LocalEmbeddings.toInt32 (Facts.polyHash s)).
  { unfold LocalEmbeddings.hashString, Facts.polyHash.
    apply hashString_poly_from. symmetry. apply toInt32_small. lia. }
  split; [exact H|]. split; [rewrite H; apply toInt32_range|].
  split; [rewrite H; apply toInt32_wraps|].
  destruct (LocalEmbeddings.dimension le) as [|d] eqn:Hd; [now left|right].
  unfold LocalEmbeddings.bucket. rewrite Hd.
  pose proof (Z.mod_pos_bound
                (Z.abs (LocalEmbeddings.hashString s)) (Z.of_nat (S d))).
  lia.
Qed.

Section TokenFacts.
Import LocalEmbeddings Facts.

Lemma stripped_char c :
  JS.isWhiteSpace (stripChar (JS.toLowerChar c)) = true
  \/ lowerWord (stripChar (JS.toLowerChar c)) = true.
Proof.
  destruct c as [[] [] [] [] [] [] [] []]; vm_compute; auto.
Qed.

Lemma toLowerChar_idempotent c :
  JS.toLowerChar (JS.toLowerChar c) = JS.toLowerChar c.
Proof.
  destruct c as [[] [] [] [] [] [] [] []]; vm_compute; reflexivity.
Qed.

Lemma toLowerCase_idempotent s :
  JS.toLowerCase (JS.toLowerCase s) = JS.toLowerCase s.
Proof.
  unfold JS.toLowerCase. rewrite map_map. apply map_ext.
  apply toLowerChar_idempotent.
Qed.

(** The pieces of [split] hold the characters that are not white space. *)
Lemma splitWs_pieces (P : ascii -> Prop) s : forall inRun cur,
  Forall P cur ->
  Forall (fun c => JS.isWhiteSpace c = true \/ P c) s ->
  Forall (Forall P) (splitWs inRun cur s).
Proof.
  induction s as [|c s IH]; intros inRun cur Hcur Hs; simpl.
  - repeat constructor. exact Hcur.
  - inversion Hs as [|? ? Hc Hs']; subst.
    destruct (JS.isWhiteSpace c) eqn:E.
    + destruct inRun; [apply IH; auto|].
      constructor; [exact Hcur|]. apply IH; auto.
    + destruct Hc as [Hc|Hc]; [congruence|].
      apply IH; auto. apply Forall_app. auto.
Qed.

Lemma tokenize_lowered text text' :
  JS.toLowerCase text = JS.toLowerCase text' -> tokenize text = tokenize text'.
Proof. unfold tokenize. now intros ->. Qed.

End TokenFacts.

(** X2. Every token of [tokenize] has at least two characters, all of them
    in [a-z0-9_]: no upper-case letter, no white space, no punctuation. *)
Theorem tokens_are_lower_words (text : JS.str) :
  Forall (fun token => 2 <= List.length token
                       /\ Forall (fun c => Facts.lowerWord c = true) token)
         (LocalEmbeddings.tokenize text).
Proof.
  unfold LocalEmbeddings.tokenize. apply Forall_forall. intros token Hin.
  apply filter_In in Hin. destruct Hin as [Hin Hlen]. split.
  - apply Z.ltb_lt in Hlen. unfold JS.len in Hlen. lia.
  - clear Hlen. revert token Hin. apply Forall_forall.
    apply splitWs_pieces; [constructor|].
    apply Forall_forall. intros c Hc.
    apply in_map_iff in Hc. destruct Hc as [d [<- Hd]].
    unfold JS.toLowerCase in Hd. apply in_map_iff in Hd.
    destruct Hd as [c0 [<- _]]. apply stripped_char.
Qed.

(** X3. Case does not matter: two texts with the same lower-case form have
    the same tokens and the same embedding under every vectorizer, and the
    vocabulary built over them is the same; in particular lower-casing a
    text first changes nothing. *)
Theorem embedding_ignores_case
  (le : LocalEmbeddings.t) (text text' : JS.str) (docs : list JS.str) :
  JS.toLowerCase text = JS.toLowerCase text' ->
  LocalEmbeddings.tokenize text = LocalEmbeddings.tokenize text'
  /\ LocalEmbeddings.embed le text = LocalEmbeddings.embed le text'
  /\ LocalEmbeddings.buildVocabulary le (text :: docs)
     = LocalEmbeddings.buildVocabulary le (text' :: docs)
  /\ LocalEmbeddings.embed le (JS.toLowerCase text)
     = LocalEmbeddings.embed le text.
Proof.
  intros H. pose proof (tokenize_lowered _ _ H) as Ht.
  assert (Hl : LocalEmbeddings.tokenize (JS.toLowerCase text)
               = LocalEmbeddings.tokenize text)
    by (apply tokenize_lowered, toLowerCase_idempotent).
  repeat split.
  - exact Ht.
  - unfold LocalEmbeddings.embed, LocalEmbeddings.denseVector. now rewrite Ht.
  - unfold LocalEmbeddings.buildVocabulary. simpl.
    unfold LocalEmbeddings.seeDocument at 2 4. now rewrite Ht.
  - unfold LocalEmbeddings.embed, LocalEmbeddings.denseVector. now rewrite Hl.
Qed.

Lemma embedding_ignores_case_witness :
  LocalEmbeddings.tokenize (JS.lit "Paris IS the Capital")
  = LocalEmbeddings.tokenize (JS.lit "PARIS is THE capital")
  /\ LocalEmbeddings.embed Scenario.vectorizer1 (JS.lit "Paris IS the Capital")
     = LocalEmbeddings.embed Scenario.vectorizer1 (JS.lit "PARIS is THE capital")
  /\ LocalEmbeddings.buildVocabulary Scenario.vectorizer1
       [JS.lit "Paris IS the Capital"]
     = LocalEmbeddings.buildVocabulary Scenario.vectorizer1
         [JS.lit "PARIS is THE capital"]
  /\ LocalEmbeddings.embed Scenario.vectorizer1
       (JS.toLowerCase (JS.lit "Paris IS the Capital"))
     = LocalEmbeddings.embed Scenario.vectorizer1 (JS.lit "Paris IS the Capital").
Proof.
  apply (@embedding_ignores_case Scenario.vectorizer1
           (JS.lit "Paris IS the Capital") (JS.lit "PARIS is THE capital") []).
  vm_compute. reflexivity.
Defined.

(* ================================================================= *)
(** ** Building the vocabulary *)

Section BuildFacts.
Import LocalEmbeddings Facts.

Lemma existsb_keyEqb t l : existsb (JSMap.keyEqb t) l = true <-> In t l.
Proof.
  rewrite existsb_exists. split.
  - intros [x [Hx E]]. apply keyEqb_eq in E. now subst.
  - intros H. exists t. split; auto. apply keyEqb_refl.
Qed.

Lemma existsb_keyEqb_false t l : existsb (JSMap.keyEqb t) l = false <-> ~ In t l.
Proof.
  rewrite <- existsb_keyEqb. destruct (existsb _ _); split; congruence.
Qed.

Lemma unique_spec l : forall seen,
  NoDup (unique seen l)
  /\ forall x, In x (unique seen l) <-> In x l /\ ~ In x seen.
Proof.
  induction l as [|y l IH]; intros seen; simpl.
  - split; [constructor|]. tauto.
  - destruct (existsb (JSMap.keyEqb y) seen) eqn:E.
    + apply existsb_keyEqb in E. destruct (IH seen) as [Hn Hin].
      split; auto. intros x. rewrite Hin. split; [tauto|].
      intros [[<-|Hx] Hs]; tauto.
    + apply existsb_keyEqb_false in E. destruct (IH (y :: seen)) as [Hn Hin].
      split.
      * constructor; auto. rewrite Hin. simpl. tauto.
      * intros x. simpl. rewrite Hin. simpl. split.
        -- intros [<-|[Hx Hs]]; tauto.
        -- intros [[<-|Hx] Hs]; auto.
           destruct (list_eq_dec ascii_dec y x) as [->|Hne]; auto.
           right. split; auto. intros [->|Hs']; tauto.
Qed.

Lemma unique_contains t doc :
  existsb (JSMap.keyEqb t) (unique [] (tokenize doc)) = containsTerm t doc.
Proof.
  unfold containsTerm. destruct (unique_spec (tokenize doc) []) as [_ Hin].
  destruct (existsb (JSMap.keyEqb t) (tokenize doc)) eqn:E.
  - apply existsb_keyEqb. apply existsb_keyEqb in E. apply Hin. simpl. tauto.
  - apply existsb_keyEqb_false. apply existsb_keyEqb_false in E.
    rewrite Hin. tauto.
Qed.

Lemma seeTokens_fst l : forall m v,
  fst (fold_left seeToken l (m, v)) = fold_left countToken l m.
Proof.
  induction l as [|x l IH]; intros m v; simpl; auto.
Qed.

Lemma seeTokens_snd l : forall m v,
  snd (fold_left seeToken l (m, v))
  = fold_left (fun vocab token =>
                 if JSMap.has token vocab then vocab
                 else JSMap.set token (JSMap.size vocab) vocab) l v.
Proof.
  induction l as [|x l IH]; intros m v; simpl; auto.
Qed.

Lemma countTokens_get l : NoDup l -> forall m t,
  JSMap.get t (fold_left countToken l m)
  = if existsb (JSMap.keyEqb t) l
    then Some (orNat (JSMap.get t m) 0 + 1)
    else JSMap.get t m.
Proof.
  induction 1 as [|x l Hx Hl IH]; intros m t; simpl; auto.
  rewrite IH.
  destruct (JSMap.keyEqb t x) eqn:E; simpl.
  - apply keyEqb_eq in E. subst x.
    apply existsb_keyEqb_false in Hx. rewrite Hx.
    unfold countToken. apply get_set_same.
  - apply keyEqb_neq in E.
    assert (Hg : JSMap.get t (countToken m x) = JSMap.get t m)
      by (unfold countToken; now apply get_set_other).
    now rewrite Hg.
Qed.

Lemma has_set_token t x vocab :
  JSMap.has t (if JSMap.has x vocab then vocab
               else JSMap.set x (JSMap.size vocab) vocab)
  = JSMap.has t vocab || JSMap.keyEqb t x.
Proof.
  destruct (JSMap.keyEqb t x) eqn:E.
  - apply keyEqb_eq in E. subst x. rewrite orb_true_r.
    destruct (JSMap.has t vocab) eqn:H; auto.
    unfold JSMap.has. now rewrite get_set_same.
  - rewrite orb_false_r. apply keyEqb_neq in E.
    destruct (JSMap.has x vocab); auto.
    unfold JSMap.has. now rewrite get_set_other by exact E.
Qed.

Lemma seeTokens_has l : forall v t,
  JSMap.has t
    (fold_left (fun vocab token =>
                  if JSMap.has token vocab then vocab
                  else JSMap.set token (JSMap.size vocab) vocab) l v)
  = JSMap.has t v || existsb (JSMap.keyEqb t) l.
Proof.
  induction l as [|x l IH]; intros v t; simpl.
  - now rewrite orb_false_r.
  - rewrite IH, has_set_token. now rewrite orb_assoc.
Qed.

Lemma seeDocument_get m v doc t :
  JSMap.get t (fst (seeDocument (m, v) doc))
  = if containsTerm t doc then Some (orNat (JSMap.get t m) 0 + 1)
    else JSMap.get t m.
Proof.
  unfold seeDocument. rewrite seeTokens_fst.
  rewrite countTokens_get by apply unique_spec.
  now rewrite unique_contains.
Qed.

Lemma seeDocument_has m v doc t :
  JSMap.has t (snd (seeDocument (m, v) doc))
  = JSMap.has t v || containsTerm t doc.
Proof.
  unfold seeDocument. rewrite seeTokens_snd, seeTokens_has.
  now rewrite unique_contains.
Qed.

Lemma df_cons t doc docs :
  df t (doc :: docs) = (if containsTerm t doc then 1 else 0) + df t docs.
Proof.
  unfold df. simpl. destruct (containsTerm t doc); reflexivity.
Qed.

Lemma orNat_entryOfCount n : orNat (entryOfCount n) 0 = n.
Proof. destruct n; reflexivity. Qed.

Lemma seeDocuments_get docs t : forall st n,
  JSMap.get t (fst st) = entryOfCount n ->
  JSMap.get t (fst (fold_left seeDocument docs st)) = entryOfCount (n + df t docs).
Proof.
  induction docs as [|doc docs IH]; intros [m v] n H; simpl in *.
  - unfold df. simpl. now rewrite Nat.add_0_r.
  - rewrite df_cons.
    destruct (seeDocument (m, v) doc) as [m' v'] eqn:E.
    pose proof (seeDocument_get m v doc t) as Hg. rewrite E in Hg.
    simpl in Hg. rewrite H, orNat_entryOfCount in Hg.
    destruct (containsTerm t doc).
    + replace (n + (1 + df t docs)) with ((n + 1) + df t docs) by lia.
      apply IH. simpl. rewrite Hg. now rewrite Nat.add_1_r.
    + simpl. apply IH. simpl. now rewrite Hg.
Qed.

Lemma seeDocuments_has docs t : forall st,
  JSMap.has t (snd (fold_left seeDocument docs st))
  = JSMap.has t (snd st) || negb (Nat.eqb (df t docs) 0).
Proof.
  induction docs as [|doc docs IH]; intros [m v]; simpl.
  - now rewrite orb_false_r.
  - rewrite IH, df_cons.
    destruct (seeDocument (m, v) doc) as [m' v'] eqn:E.
    pose proof (seeDocument_has m v doc t) as Hh. rewrite E in Hh.
    simpl in *. rewrite Hh, <- orb_assoc. f_equal.
    destruct (containsTerm t doc); simpl; auto.
Qed.

Lemma set_keys_NoDup (V : Type) (m : JSMap.t V) k v :
  NoDup (JSMap.keys m) -> NoDup (JSMap.keys (JSMap.set k v m)).
Proof.
  intros H. rewrite keys_set.
  destruct (existsb (JSMap.keyEqb k) (JSMap.keys m)) eqn:E; auto.
  apply existsb_keyEqb_false in E.
  apply NoDup_app; auto.
  - repeat constructor. simpl. tauto.
  - intros x Hx [<-|[]]. tauto.
Qed.

Lemma countTokens_NoDup l : forall m,
  NoDup (JSMap.keys m) -> NoDup (JSMap.keys (fold_left countToken l m)).
Proof.
  induction l as [|x l IH]; intros m H; simpl; auto.
  apply IH. unfold countToken. now apply set_keys_NoDup.
Qed.

Lemma seeDocuments_NoDup docs : forall st,
  NoDup (JSMap.keys (fst st)) ->
  NoDup (JSMap.keys (fst (fold_left seeDocument docs st))).
Proof.
  induction docs as [|doc docs IH]; intros [m v] H; simpl in *; auto.
  apply IH. unfold seeDocument. rewrite seeTokens_fst.
  now apply countTokens_NoDup.
Qed.

Lemma get_not_in_keys (V : Type) (m : JSMap.t V) k :
  ~ In k (JSMap.keys m) -> JSMap.get k m = None.
Proof.
  induction m as [|[k' v'] m IH]; simpl; auto.
  intros H. destruct (JSMap.keyEqb k k') eqn:E.
  - apply keyEqb_eq in E. subst. tauto.
  - apply IH. tauto.
Qed.

(** The loop [for (const [term, df] of docFreq) this.idf.set(...)]. *)
Lemma setIdf_get N docFreq : NoDup (JSMap.keys docFreq) -> forall weights t,
  JSMap.get t (fold_left (setIdf N) docFreq weights)
  = match JSMap.get t docFreq with
    | Some n => Some (idfValueOf N n)
    | None => JSMap.get t weights
    end.
Proof.
  induction docFreq as [|[k n] docFreq IH]; intros Hn weights t; simpl; auto.
  inversion Hn as [|? ? Hk Hn']; subst.
  rewrite IH by exact Hn'. unfold setIdf. simpl.
  destruct (JSMap.keyEqb t k) eqn:E.
  - apply keyEqb_eq in E. subst k.
    rewrite (get_not_in_keys _ _ Hk). apply get_set_same.
  - apply keyEqb_neq in E.
    destruct (JSMap.get t docFreq); auto. now apply get_set_other.
Qed.

Lemma buildVocabulary_idf_get le docs t :
  JSMap.get t (idf (buildVocabulary le docs))
  = if Nat.eqb (df t docs) 0 then JSMap.get t (idf le)
    else Some (idfValueOf (List.length docs) (df t docs)).
Proof.
  unfold buildVocabulary.
  pose proof (seeDocuments_get docs t (JSMap.empty, vocabulary le) 0 eq_refl)
    as Hg.
  pose proof (seeDocuments_NoDup docs (JSMap.empty, vocabulary le)
                (NoDup_nil _)) as Hn.
  destruct (fold_left seeDocument docs (JSMap.empty, vocabulary le))
    as [docFreq vocab].
  simpl in *. rewrite setIdf_get by exact Hn. rewrite Hg.
  destruct (df t docs); reflexivity.
Qed.

Lemma buildVocabulary_has le docs t :
  JSMap.has t (vocabulary (buildVocabulary le docs))
  = JSMap.has t (vocabulary le) || negb (Nat.eqb (df t docs) 0).
Proof.
  unfold buildVocabulary.
  pose proof (seeDocuments_has docs t (JSMap.empty, vocabulary le)) as Hh.
  destruct (fold_left seeDocument docs (JSMap.empty, vocabulary le))
    as [docFreq vocab].
  exact Hh.
Qed.

Lemma df_le_length t docs : df t docs <= List.length docs.
Proof. unfold df. apply filter_length_le. Qed.

Lemma idfValueOf_ge_1 N n : n <= N -> (1 <= idfValueOf N n)%R.
Proof.
  intros H. unfold idfValueOf.
  assert (Hn : (0 <= INR n)%R) by apply pos_INR.
  assert (HN : (INR n <= INR N)%R) by now apply le_INR.
  assert (H1 : (1 <= (INR N + 1) / (INR n + 1))%R).
  { apply Rmult_le_reg_r with (INR n + 1)%R; [lra|].
    unfold Rdiv. rewrite Rmult_assoc, Rinv_l by lra. lra. }
  destruct (Req_dec_T ((INR N + 1) / (INR n + 1)) 1) as [->|Hne].
  - rewrite ln_1. lra.
  - assert (ln 1 < ln ((INR N + 1) / (INR n + 1)))%R
      by (apply ln_increasing; lra).
    rewrite ln_1 in *. lra.
Qed.

End BuildFacts.

(** X4. The IDF map after [buildVocabulary(documents)]: a term that occurs
    in [df > 0] of the documents has the weight
    [ln((N + 1) / (df + 1)) + 1] with [N] the number of documents; every
    other term keeps whatever entry it had before.  The vocabulary holds
    the terms it held before and the terms of the documents, and
    [documentCount] is [N]. *)
Theorem buildVocabulary_weights
  (le : LocalEmbeddings.t) (docs : list JS.str) (t : JS.str) :
  JSMap.get t (LocalEmbeddings.idf (LocalEmbeddings.buildVocabulary le docs))
  = (if Nat.eqb (Facts.df t docs) 0
     then JSMap.get t (LocalEmbeddings.idf le)
     else Some (LocalEmbeddings.idfValueOf (List.length docs) (Facts.df t docs)))
  /\ JSMap.has t
       (LocalEmbeddings.vocabulary (LocalEmbeddings.buildVocabulary le docs))
     = JSMap.has t (LocalEmbeddings.vocabulary le)
       || negb (Nat.eqb (Facts.df t docs) 0)
  /\ LocalEmbeddings.documentCount (LocalEmbeddings.buildVocabulary le docs)
     = List.length docs
  /\ LocalEmbeddings.dimension (LocalEmbeddings.buildVocabulary le docs)
     = LocalEmbeddings.dimension le.
Proof.
  split; [apply buildVocabulary_idf_get|].
  split; [apply buildVocabulary_has|].
  split; [|apply buildVocabulary_dimension].
  unfold LocalEmbeddings.buildVocabulary.
  destruct (fold_left _ _ _) as [docFreq vocab]. reflexivity.
Qed.

(** X5. IDF weights never drop below 1: when every weight of the
    vectorizer is at least 1 (as in a new vectorizer, which has none),
    every weight after [buildVocabulary] is at least 1, and so is the
    weight [this.idf.get(term) || 1] that [embed] gives to any term. *)
Theorem idf_weights_at_least_one
  (le : LocalEmbeddings.t) (docs : list JS.str) :
  (forall t w, JSMap.get t (LocalEmbeddings.idf le) = Some w -> (1 <= w)%R) ->
  (forall t w,
      JSMap.get t (LocalEmbeddings.idf (LocalEmbeddings.buildVocabulary le docs))
      = Some w -> (1 <= w)%R)
  /\ (forall t,
        (1 <= LocalEmbeddings.denseIdf
                (LocalEmbeddings.buildVocabulary le docs) t)%R).
Proof.
  intros H.
  assert (H' : forall t w,
             JSMap.get t (LocalEmbeddings.idf
                            (LocalEmbeddings.buildVocabulary le docs)) = Some w ->
             (1 <= w)%R).
  { intros t w. rewrite buildVocabulary_idf_get.
    destruct (Nat.eqb (Facts.df t docs) 0); [apply H|].
    intros [= <-]. apply idfValueOf_ge_1, df_le_length. }
  split; [exact H'|].
  intros t. unfold LocalEmbeddings.denseIdf, LocalEmbeddings.orNum.
  destruct (JSMap.get t _) as [w|] eqn:E; [|lra].
  destruct (Req_dec_T w 0); [lra|]. eapply H'; eauto.
Qed.

Lemma idf_weights_at_least_one_witness :
  (forall t w,
      JSMap.get t (LocalEmbeddings.idf
                     (LocalEmbeddings.buildVocabulary Scenario.vectorizer0
                        [content Scenario.doc1; content Scenario.doc2]))
      = Some w -> (1 <= w)%R)
  /\ (forall t,
        (1 <= LocalEmbeddings.denseIdf
                (LocalEmbeddings.buildVocabulary Scenario.vectorizer0
                   [content Scenario.doc1; content Scenario.doc2]) t)%R).
Proof.
  apply (@idf_weights_at_least_one Scenario.vectorizer0
           [content Scenario.doc1; content Scenario.doc2]).
  intros t w H. simpl in H. discriminate.
Defined.

(* ================================================================= *)
(** ** Cosine scores *)

(** X6. The cosine of two embeddings on doubles, where every operation
    has a relative error of at most [u]: for vectorizers of one width
    [cosineSimilarity] of two [embed] results does not throw and is the
    same in both orders; the score is between -1 and 1 up to the roundoff
    [6 (2 dimension + 4) u]; a text scores 1 against itself up to the same
    roundoff, unless its vector is the zero vector, in which case it
    scores 0. *)
Theorem cosine_of_embeddings
  (u : R) (A : Rounded.arith) (le le' : LocalEmbeddings.t)
  (query text : JS.str) :
  Rounded.standard u A ->
  (0 <= u)%R ->
  LocalEmbeddings.dimension le = LocalEmbeddings.dimension le' ->
  (Rounded.slack u (LocalEmbeddings.dimension le) <= 1 / 2)%R ->
  exists q t s s',
    Rounded.embed A le query = Some q
    /\ Rounded.embed A le' text = Some t
    /\ Rounded.cosineSimilarity A q t = Ok s
    /\ Rounded.cosineSimilarity A t q = Ok s
    /\ (Rabs s <= 1 + 6 * Rounded.slack u (LocalEmbeddings.dimension le))%R
    /\ Rounded.cosineSimilarity A t t = Ok s'
    /\ ((t = repeat 0%R (LocalEmbeddings.dimension le) /\ s' = 0%R)
        \/ (Rabs (s' - 1)
            <= 6 * Rounded.slack u (LocalEmbeddings.dimension le))%R).
Proof.
  intros HA Hu Hd HK.
  exact (@cosine_rounded u A Hu (slack_small Hu HK) HA le le' query text Hd HK).
Qed.

Lemma cosine_of_embeddings_witness :
  exists q t s s',
    Rounded.embed Scenario.biased Scenario.vectorizer2
      (JS.lit "capital of France") = Some q
    /\ Rounded.embed Scenario.biased Scenario.vectorizer1
         (content Scenario.doc2) = Some t
    /\ Rounded.cosineSimilarity Scenario.biased q t = Ok s
    /\ Rounded.cosineSimilarity Scenario.biased t q = Ok s
    /\ (Rabs s
        <= 1 + 6 * Rounded.slack Scenario.roundoff
                     (LocalEmbeddings.dimension Scenario.vectorizer2))%R
    /\ Rounded.cosineSimilarity Scenario.biased t t = Ok s'
    /\ ((t = repeat 0%R (LocalEmbeddings.dimension Scenario.vectorizer2)
         /\ s' = 0%R)
        \/ (Rabs (s' - 1)
            <= 6 * Rounded.slack Scenario.roundoff
                     (LocalEmbeddings.dimension Scenario.vectorizer2))%R).
Proof.
  apply (@cosine_of_embeddings Scenario.roundoff Scenario.biased
           Scenario.vectorizer2 Scenario.vectorizer1
           (JS.lit "capital of France") (content Scenario.doc2)).
  - exact biased_standard.
  - unfold Scenario.roundoff. lra.
  - reflexivity.
  - unfold Rounded.slack, Scenario.roundoff.
    replace (INR (LocalEmbeddings.dimension Scenario.vectorizer2))
      with 384%R by (simpl; lra).
    lra.
Defined.

(** X7. [normalize] on doubles, where every operation has a relative
    error of at most [u]: it returns a vector of the same length without
    a quotient by zero; the norm it computes is zero for the zero vector
    only, which it returns as it is; every other vector comes back with an
    L2 norm within [2 (2 n + 4) u] of 1.  Without rounding it is the
    [normalize] of the vectorizer above. *)
Theorem normalize_on_doubles (u : R) (A : Rounded.arith) (v : list R) :
  Rounded.standard u A ->
  (0 <= u)%R ->
  (Rounded.slack u (List.length v) <= 1 / 2)%R ->
  (exists v',
      Rounded.normalize A v = Some v'
      /\ List.length v' = List.length v
      /\ ((Forall (fun x => x = 0%R) v /\ v' = v)
          \/ (~ Forall (fun x => x = 0%R) v
              /\ (Rabs (Spec.l2norm v' - 1)
                  <= 2 * Rounded.slack u (List.length v))%R)))
  /\ (Rounded.root A (Rounded.sumSquares A v) = 0%R
      <-> Forall (fun x => x = 0%R) v)
  /\ Rounded.normalize Rounded.exact v = Some (LocalEmbeddings.normalize v).
Proof.
  intros HA Hu HK. pose proof (slack_small Hu HK) as Hu1.
  split; [|split].
  - destruct (@normalize_rounded_squares u A Hu Hu1 HA v HK)
      as [v' [Hv [Hlen Hc]]].
    exists v'. split; [exact Hv|]. split; [exact Hlen|].
    destruct Hc as [Hz|[Hnz Hb]]; [left; exact Hz | right].
    split; [exact Hnz|].
    apply (@squares_norm u Hu (List.length v) v' HK Hb).
  - apply (@norm_rounded_zero u A Hu Hu1 HA v).
  - apply normalize_exact.
Qed.

Lemma normalize_on_doubles_witness :
  (exists v',
      Rounded.normalize Scenario.biased [3%R; 4%R] = Some v'
      /\ List.length v' = List.length [3%R; 4%R]
      /\ ((Forall (fun x => x = 0%R) [3%R; 4%R] /\ v' = [3%R; 4%R])
          \/ (~ Forall (fun x => x = 0%R) [3%R; 4%R]
              /\ (Rabs (Spec.l2norm v' - 1)
                  <= 2 * Rounded.slack Scenario.roundoff
                           (List.length [3%R; 4%R]))%R)))
  /\ (Rounded.root Scenario.biased
        (Rounded.sumSquares Scenario.biased [3%R; 4%R]) = 0%R
      <-> Forall (fun x => x = 0%R) [3%R; 4%R])
  /\ Rounded.normalize Rounded.exact [3%R; 4%R]
     = Some (LocalEmbeddings.normalize [3%R; 4%R]).
Proof.
  apply (@normalize_on_doubles Scenario.roundoff Scenario.biased [3%R; 4%R]).
  - exact biased_standard.
  - unfold Scenario.roundoff. lra.
  - unfold Rounded.slack, Scenario.roundoff. simpl. lra.
Defined.

(* ================================================================= *)
(** ** Ranked lists *)

Section RankedFacts.
Import LocalEmbeddings Spec.

Lemma scoring_ids q docs : forall scores,
  mapM (scoreDoc q) docs = Ok scores ->
  map scoredId scores = map entryId docs.
Proof.
  induction docs as [|d docs IH]; simpl; intros scores H.
  - now injection H as <-.
  - unfold scoreDoc at 1 in H.
    destruct (cosineSimilarity q (vector d)) as [s|]; [|discriminate].
    simpl in H.
    destruct (mapM (scoreDoc q) docs) as [rest|]; [|discriminate].
    simpl in H. injection H as <-. simpl. now rewrite (IH rest).
Qed.

Lemma StronglySorted_firstn (A : Type) (R : A -> A -> Prop) l : forall n,
  StronglySorted R l -> StronglySorted R (firstn n l).
Proof.
  induction l as [|x l IH]; intros [|n] H; simpl; try constructor.
  - apply IH. now inversion H.
  - inversion H; subst. apply Forall_forall. intros y Hy.
    apply firstn_incl in Hy.
    match goal with Hf : Forall _ l |- _ => rewrite Forall_forall in Hf; auto end.
Qed.

Lemma StronglySorted_filter (A : Type) (R : A -> A -> Prop) p l :
  StronglySorted R l -> StronglySorted R (filter p l).
Proof.
  induction 1 as [|x l Hl IH Hx]; simpl; [constructor|].
  destruct (p x); auto. constructor; auto.
  apply Forall_forall. intros y Hy. apply filter_In in Hy.
  rewrite Forall_forall in Hx. apply Hx. tauto.
Qed.

Lemma NoDup_map_firstn (A B : Type) (f : A -> B) l : forall n,
  NoDup (map f l) -> NoDup (map f (firstn n l)).
Proof.
  induction l as [|x l IH]; intros [|n] H; simpl; try constructor.
  - inversion H; subst. intros Hin. apply in_map_iff in Hin.
    destruct Hin as [y [Hy Hin]]. apply firstn_incl in Hin.
    match goal with Hn : ~ In _ _ |- _ => apply Hn end.
    rewrite <- Hy. now apply in_map.
  - apply IH. now inversion H.
Qed.

Lemma NoDup_map_filter (A B : Type) (f : A -> B) p l :
  NoDup (map f l) -> NoDup (map f (filter p l)).
Proof.
  induction l as [|x l IH]; simpl; intros H; [constructor|].
  inversion H as [|? ? Hx Hl]; subst.
  destruct (p x); simpl; auto. constructor; auto.
  intros Hin. apply in_map_iff in Hin. destruct Hin as [y [Hy Hin]].
  apply filter_In in Hin. apply Hx. rewrite <- Hy. apply in_map. tauto.
Qed.

Lemma chosen_incl threshold k l : incl (chosen threshold k l) l.
Proof.
  unfold chosen. intros x Hx.
  destruct (firstn k (filter (passes threshold) l)) as [|y kept] eqn:E.
  - now apply firstn_incl in Hx.
  - rewrite <- E in Hx. apply firstn_incl in Hx.
    apply filter_In in Hx. tauto.
Qed.

Lemma chosen_length threshold k l : List.length (chosen threshold k l) <= k.
Proof.
  unfold chosen.
  destruct (firstn k (filter (passes threshold) l)) as [|y kept] eqn:E.
  - rewrite length_firstn. lia.
  - rewrite <- E, length_firstn. lia.
Qed.

Lemma chosen_descending threshold k l :
  descending l -> descending (chosen threshold k l).
Proof.
  unfold chosen, descending. intros H.
  destruct (firstn k (filter (passes threshold) l)) as [|y kept] eqn:E.
  - now apply StronglySorted_firstn.
  - rewrite <- E. now apply StronglySorted_firstn, StronglySorted_filter.
Qed.

Lemma chosen_NoDup threshold k l :
  NoDup (map scoredId l) -> NoDup (map scoredId (chosen threshold k l)).
Proof.
  unfold chosen. intros H.
  destruct (firstn k (filter (passes threshold) l)) as [|y kept] eqn:E.
  - now apply NoDup_map_firstn.
  - rewrite <- E. now apply NoDup_map_firstn, NoDup_map_filter.
Qed.

Lemma keyed_ids m : keyed m -> map entryId (JSMap.values m) = JSMap.keys m.
Proof.
  unfold keyed, JSMap.values, JSMap.keys.
  induction 1 as [|[k v] m Hk _ IH]; simpl; auto.
  simpl in Hk. now rewrite Hk, IH.
Qed.

Lemma scoresOf_ids q docs : map scoredId (scoresOf q docs) = map entryId docs.
Proof. unfold scoresOf. rewrite map_map. reflexivity. Qed.

Lemma candidates_descending e le query k :
  descending (candidates e le query k).
Proof.
  unfold candidates, descending.
  apply StronglySorted_firstn, sortBy_descending.
Qed.

Lemma candidates_NoDup e le query k :
  keyed (RAGEngine.documentVectors e) ->
  NoDup (JSMap.keys (RAGEngine.documentVectors e)) ->
  NoDup (map scoredId (candidates e le query k)).
Proof.
  intros Hk Hn. unfold candidates. apply NoDup_map_firstn.
  eapply Permutation_NoDup.
  - apply Permutation_map, Permutation_sym, sortBy_perm.
  - now rewrite scoresOf_ids, keyed_ids.
Qed.

Lemma descending_scores l :
  descending l -> StronglySorted (fun a b => (b <= a)%R) (map score l).
Proof.
  unfold descending. induction 1 as [|s l _ IH Hs]; simpl; constructor; auto.
  apply Forall_forall. intros x Hx. apply in_map_iff in Hx.
  destruct Hx as [y [<- Hy]]. rewrite Forall_forall in Hs. auto.
Qed.

End RankedFacts.

(** X8. Ranked lists are nested: when [findSimilar] returns for some
    [topK], it returns for every smaller [topK] the corresponding prefix
    of that result; the result has [min(topK, documents.length)] entries,
    whose ids are ids of the documents. *)
Theorem findSimilar_prefixes
  (q : list R) (docs : list VectorEntry) (k k' : nat) (out : list Scored) :
  k <= k' ->
  LocalEmbeddings.findSimilar q docs k' = Ok out ->
  LocalEmbeddings.findSimilar q docs k = Ok (firstn k out)
  /\ List.length out = Nat.min k' (List.length docs)
  /\ incl (map scoredId out) (map entryId docs).
Proof.
  intros Hk. unfold LocalEmbeddings.findSimilar.
  destruct (mapM (LocalEmbeddings.scoreDoc q) docs) as [scores|] eqn:E;
    [|discriminate].
  simpl. intros [= <-]. pose proof (scoring_ids _ _ E) as Hids.
  assert (Hlen : List.length scores = List.length docs).
  { rewrite <- (length_map scoredId scores), Hids. apply length_map. }
  repeat split.
  - rewrite firstn_firstn. now rewrite Nat.min_l by exact Hk.
  - rewrite length_firstn, (Permutation_length (sortBy_perm _)), Hlen.
    reflexivity.
  - rewrite <- Hids. intros i Hi. apply in_map_iff in Hi.
    destruct Hi as [s [<- Hs]]. apply in_map.
    apply firstn_incl in Hs.
    now apply (Permutation_in _ (sortBy_perm _)) in Hs.
Qed.

Lemma findSimilar_prefixes_witness :
  LocalEmbeddings.findSimilar [1%R] Scenario.ranked3 1
  = Ok (firstn 1 (firstn 2 (sortBy LocalEmbeddings.byScore
                              (Spec.scoresOf [1%R] Scenario.ranked3))))
  /\ List.length (firstn 2 (sortBy LocalEmbeddings.byScore
                              (Spec.scoresOf [1%R] Scenario.ranked3)))
     = Nat.min 2 (List.length Scenario.ranked3)
  /\ incl (map scoredId (firstn 2 (sortBy LocalEmbeddings.byScore
                                     (Spec.scoresOf [1%R] Scenario.ranked3))))
          (map entryId Scenario.ranked3).
Proof.
  apply (@findSimilar_prefixes [1%R] Scenario.ranked3 1 2).
  - lia.
  - unfold LocalEmbeddings.findSimilar.
    rewrite scoring_ok by repeat constructor. reflexivity.
Defined.

(** X9. What [retrieve] returns on the vector path, for a [topK] that
    is a count: with a vectorizer and a non-empty, well-formed cache it
    does not throw; it returns at most [topK] results, in descending order
    of score, each carrying the content and metadata of the cache entry of
    its id, and no id twice. *)
Theorem retrieve_results
  (e : RAGEngine.t) (le : LocalEmbeddings.t) (query : JS.str) (k : nat) :
  RAGEngine.embeddings e = Some le ->
  Spec.wellFormed e ->
  NoDup (JSMap.keys (RAGEngine.documentVectors e)) ->
  0 < JSMap.size (RAGEngine.documentVectors e) ->
  exists results,
    RAGEngine.retrieve e query k = Ok results
    /\ List.length results <= k
    /\ StronglySorted (fun a b => (b <= a)%R) (map resultScore results)
    /\ NoDup (map resultId results)
    /\ Forall (fun r => exists doc,
                   JSMap.get (resultId r) (RAGEngine.documentVectors e)
                   = Some doc
                   /\ resultContent r = entryContent doc
                   /\ resultMetadata r = entryMetadata doc)
              results.
Proof.
  intros Hle Hw Hn Hsize.
  destruct (retrieveByVector_spec query k Hw Hle) as [results [Hr Ha]].
  exists results.
  rewrite (retrieve_vector_path e query k Hle Hsize).
  destruct (answers_ids (proj1 Hw) Ha) as [Hids Hscores].
  split; [exact Hr|]. split; [|split; [|split]].
  - rewrite (Forall2_length Ha). apply chosen_length.
  - rewrite Hscores. apply descending_scores, chosen_descending.
    apply candidates_descending.
  - rewrite Hids. apply chosen_NoDup.
    now apply candidates_NoDup; [apply Hw|].
  - clear Hids Hscores Hr.
    induction Ha as [|r s results l [doc [Hg ->]] _ IH]; constructor; auto.
    exists doc. simpl. rewrite (keyed_get _ (proj1 Hw) Hg). auto.
Qed.

Lemma engine1_keys :
  NoDup (JSMap.keys (RAGEngine.documentVectors Scenario.engine1)).
Proof.
  change (NoDup [JS.lit "1"; JS.lit "2"]).
  repeat constructor; simpl; intuition discriminate.
Qed.

Lemma retrieve_results_witness :
  exists results,
    RAGEngine.retrieve Scenario.engine1 (JS.lit "capital of France") 3
    = Ok results
    /\ List.length results <= 3
    /\ StronglySorted (fun a b => (b <= a)%R) (map resultScore results)
    /\ NoDup (map resultId results)
    /\ Forall (fun r => exists doc,
                   JSMap.get (resultId r)
                     (RAGEngine.documentVectors Scenario.engine1) = Some doc
                   /\ resultContent r = entryContent doc
                   /\ resultMetadata r = entryMetadata doc)
              results.
Proof.
  apply (@retrieve_results Scenario.engine1 Scenario.vectorizer1
           (JS.lit "capital of France") 3).
  - reflexivity.
  - exact engine1_wellFormed.
  - exact engine1_keys.
  - lazy. lia.
Defined.

(* ================================================================= *)
(** ** Filling the cache *)

Section IndexFacts.
Import RAGEngine Spec Facts.

Lemma index_get_other le docs : forall m k,
  ~ In k (map id docs) ->
  JSMap.get k (fold_left (indexDocument le) docs m) = JSMap.get k m.
Proof.
  induction docs as [|d docs IH]; intros m k Hk; simpl in *; auto.
  rewrite IH by tauto. unfold indexDocument.
  apply get_set_other. intros ->. tauto.
Qed.

Lemma index_get le docs d : forall m,
  NoDup (map id docs) -> In d docs ->
  JSMap.get (id d) (fold_left (indexDocument le) docs m)
  = Some (Scenario.entryOf le d).
Proof.
  induction docs as [|d0 docs IH]; intros m Hn Hin; simpl in *; [tauto|].
  inversion Hn as [|? ? Hd0 Hn']; subst. destruct Hin as [->|Hin].
  - rewrite index_get_other by exact Hd0.
    unfold indexDocument. apply get_set_same.
  - now apply IH.
Qed.

Lemma index_keys le docs : forall m,
  JSMap.keys (fold_left (indexDocument le) docs m)
  = fold_left addKey (map id docs) (JSMap.keys m).
Proof.
  induction docs as [|d docs IH]; intros m; simpl; auto.
  rewrite IH. unfold indexDocument. now rewrite keys_set.
Qed.

Lemma addKeys_in ids : forall ks k,
  In k (fold_left addKey ids ks) <-> In k ks \/ In k ids.
Proof.
  induction ids as [|i ids IH]; intros ks k; simpl; [tauto|].
  rewrite IH. unfold addKey.
  destruct (existsb (JSMap.keyEqb i) ks) eqn:E.
  - apply existsb_keyEqb in E. split; [tauto|].
    intros [H|[<-|H]]; auto.
  - rewrite in_app_iff. simpl. tauto.
Qed.

Lemma addKeys_NoDup ids : forall ks,
  NoDup ks -> NoDup (fold_left addKey ids ks).
Proof.
  induction ids as [|i ids IH]; intros ks H; simpl; auto.
  apply IH. unfold addKey.
  destruct (existsb (JSMap.keyEqb i) ks) eqn:E; auto.
  apply existsb_keyEqb_false in E. apply NoDup_app; auto.
  - repeat constructor. simpl. tauto.
  - intros x Hx [<-|[]]. tauto.
Qed.

Lemma addKeys_fresh ids : forall ks,
  NoDup ids -> (forall i, In i ids -> ~ In i ks) ->
  fold_left addKey ids ks = ks ++ ids.
Proof.
  induction ids as [|i ids IH]; intros ks Hn Hf; simpl.
  - now rewrite app_nil_r.
  - inversion Hn as [|? ? Hi Hn']; subst. unfold addKey at 2.
    assert (E : existsb (JSMap.keyEqb i) ks = false)
      by (apply existsb_keyEqb_false, Hf; now left).
    rewrite E, IH; auto.
    + now rewrite <- app_assoc.
    + intros j Hj Hin. apply in_app_or in Hin.
      destruct Hin as [Hin|[<-|[]]]; [|tauto].
      apply (Hf j); [now right | exact Hin].
Qed.

Lemma stats_count e ds n :
  dataSource e = Some ds ->
  JSMap.size (documentVectors e) = n ->
  DataSource.getDocumentCount ds = n ->
  documentCount (getStats e) = DataSource.getDocumentCount ds.
Proof.
  intros Hds Hs Hc. unfold getStats. simpl. rewrite Hds, Hs, Hc.
  destruct n; reflexivity.
Qed.

End IndexFacts.

(** X10. The outcomes of [initialize], whatever the data source and the
    LLM do in their own [initialize]: it throws 'Data source is required'
    when no data source is configured (whatever the LLM), and 'LLM is
    required' when a data source but no LLM is configured, before either
    is called; the data source is initialized only if it is not yet, and
    what it throws leaves [initialize] without the LLM being called; what
    the LLM throws leaves it as well; when both return, [initialize]
    returns with [initialized] set, [topK] and the threshold unchanged, the
    two collaborators as they returned and, without a vectorizer, the cache
    untouched.  The engine itself throws nothing else, and with
    collaborators that always return this is the [initialize] above. *)
Theorem initialize_outcomes
  (X : Type) (sourceInitialize : DataSource.t -> DataSource.t + X)
  (llmInitialize : LLM.t -> LLM.t + X) (e : RAGEngine.t) :
  match RAGEngine.dataSource e, RAGEngine.llm e with
  | None, _ =>
      Startup.initialize sourceInitialize llmInitialize e
      = Startup.Refused DataSourceRequired
  | Some _, None =>
      Startup.initialize sourceInitialize llmInitialize e
      = Startup.Refused LLMRequired
  | Some ds, Some l =>
      match (if DataSource.initialized ds then inl ds
             else sourceInitialize ds) with
      | inr x =>
          Startup.initialize sourceInitialize llmInitialize e
          = Startup.Failed x
      | inl ds' =>
          match llmInitialize l with
          | inr x =>
              Startup.initialize sourceInitialize llmInitialize e
              = Startup.Failed x
          | inl l' =>
              exists e',
                Startup.initialize sourceInitialize llmInitialize e
                = Startup.Ready e'
                /\ RAGEngine.initialized e' = true
                /\ RAGEngine.topK e' = RAGEngine.topK e
                /\ RAGEngine.similarityThreshold e'
                   = RAGEngine.similarityThreshold e
                /\ RAGEngine.dataSource e' = Some ds'
                /\ RAGEngine.llm e' = Some l'
                /\ (RAGEngine.embeddings e = None ->
                    RAGEngine.documentVectors e'
                    = RAGEngine.documentVectors e)
          end
      end
  end
  /\ (forall err,
        Startup.initialize sourceInitialize llmInitialize e
        = Startup.Refused err ->
        err = DataSourceRequired \/ err = LLMRequired)
  /\ Startup.initialize (X := X)
       (fun ds => inl (DataSource.initialize ds))
       (fun l => inl (LLM.initialize l)) e
     = match RAGEngine.initialize e with
       | Ok e' => Startup.Ready e'
       | Throw err => Startup.Refused err
       end.
Proof.
  split; [|split].
  - unfold Startup.initialize.
    destruct (RAGEngine.dataSource e) as [ds|]; [|reflexivity].
    destruct (RAGEngine.llm e) as [l|]; [|reflexivity].
    destruct (if DataSource.initialized ds then inl ds
              else sourceInitialize ds) as [ds'|x]; [|reflexivity].
    destruct (llmInitialize l) as [l'|x]; [|reflexivity].
    destruct (RAGEngine.embeddings e) as [le|];
      (eexists; split; [reflexivity|]); simpl; repeat split; auto.
    discriminate.
  - intros err. unfold Startup.initialize.
    destruct (RAGEngine.dataSource e) as [ds|]; [|intros [= <-]; auto].
    destruct (RAGEngine.llm e) as [l|]; [|intros [= <-]; auto].
    destruct (if DataSource.initialized ds then inl ds
              else sourceInitialize ds) as [ds'|x]; [|discriminate].
    destruct (llmInitialize l) as [l'|x]; [|discriminate].
    destruct (RAGEngine.embeddings e) as [le|]; discriminate.
  - unfold Startup.initialize, RAGEngine.initialize.
    destruct (RAGEngine.dataSource e) as [ds|]; [|reflexivity].
    destruct (RAGEngine.llm e) as [l|]; [|reflexivity].
    destruct (DataSource.initialized ds);
      destruct (RAGEngine.embeddings e) as [le|]; reflexivity.
Qed.

(** X11. [initialize] on a new engine with a vectorizer: when the ids of
    the loaded documents are pairwise distinct, the cache holds exactly
    these ids, in source order, each with the vector of its content under
    the vocabulary built over all contents, and
    [getStats().documentCount] is the document count of the source. *)
Theorem initialize_indexes_source
  (c : RAGEngine.config) (ds : DataSource.t) (l : LLM.t)
  (le : LocalEmbeddings.t) :
  RAGEngine.configDataSource c = Some ds ->
  RAGEngine.configLlm c = Some l ->
  RAGEngine.configEmbeddings c = Some le ->
  NoDup (map id (DataSource.documents
                   (if DataSource.initialized ds then ds
                    else DataSource.initialize ds))) ->
  exists e',
    RAGEngine.initialize (RAGEngine.create c) = Ok e'
    /\ RAGEngine.initialized e' = true
    /\ RAGEngine.dataSource e'
       = Some (if DataSource.initialized ds then ds
               else DataSource.initialize ds)
    /\ RAGEngine.embeddings e'
       = Some (LocalEmbeddings.initialize le
                 (map content
                    (DataSource.documents
                       (if DataSource.initialized ds then ds
                        else DataSource.initialize ds))))
    /\ JSMap.keys (RAGEngine.documentVectors e')
       = map id (DataSource.documents
                   (if DataSource.initialized ds then ds
                    else DataSource.initialize ds))
    /\ (forall d,
          In d (DataSource.documents
                  (if DataSource.initialized ds then ds
                   else DataSource.initialize ds)) ->
          JSMap.get (id d) (RAGEngine.documentVectors e')
          = Some (Scenario.entryOf
                    (LocalEmbeddings.initialize le
                       (map content
                          (DataSource.documents
                             (if DataSource.initialized ds then ds
                              else DataSource.initialize ds))))
                    d))
    /\ RAGEngine.documentCount (RAGEngine.getStats e')
       = DataSource.getDocumentCount
           (if DataSource.initialized ds then ds
            else DataSource.initialize ds).
Proof.
  intros Hds Hl Hle Hn.
  set (ds' := if DataSource.initialized ds then ds
              else DataSource.initialize ds) in *.
  unfold RAGEngine.initialize, RAGEngine.create. simpl.
  rewrite Hds, Hl, Hle. fold ds'. unfold RAGEngine.buildVectorIndex. simpl.
  eexists. split; [reflexivity|]. simpl.
  assert (Hkeys : JSMap.keys
                    (fold_left
                       (RAGEngine.indexDocument
                          (LocalEmbeddings.initialize le
                             (map content (DataSource.getDocuments ds'))))
                       (DataSource.getDocuments ds') JSMap.empty)
                  = map id (DataSource.documents ds')).
  { rewrite index_keys. unfold DataSource.getDocuments.
    rewrite addKeys_fresh; auto. }
  assert (Hsize : JSMap.size
                    (fold_left
                       (RAGEngine.indexDocument
                          (LocalEmbeddings.initialize le
                             (map content (DataSource.getDocuments ds'))))
                       (DataSource.getDocuments ds') JSMap.empty)
                  = DataSource.getDocumentCount ds').
  { unfold JSMap.size. rewrite <- (length_map fst).
    change (map fst ?m) with (JSMap.keys m). rewrite Hkeys.
    unfold DataSource.getDocumentCount. apply length_map. }
  repeat split; auto.
  - intros d Hd. now apply index_get.
  - rewrite Hsize. destruct (DataSource.getDocumentCount ds'); reflexivity.
Qed.

Lemma initialize_indexes_source_witness :
  exists e',
    RAGEngine.initialize (Scenario.engine [Scenario.doc1; Scenario.doc2])
    = Ok e'
    /\ RAGEngine.initialized e' = true
    /\ RAGEngine.dataSource e'
       = Some (DataSource.initialize
                 (Scenario.source [Scenario.doc1; Scenario.doc2]))
    /\ RAGEngine.embeddings e' = Some Scenario.vectorizer1
    /\ JSMap.keys (RAGEngine.documentVectors e') = [JS.lit "1"; JS.lit "2"]
    /\ (forall d,
          In d [Scenario.doc1; Scenario.doc2] ->
          JSMap.get (id d) (RAGEngine.documentVectors e')
          = Some (Scenario.entryOf Scenario.vectorizer1 d))
    /\ RAGEngine.documentCount (RAGEngine.getStats e') = 2.
Proof.
  apply (@initialize_indexes_source
           {| RAGEngine.configDataSource :=
                Some (Scenario.source [Scenario.doc1; Scenario.doc2]);
              RAGEngine.configLlm := Some Scenario.llm0;
              RAGEngine.configEmbeddings := Some Scenario.vectorizer0;
              RAGEngine.configTopK := None;
              RAGEngine.configSimilarityThreshold := None |}
           (Scenario.source [Scenario.doc1; Scenario.doc2])
           Scenario.llm0 Scenario.vectorizer0).
  - reflexivity.
  - reflexivity.
  - reflexivity.
  - change (NoDup [JS.lit "1"; JS.lit "2"]).
    repeat constructor; simpl; intuition discriminate.
Defined.

(** X12. [refresh] with a vectorizer: every document of the reloaded
    source is cached under its id with the vector of its content under the
    rebuilt vocabulary (ids pairwise distinct); the keys of the cache
    afterwards are the keys it had and the ids of the source; and when every
    key it had is still an id of the source, the cache holds exactly the
    ids of the source and [getStats().documentCount] is the document count
    of the source. *)
Theorem refresh_reindexes
  (e : RAGEngine.t) (ds : DataSource.t) (le : LocalEmbeddings.t) :
  RAGEngine.dataSource e = Some ds ->
  RAGEngine.embeddings e = Some le ->
  NoDup (map id (DataSource.store ds)) ->
  NoDup (JSMap.keys (RAGEngine.documentVectors e)) ->
  exists e',
    RAGEngine.refresh e = Ok e'
    /\ RAGEngine.dataSource e' = Some (DataSource.loadDocuments ds)
    /\ RAGEngine.embeddings e'
       = Some (LocalEmbeddings.buildVocabulary le
                 (map content (DataSource.store ds)))
    /\ (forall d,
          In d (DataSource.store ds) ->
          JSMap.get (id d) (RAGEngine.documentVectors e')
          = Some (Scenario.entryOf
                    (LocalEmbeddings.buildVocabulary le
                       (map content (DataSource.store ds)))
                    d))
    /\ (forall k,
          In k (JSMap.keys (RAGEngine.documentVectors e'))
          <-> In k (JSMap.keys (RAGEngine.documentVectors e))
              \/ In k (map id (DataSource.store ds)))
    /\ NoDup (JSMap.keys (RAGEngine.documentVectors e'))
    /\ (incl (JSMap.keys (RAGEngine.documentVectors e))
             (map id (DataSource.store ds)) ->
        Permutation (JSMap.keys (RAGEngine.documentVectors e'))
                    (map id (DataSource.store ds))
        /\ RAGEngine.documentCount (RAGEngine.getStats e')
           = DataSource.getDocumentCount (DataSource.loadDocuments ds)).
Proof.
  intros Hds Hle Hn Hk.
  unfold RAGEngine.refresh, RAGEngine.buildVectorIndex.
  rewrite Hds, Hle. simpl.
  eexists. split; [reflexivity|]. simpl.
  set (le' := LocalEmbeddings.buildVocabulary le
                (map content (DataSource.store ds))).
  set (cache' := fold_left (RAGEngine.indexDocument le')
                   (DataSource.store ds) (RAGEngine.documentVectors e)).
  assert (Hkeys : forall k,
             In k (JSMap.keys cache')
             <-> In k (JSMap.keys (RAGEngine.documentVectors e))
                 \/ In k (map id (DataSource.store ds))).
  { intros k. unfold cache'. rewrite index_keys. apply addKeys_in. }
  assert (Hnd : NoDup (JSMap.keys cache')).
  { unfold cache'. rewrite index_keys. now apply addKeys_NoDup. }
  split; [reflexivity|]. split; [reflexivity|].
  split; [intros d Hd; now apply index_get|].
  split; [exact Hkeys|]. split; [exact Hnd|].
  intros Hincl.
  assert (Hp : Permutation (JSMap.keys cache') (map id (DataSource.store ds))).
  { apply NoDup_Permutation; auto. intros k. rewrite Hkeys.
    split; [intros [H|H]; auto | auto]. }
  split; [exact Hp|].
  assert (Hsize : JSMap.size cache'
                  = DataSource.getDocumentCount (DataSource.loadDocuments ds)).
  { unfold JSMap.size. rewrite <- (length_map fst).
    change (map fst cache') with (JSMap.keys cache').
    rewrite (Permutation_length Hp).
    unfold DataSource.getDocumentCount. simpl. apply length_map. }
  rewrite Hsize.
  destruct (DataSource.getDocumentCount (DataSource.loadDocuments ds));
    reflexivity.
Qed.

Lemma refresh_reindexes_witness :
  exists e',
    RAGEngine.refresh
      (Scenario.storeBecomes (Scenario.engine [Scenario.doc1])
         [Scenario.doc1; Scenario.doc2])
    = Ok e'
    /\ RAGEngine.dataSource e'
       = Some (DataSource.loadDocuments
                 (DataSource.storeBecomes (Scenario.source [Scenario.doc1])
                    [Scenario.doc1; Scenario.doc2]))
    /\ RAGEngine.embeddings e'
       = Some (LocalEmbeddings.buildVocabulary Scenario.vectorizer0
                 [content Scenario.doc1; content Scenario.doc2])
    /\ (forall d,
          In d [Scenario.doc1; Scenario.doc2] ->
          JSMap.get (id d) (RAGEngine.documentVectors e')
          = Some (Scenario.entryOf
                    (LocalEmbeddings.buildVocabulary Scenario.vectorizer0
                       [content Scenario.doc1; content Scenario.doc2])
                    d))
    /\ (forall k,
          In k (JSMap.keys (RAGEngine.documentVectors e'))
          <-> In k [] \/ In k [JS.lit "1"; JS.lit "2"])
    /\ NoDup (JSMap.keys (RAGEngine.documentVectors e'))
    /\ (incl [] [JS.lit "1"; JS.lit "2"] ->
        Permutation (JSMap.keys (RAGEngine.documentVectors e'))
                    [JS.lit "1"; JS.lit "2"]
        /\ RAGEngine.documentCount (RAGEngine.getStats e') = 2).
Proof.
  apply (@refresh_reindexes
           (Scenario.storeBecomes (Scenario.engine [Scenario.doc1])
              [Scenario.doc1; Scenario.doc2])
           (DataSource.storeBecomes (Scenario.source [Scenario.doc1])
              [Scenario.doc1; Scenario.doc2])
           Scenario.vectorizer0).
  - reflexivity.
  - reflexivity.
  - change (NoDup [JS.lit "1"; JS.lit "2"]).
    repeat constructor; simpl; intuition discriminate.
  - constructor.
Defined.

(** X13. [addDocument] with a vectorizer: it returns the id chosen by the
    source (the id of the document, or [doc_N] with [N] the number of
    documents held), stores the document last in the source, caches under
    that id the content with its vector under the current vocabulary,
    leaves every other cache entry and the vectorizer as they are, and adds
    a key to the cache only when the id was not cached before. *)
Theorem addDocument_indexes
  (e : RAGEngine.t) (ds : DataSource.t) (le : LocalEmbeddings.t)
  (doc : NewDocument) :
  RAGEngine.dataSource e = Some ds ->
  RAGEngine.embeddings e = Some le ->
  exists e' ds',
    RAGEngine.addDocument e doc = Ok (e', DataSource.freshId ds doc)
    /\ RAGEngine.embeddings e' = Some le
    /\ RAGEngine.dataSource e' = Some ds'
    /\ DataSource.getDocumentCount ds' = S (DataSource.getDocumentCount ds)
    /\ map id (DataSource.documents ds')
       = map id (DataSource.documents ds) ++ [DataSource.freshId ds doc]
    /\ (exists en,
          JSMap.get (DataSource.freshId ds doc) (RAGEngine.documentVectors e')
          = Some en
          /\ entryId en = DataSource.freshId ds doc
          /\ entryContent en = newContent doc
          /\ vector en = LocalEmbeddings.embed le (newContent doc))
    /\ (forall k, k <> DataSource.freshId ds doc ->
                  JSMap.get k (RAGEngine.documentVectors e')
                  = JSMap.get k (RAGEngine.documentVectors e))
    /\ JSMap.keys (RAGEngine.documentVectors e')
       = Facts.addKey (JSMap.keys (RAGEngine.documentVectors e))
                      (DataSource.freshId ds doc).
Proof.
  intros Hds Hle. unfold RAGEngine.addDocument. rewrite Hds, Hle.
  unfold DataSource.addDocument. simpl.
  eexists. eexists. split; [reflexivity|]. simpl.
  split; [reflexivity|]. split; [reflexivity|].
  split.
  { unfold DataSource.getDocumentCount. simpl.
    rewrite length_app. simpl. lia. }
  split; [simpl; rewrite map_app; reflexivity|].
  split.
  { eexists. split; [apply get_set_same|]. simpl. auto. }
  split.
  { intros k Hk. now apply get_set_other. }
  apply keys_set.
Qed.

Lemma addDocument_indexes_witness :
  exists e' ds',
    RAGEngine.addDocument Scenario.engine1
      {| newId := None; newContent := JS.lit "Berlin is the capital of Germany";
         newMetadata := None |}
    = Ok (e', JS.lit "doc_2")
    /\ RAGEngine.embeddings e' = Some Scenario.vectorizer1
    /\ RAGEngine.dataSource e' = Some ds'
    /\ DataSource.getDocumentCount ds' = 3
    /\ map id (DataSource.documents ds')
       = [JS.lit "1"; JS.lit "2"] ++ [JS.lit "doc_2"]
    /\ (exists en,
          JSMap.get (JS.lit "doc_2") (RAGEngine.documentVectors e') = Some en
          /\ entryId en = JS.lit "doc_2"
          /\ entryContent en = JS.lit "Berlin is the capital of Germany"
          /\ vector en
             = LocalEmbeddings.embed Scenario.vectorizer1
                 (JS.lit "Berlin is the capital of Germany"))
    /\ (forall k, k <> JS.lit "doc_2" ->
                  JSMap.get k (RAGEngine.documentVectors e')
                  = JSMap.get k (RAGEngine.documentVectors Scenario.engine1))
    /\ JSMap.keys (RAGEngine.documentVectors e')
       = Facts.addKey [JS.lit "1"; JS.lit "2"] (JS.lit "doc_2").
Proof.
  apply (@addDocument_indexes Scenario.engine1
           (DataSource.initialize
              (Scenario.source [Scenario.doc1; Scenario.doc2]))
           Scenario.vectorizer1).
  - reflexivity.
  - reflexivity.
Defined.

(* ================================================================= *)
(** ** Configuration, close and the query pipeline *)

Section PipelineFacts.
Import RAGEngine Pipeline.

Lemma orNat_positive o n : 1 <= n -> 1 <= LocalEmbeddings.orNat o n.
Proof. destruct o as [[|k]|]; simpl; lia. Qed.

Lemma buildVectorIndex_topK e e' :
  buildVectorIndex e = Ok e' -> topK e' = topK e.
Proof.
  unfold buildVectorIndex.
  destruct (dataSource e); [|discriminate].
  destruct (embeddings e); [|discriminate].
  now intros [= <-].
Qed.

Lemma preview_length c : List.length (preview c) <= 203.
Proof.
  unfold preview. rewrite length_app, length_firstn.
  destruct (Nat.ltb 200 (List.length c)) eqn:E.
  - change (List.length (JS.lit "...")) with 3. lia.
  - change (List.length (@nil ascii)) with 0. lia.
Qed.

Lemma preview_short c : List.length c <= 200 -> preview c = c.
Proof.
  intros H. unfold preview.
  assert (E : Nat.ltb 200 (List.length c) = false) by now apply Nat.ltb_ge.
  rewrite E, app_nil_r. now apply firstn_all2.
Qed.

(** The loops of [retrieveByVector] read the engine through its cache
    and its threshold only. *)
Lemma pushResult_ext e e' acc s :
  documentVectors e' = documentVectors e ->
  pushResult e' acc s = pushResult e acc s.
Proof. unfold pushResult. now intros ->. Qed.

Lemma filterLoop_ext e e' k sims :
  documentVectors e' = documentVectors e ->
  similarityThreshold e' = similarityThreshold e ->
  forall acc, filterLoop e' k sims acc = filterLoop e k sims acc.
Proof.
  intros Hc Ht. induction sims as [|s sims IH]; intros acc; simpl; auto.
  rewrite Ht, (pushResult_ext e e' acc s Hc).
  destruct (Rle_dec _ _); auto.
  destruct (Nat.ltb _ _); auto.
  destruct (pushResult e acc s); simpl; auto.
Qed.

Lemma pushAll_ext e e' sims :
  documentVectors e' = documentVectors e ->
  forall acc, pushAll e' sims acc = pushAll e sims acc.
Proof.
  intros Hc. induction sims as [|s sims IH]; intros acc; simpl; auto.
  rewrite (pushResult_ext e e' acc s Hc).
  destruct (pushResult e acc s); simpl; auto.
Qed.

Lemma retrieveByVector_ext e e' le q k :
  documentVectors e' = documentVectors e ->
  similarityThreshold e' = similarityThreshold e ->
  retrieveByVector e' le q k = retrieveByVector e le q k.
Proof.
  intros Hc Ht. unfold retrieveByVector. rewrite Hc.
  destruct (LocalEmbeddings.findSimilar _ _ _) as [sims|]; simpl; auto.
  rewrite (filterLoop_ext e e' k sims Hc Ht).
  destruct (filterLoop e k sims []) as [[|r rs]|]; simpl; auto.
  destruct sims; auto. now apply pushAll_ext.
Qed.

Lemma retrieve_close e q k : retrieve (close e) q k = retrieve e q k.
Proof.
  unfold retrieve.
  change (embeddings (close e)) with (embeddings e).
  change (documentVectors (close e)) with (documentVectors e).
  change (dataSource (close e))
    with (option_map DataSource.close (dataSource e)).
  destruct (embeddings e) as [le|], (dataSource e) as [ds|]; simpl; auto.
  - destruct (Nat.ltb 0 (JSMap.size (documentVectors e))); auto.
    now apply retrieveByVector_ext.
  - destruct (Nat.ltb 0 (JSMap.size (documentVectors e))); auto.
    now apply retrieveByVector_ext.
Qed.

End PipelineFacts.

(** X14. [topK] is never 0, and nothing more: for every number given as
    [config.topK], negative and fractional ones included, the constructor
    stores a [topK] other than 0 (the number itself unless it is 0 or
    missing, then 5), and [updateConfig] keeps a [topK] other than 0 that
    way (it stores the number unless it is 0 or missing); a negative or a
    fractional number is stored as it is.  On counts these are the
    constructor and the [updateConfig] of the engine above, whose
    [initialize], [refresh], [addDocument] and [close] leave [topK] as it
    is; the threshold of a new engine is not 0 either. *)
Theorem topK_never_zero :
  (forall configTopK, TopK.create configTopK <> 0%R)
  /\ (forall topK configTopK,
        topK <> 0%R -> TopK.updateConfig topK configTopK <> 0%R)
  /\ (forall x, x <> 0%R ->
                TopK.create (Some x) = x
                /\ forall topK, TopK.updateConfig topK (Some x) = x)
  /\ (TopK.create (Some (-1)%R) = (-1)%R
      /\ TopK.updateConfig 5%R (Some (1 / 2)%R) = (1 / 2)%R)
  /\ (forall c,
        INR (RAGEngine.topK (RAGEngine.create c))
        = TopK.create (option_map INR (RAGEngine.configTopK c)))
  /\ (forall e c,
        INR (RAGEngine.topK (RAGEngine.updateConfig e c))
        = TopK.updateConfig (INR (RAGEngine.topK e))
            (option_map INR (RAGEngine.updateTopK c)))
  /\ (forall e e', RAGEngine.initialize e = Ok e' ->
                   RAGEngine.topK e' = RAGEngine.topK e)
  /\ (forall e e', RAGEngine.refresh e = Ok e' ->
                   RAGEngine.topK e' = RAGEngine.topK e)
  /\ (forall e e' doc i, RAGEngine.addDocument e doc = Ok (e', i) ->
                         RAGEngine.topK e' = RAGEngine.topK e)
  /\ (forall e, RAGEngine.topK (RAGEngine.close e) = RAGEngine.topK e)
  /\ (forall c, RAGEngine.similarityThreshold (RAGEngine.create c) <> 0%R).
Proof.
  assert (Hor : forall o b, b <> 0%R -> LocalEmbeddings.orNum o b <> 0%R).
  { intros [x|] b Hb; simpl; [|exact Hb].
    destruct (Req_dec_T x 0); assumption. }
  assert (Hs : forall k, INR (S k) <> 0%R).
  { intros k. apply not_0_INR. discriminate. }
  split; [|split; [|split; [|split; [|split; [|split; [|split; [|split;
    [|split; [|split]]]]]]]]].
  - intros o. apply Hor. lra.
  - intros t [x|] Ht; simpl; [|exact Ht].
    destruct (Req_dec_T x 0); assumption.
  - intros x Hx. unfold TopK.create, TopK.updateConfig. simpl.
    destruct (Req_dec_T x 0); [contradiction|]. split; reflexivity.
  - unfold TopK.create, TopK.updateConfig. simpl.
    destruct (Req_dec_T (-1) 0); [lra|].
    destruct (Req_dec_T (1 / 2) 0); [lra|]. split; reflexivity.
  - intros c. unfold RAGEngine.create, TopK.create.
    cbn [RAGEngine.topK].
    assert (H5 : INR 5 = 5%R) by (simpl; lra).
    destruct (RAGEngine.configTopK c) as [[|k]|];
      cbn [option_map LocalEmbeddings.orNat LocalEmbeddings.orNum].
    + change (INR 0) with 0%R.
      destruct (Req_dec_T 0 0); [exact H5 | lra].
    + destruct (Req_dec_T (INR (S k)) 0); [|reflexivity].
      exfalso. now apply (Hs k).
    + exact H5.
  - intros e c. unfold RAGEngine.updateConfig, TopK.updateConfig.
    assert (Hth : forall e1,
               RAGEngine.topK
                 match RAGEngine.updateSimilarityThreshold c with
                 | Some x => RAGEngine.withSimilarityThreshold e1 x
                 | None => e1
                 end = RAGEngine.topK e1).
    { intros e1. destruct (RAGEngine.updateSimilarityThreshold c); reflexivity. }
    rewrite Hth.
    destruct (RAGEngine.updateTopK c) as [[|k]|]; cbn [option_map].
    + change (INR 0) with 0%R.
      destruct (Req_dec_T 0 0); [reflexivity | lra].
    + destruct (Req_dec_T (INR (S k)) 0); [exfalso; now apply (Hs k)|].
      reflexivity.
    + reflexivity.
  - intros e e'. unfold RAGEngine.initialize.
    destruct (RAGEngine.dataSource e); [|discriminate].
    destruct (RAGEngine.llm e); [|discriminate].
    destruct (RAGEngine.embeddings e).
    + match goal with
      | |- context [RAGEngine.buildVectorIndex ?x] =>
          destruct (RAGEngine.buildVectorIndex x) as [e1|] eqn:Hb;
            [|discriminate]
      end.
      simpl. intros [= <-]. simpl. now rewrite (buildVectorIndex_topK _ Hb).
    + simpl. now intros [= <-].
  - intros e e'. unfold RAGEngine.refresh.
    destruct (RAGEngine.dataSource e); [|discriminate].
    destruct (RAGEngine.embeddings e).
    + intros Hb. now rewrite (buildVectorIndex_topK _ Hb).
    + now intros [= <-].
  - intros e e' doc i. unfold RAGEngine.addDocument.
    destruct (RAGEngine.dataSource e) as [ds|]; [|discriminate].
    destruct (DataSource.addDocument ds doc) as [ds' i'].
    destruct (RAGEngine.embeddings e); now intros [= <- <-].
  - reflexivity.
  - intros c. unfold RAGEngine.create. simpl. apply Hor. lra.
Qed.

(** X15. [close] clears nothing: it leaves the cache, the vectorizer and
    the loaded documents as they are, so that [retrieve] returns after
    [close] what it returned before; [query] and [queryStream] throw
    'RAG engine not initialized' after [close], before any retrieval or
    generation. *)
Theorem close_keeps_cache
  (generate : JS.str -> list RetrievalResult -> Pipeline.options -> JS.str)
  (generateStream :
     JS.str -> list RetrievalResult -> Pipeline.options -> list JS.str)
  (e : RAGEngine.t) (q : JS.str) (k : nat) (o : Pipeline.options) :
  RAGEngine.documentVectors (RAGEngine.close e) = RAGEngine.documentVectors e
  /\ RAGEngine.embeddings (RAGEngine.close e) = RAGEngine.embeddings e
  /\ option_map DataSource.documents (RAGEngine.dataSource (RAGEngine.close e))
     = option_map DataSource.documents (RAGEngine.dataSource e)
  /\ RAGEngine.retrieve (RAGEngine.close e) q k = RAGEngine.retrieve e q k
  /\ RAGEngine.documentCount (RAGEngine.getStats (RAGEngine.close e))
     = RAGEngine.documentCount (RAGEngine.getStats e)
  /\ Pipeline.query generate (RAGEngine.close e) q o = Throw NotInitialized
  /\ Pipeline.queryStream generateStream (RAGEngine.close e) q o
     = {| Pipeline.events := []; Pipeline.failure := Some NotInitialized |}.
Proof.
  split; [reflexivity|]. split; [reflexivity|].
  split.
  { change (RAGEngine.dataSource (RAGEngine.close e))
      with (option_map DataSource.close (RAGEngine.dataSource e)).
    destruct (RAGEngine.dataSource e); reflexivity. }
  split; [apply retrieve_close|].
  split; [|split; reflexivity].
  unfold RAGEngine.getStats, RAGEngine.close. simpl.
  destruct (JSMap.size (RAGEngine.documentVectors e)); [|reflexivity].
  destruct (RAGEngine.dataSource e); reflexivity.
Qed.

(** X16. [query] and [queryStream] on an initialized engine with a
    vectorizer and a non-empty, well-formed cache: both run the same
    retrieval, with [options.topK] or, when it is missing or 0, the [topK]
    of the engine; the retrieved documents are not empty when that [topK] is
    at least 1; [query] returns the answer generated from them with one
    source per document (same id and score, the content cut to 200 code
    units plus '...'), and [queryStream] yields these sources first, then
    one content event per generated chunk in order, then 'done'. *)
Theorem query_pipeline
  (generate : JS.str -> list RetrievalResult -> Pipeline.options -> JS.str)
  (generateStream :
     JS.str -> list RetrievalResult -> Pipeline.options -> list JS.str)
  (e : RAGEngine.t) (le : LocalEmbeddings.t) (q : JS.str)
  (o : Pipeline.options) :
  RAGEngine.initialized e = true ->
  RAGEngine.llm e <> None ->
  RAGEngine.embeddings e = Some le ->
  Spec.wellFormed e ->
  0 < JSMap.size (RAGEngine.documentVectors e) ->
  1 <= RAGEngine.topK e ->
  exists docs,
    RAGEngine.retrieve e q
      (LocalEmbeddings.orNat (Pipeline.optTopK o) (RAGEngine.topK e))
    = Ok docs
    /\ docs <> []
    /\ Pipeline.query generate e q o
       = Ok {| Pipeline.answer :=
                 generate q docs (Pipeline.generationOptions o);
               Pipeline.sources := map Pipeline.sourceOf docs;
               Pipeline.responseQuery := q |}
    /\ Pipeline.queryStream generateStream e q o
       = {| Pipeline.events :=
              Pipeline.SourcesEvent (map Pipeline.sourceOf docs)
              :: map Pipeline.ContentEvent (generateStream q docs o)
              ++ [Pipeline.DoneEvent];
            Pipeline.failure := None |}
    /\ map Pipeline.sourceId (map Pipeline.sourceOf docs) = map resultId docs
    /\ map Pipeline.sourceScore (map Pipeline.sourceOf docs)
       = map resultScore docs
    /\ Forall (fun d =>
                 List.length (Pipeline.sourceContent (Pipeline.sourceOf d))
                 <= 203
                 /\ (List.length (resultContent d) <= 200 ->
                     Pipeline.sourceContent (Pipeline.sourceOf d)
                     = resultContent d))
              docs.
Proof.
  intros Hinit Hllm Hle Hw Hsize Htop.
  set (k := LocalEmbeddings.orNat (Pipeline.optTopK o) (RAGEngine.topK e)).
  assert (Hk : 1 <= k) by now apply orNat_positive.
  destruct (retrieveByVector_spec q k Hw Hle) as [docs [Hr Ha]].
  rewrite <- (retrieve_vector_path e q k Hle Hsize) in Hr.
  exists docs. split; [exact Hr|]. split; [|split; [|split; [|split; [|split]]]].
  - intros ->. apply Forall2_length in Ha.
    destruct (Spec.chosen _ _ _) eqn:E; [|discriminate].
    revert E. apply chosen_nonempty; auto.
    intros Hc. pose proof (candidates_length e le q k) as Hl.
    rewrite Hc in Hl. simpl in Hl. lia.
  - unfold Pipeline.query. rewrite Hinit. simpl. fold k. rewrite Hr. simpl.
    destruct (RAGEngine.llm e); [reflexivity | contradiction].
  - unfold Pipeline.queryStream. rewrite Hinit. simpl. fold k. rewrite Hr.
    destruct (RAGEngine.llm e); [reflexivity | contradiction].
  - rewrite map_map. reflexivity.
  - rewrite map_map. reflexivity.
  - apply Forall_forall. intros d _. simpl. split.
    + apply preview_length.
    + apply preview_short.
Qed.

Lemma query_pipeline_witness :
  exists docs,
    RAGEngine.retrieve Scenario.engine1 (JS.lit "capital of France")
      (LocalEmbeddings.orNat (Some 0) (RAGEngine.topK Scenario.engine1))
    = Ok docs
    /\ docs <> []
    /\ Pipeline.query (fun _ _ _ => JS.lit "answer") Scenario.engine1
         (JS.lit "capital of France")
         {| Pipeline.optTopK := Some 0; Pipeline.optSystemPrompt := None;
            Pipeline.optTemperature := None; Pipeline.optHistory := None |}
       = Ok {| Pipeline.answer := JS.lit "answer";
               Pipeline.sources := map Pipeline.sourceOf docs;
               Pipeline.responseQuery := JS.lit "capital of France" |}
    /\ Pipeline.queryStream (fun _ _ _ => [JS.lit "an"; JS.lit "swer"])
         Scenario.engine1 (JS.lit "capital of France")
         {| Pipeline.optTopK := Some 0; Pipeline.optSystemPrompt := None;
            Pipeline.optTemperature := None; Pipeline.optHistory := None |}
       = {| Pipeline.events :=
              Pipeline.SourcesEvent (map Pipeline.sourceOf docs)
              :: map Pipeline.ContentEvent [JS.lit "an"; JS.lit "swer"]
              ++ [Pipeline.DoneEvent];
            Pipeline.failure := None |}
    /\ map Pipeline.sourceId (map Pipeline.sourceOf docs) = map resultId docs
    /\ map Pipeline.sourceScore (map Pipeline.sourceOf docs)
       = map resultScore docs
    /\ Forall (fun d =>
                 List.length (Pipeline.sourceContent (Pipeline.sourceOf d))
                 <= 203
                 /\ (List.length (resultContent d) <= 200 ->
                     Pipeline.sourceContent (Pipeline.sourceOf d)
                     = resultContent d))
              docs.
Proof.
  apply (@query_pipeline (fun _ _ _ => JS.lit "answer")
           (fun _ _ _ => [JS.lit "an"; JS.lit "swer"])
           Scenario.engine1 Scenario.vectorizer1 (JS.lit "capital of France")
           {| Pipeline.optTopK := Some 0; Pipeline.optSystemPrompt := None;
              Pipeline.optTemperature := None; Pipeline.optHistory := None |}).
  - reflexivity.
  - discriminate.
  - reflexivity.
  - exact engine1_wellFormed.
  - lazy. lia.
  - lazy. lia.
Defined.

(* ================================================================= *)
(** ** The chunks of chunkText *)

Section ChunkTextFacts.
Open Scope Z_scope.
Import FileDataSource Windows Facts.

Lemma trimStart_split s :
  exists ws, s = ws ++ JS.trimStart s
             /\ Forall (fun c => JS.isWhiteSpace c = true) ws.
Proof.
  induction s as [|c s [ws [E Hws]]]; simpl.
  - exists []. auto.
  - destruct (JS.isWhiteSpace c) eqn:Hc.
    + exists (c :: ws). split; [simpl; now rewrite <- E | now constructor].
    + exists []. auto.
Qed.

Lemma trimStart_head s c rest :
  JS.trimStart s = c :: rest -> JS.isWhiteSpace c = false.
Proof.
  induction s as [|d s IH]; simpl; [discriminate|].
  destruct (JS.isWhiteSpace d) eqn:Hd; auto.
  now intros [= <- _].
Qed.

Lemma trimStart_fixed s c rest :
  s = c :: rest -> JS.isWhiteSpace c = false -> JS.trimStart s = s.
Proof. intros -> H. simpl. now rewrite H. Qed.

Lemma trimStart_keeps_last s c :
  JS.isWhiteSpace c = false ->
  exists front, JS.trimStart (s ++ [c]) = front ++ [c].
Proof.
  intros Hc. induction s as [|d s [front E]]; simpl.
  - rewrite Hc. now exists [].
  - destruct (JS.isWhiteSpace d); [eauto|].
    now exists (d :: s).
Qed.

Lemma trimEnd_split s :
  exists ws, s = JS.trimEnd s ++ ws.
Proof.
  unfold JS.trimEnd. destruct (trimStart_split (rev s)) as [ws [E _]].
  exists (rev ws). rewrite <- rev_app_distr, <- E. now rewrite rev_involutive.
Qed.

Lemma trim_trimmed s : trimmed (JS.trim s).
Proof.
  unfold trimmed, JS.trim, JS.trimEnd. split.
  - intros c rest E.
    destruct (JS.trimStart s) as [|d t] eqn:Et; [discriminate|].
    pose proof (@trimStart_head s d t Et) as Hd.
    simpl rev in E.
    destruct (@trimStart_keeps_last (rev t) d Hd) as [front Ef].
    rewrite Ef, rev_app_distr in E. simpl in E. now injection E as <- _.
  - intros c front E.
    assert (Er : JS.trimStart (rev (JS.trimStart s)) = c :: rev front).
    { rewrite <- (rev_involutive (JS.trimStart (rev (JS.trimStart s)))).
      rewrite E, rev_app_distr. reflexivity. }
    exact (@trimStart_head _ _ _ Er).
Qed.

Lemma trim_partOf s : partOf (JS.trim s) s.
Proof.
  unfold partOf, JS.trim.
  destruct (trimStart_split s) as [ws [E _]].
  destruct (trimEnd_split (JS.trimStart s)) as [ws' E'].
  exists ws, ws'. rewrite <- E'. exact E.
Qed.

Lemma trim_length s : (List.length (JS.trim s) <= List.length s)%nat.
Proof.
  destruct (trim_partOf s) as [pre [post E]].
  rewrite E at 2. rewrite !length_app. lia.
Qed.

Lemma slice_partOf text a b : partOf (JS.slice text a b) text.
Proof.
  unfold partOf, JS.slice.
  set (i := Z.to_nat (JS.relIndex (JS.len text) a)).
  set (n := Z.to_nat (JS.relIndex (JS.len text) b
                      - JS.relIndex (JS.len text) a)).
  exists (firstn i text), (skipn n (skipn i text)).
  now rewrite firstn_skipn, firstn_skipn.
Qed.

Lemma slice_length text a b :
  0 <= a <= b ->
  Z.of_nat (List.length (JS.slice text a b)) <= b - a.
Proof.
  intros H. unfold JS.slice, JS.relIndex, JS.len.
  rewrite length_firstn.
  destruct (a <? 0) eqn:Ea; [apply Z.ltb_lt in Ea; lia|].
  destruct (b <? 0) eqn:Eb; [apply Z.ltb_lt in Eb; lia|].
  lia.
Qed.

Lemma partOf_trans a b c : partOf a b -> partOf b c -> partOf a c.
Proof.
  intros [p1 [q1 ->]] [p2 [q2 ->]]. exists (p2 ++ p1), (q1 ++ q2).
  now rewrite <- !app_assoc.
Qed.

Lemma breakPoints_short bp : In bp breakPoints -> JS.len bp <= 2.
Proof.
  unfold breakPoints. simpl.
  intros [<-|[<-|[<-|[<-|[<-|[]]]]]]; vm_compute; discriminate.
Qed.

Lemma windowEnd_upper cfg text start :
  0 <= start -> 0 < chunkSize cfg ->
  windowEnd cfg text start <= start + chunkSize cfg + 2.
Proof.
  intros Hstart Hsize. unfold windowEnd.
  destruct (start + chunkSize cfg <? JS.len text) eqn:Hend; [|lia].
  apply Z.ltb_lt in Hend.
  destruct (@pickBreak_spec cfg text start (start + chunkSize cfg)
              ltac:(lia) ltac:(lia) breakPoints [] (Forall_nil _))
    as [[bp [before [after [p [Hbps [_ [[_ [Hp _]] [_ ->]]]]]]]]|[_ ->]]; [|lia].
  assert (Hin : In bp breakPoints).
  { simpl in Hbps. rewrite Hbps. apply in_or_app. right. now left. }
  pose proof (breakPoints_short Hin). lia.
Qed.

Lemma chunkLoop_windows cfg text fuel : forall start chunks,
  chunkLoop fuel cfg text start chunks
  = option_map (fun ws => chunks ++ map (chunkOf text) ws)
               (windows fuel cfg text start).
Proof.
  induction fuel as [|fuel IH]; intros start chunks; simpl; auto.
  destruct (start <? JS.len text).
  - unfold step. rewrite IH.
    destruct (windows fuel cfg text _) as [ws|]; simpl; auto.
    now rewrite <- app_assoc.
  - simpl. now rewrite app_nil_r.
Qed.

Lemma windows_S fuel cfg text start :
  windows (S fuel) cfg text start
  = if start <? JS.len text
    then option_map (cons (start, windowEnd cfg text start))
           (windows fuel cfg text
              (windowEnd cfg text start - chunkOverlap cfg))
    else Some [].
Proof. reflexivity. Qed.

Lemma windows_total cfg text :
  0 < chunkSize cfg -> 0 <= 2 * chunkOverlap cfg <= chunkSize cfg ->
  forall fuel start,
    0 <= start -> JS.len text - start <= Z.of_nat fuel ->
    exists ws,
      windows (S fuel) cfg text start = Some ws
      /\ chained (chunkOverlap cfg) (JS.len text) start ws
      /\ Forall (fun w => 0 <= fst w < JS.len text
                          /\ fst w < snd w <= fst w + chunkSize cfg + 2
                          /\ fst w < snd w - chunkOverlap cfg) ws
      /\ (forall i, start <= i < JS.len text ->
                    exists w, In w ws /\ fst w <= i < snd w).
Proof.
  intros Hsize Hov. induction fuel as [|fuel IH]; intros start Hs Hf;
    rewrite windows_S; destruct (start <? JS.len text) eqn:E.
  - apply Z.ltb_lt in E. lia.
  - apply Z.ltb_ge in E. exists []. simpl. repeat split; auto; intros; lia.
  - apply Z.ltb_lt in E.
    pose proof (@step_progress cfg text start Hs Hsize Hov) as Hp.
    pose proof (@windowEnd_upper cfg text start Hs Hsize) as Hu.
    unfold step in Hp. cbn [snd] in Hp.
    set (e := windowEnd cfg text start) in *.
    destruct (IH (e - chunkOverlap cfg)) as [ws [-> [Hc [Hall Hcov]]]];
      [lia | lia |].
    exists ((start, e) :: ws). simpl. repeat split; auto.
    + constructor; auto. simpl. lia.
    + intros i Hi. destruct (Z_lt_dec i e) as [Hlt|Hge].
      * exists (start, e). simpl. split; [now left | lia].
      * destruct (Z_lt_dec (e - chunkOverlap cfg) (JS.len text)) as [Hn|Hn].
        -- destruct (Hcov i) as [w [Hw Hiw]]; [lia|].
           exists w. split; [now right | exact Hiw].
        -- lia.
  - apply Z.ltb_ge in E. exists []. simpl. repeat split; auto; intros; lia.
Qed.

Lemma windows_more_fuel cfg text fuel : forall start ws n,
  windows fuel cfg text start = Some ws ->
  windows (fuel + n) cfg text start = Some ws.
Proof.
  induction fuel as [|fuel IH]; intros start ws n; simpl; [discriminate|].
  destruct (start <? JS.len text); auto.
  destruct (windows fuel cfg text _) as [rest|] eqn:E; [|discriminate].
  simpl. intros [= <-]. now rewrite (IH _ _ n E).
Qed.

End ChunkTextFacts.

(** X17. The chunks of [chunkText] when the overlap is at most half the
    chunk size: the call returns, with the same chunks for any larger
    number of loop turns allowed; every chunk is a contiguous part of the
    text without white space at either end and is at most [chunkSize + 2]
    code units long; a text longer than [chunkSize] gives no empty chunk,
    and a text of at most [chunkSize] code units gives the single chunk
    [text.trim()], empty or not. *)
Theorem chunkText_chunks (cfg : FileDataSource.config) (text : JS.str) :
  (0 < FileDataSource.chunkSize cfg)%Z ->
  (0 <= 2 * FileDataSource.chunkOverlap cfg <= FileDataSource.chunkSize cfg)%Z ->
  exists chunks,
    (forall n, FileDataSource.chunkText (S (List.length text) + n) cfg text
               = Some chunks)
    /\ Forall (fun c => Facts.trimmed c /\ Facts.partOf c text
                        /\ (JS.len c <= FileDataSource.chunkSize cfg + 2)%Z)
              chunks
    /\ ((FileDataSource.chunkSize cfg < JS.len text)%Z ->
        Forall (fun c => c <> []) chunks)
    /\ ((JS.len text <= FileDataSource.chunkSize cfg)%Z ->
        chunks = [JS.trim text]).
Proof.
  intros Hsize Hov. unfold FileDataSource.chunkText.
  destruct (JS.len text <=? FileDataSource.chunkSize cfg)%Z eqn:E.
  - apply Z.leb_le in E. exists [JS.trim text].
    split; [reflexivity|]. split; [|split; [lia | reflexivity]].
    constructor; [|constructor].
    split; [apply trim_trimmed|]. split; [apply trim_partOf|].
    pose proof (trim_length text). unfold JS.len in *. lia.
  - apply Z.leb_gt in E.
    destruct (@windows_total cfg text Hsize Hov (List.length text) 0%Z
                ltac:(lia) ltac:(unfold JS.len; lia))
      as [ws [Hws [_ [Hall _]]]].
    exists (filter FileDataSource.nonEmpty (map (Windows.chunkOf text) ws)).
    split; [|split; [|split; [|lia]]].
    + intros n. rewrite chunkLoop_windows.
      rewrite (windows_more_fuel _ _ _ _ n Hws). reflexivity.
    + apply Forall_forall. intros c Hc. apply filter_In in Hc.
      destruct Hc as [Hc _]. apply in_map_iff in Hc.
      destruct Hc as [[s e] [<- Hw]].
      rewrite Forall_forall in Hall. specialize (Hall _ Hw). simpl in Hall.
      unfold Windows.chunkOf. simpl.
      split; [apply trim_trimmed|]. split.
      * eapply partOf_trans; [apply trim_partOf | apply slice_partOf].
      * pose proof (trim_length (JS.slice text s e)).
        pose proof (@slice_length text s e ltac:(lia)).
        unfold JS.len. lia.
    + intros _. apply Forall_forall. intros c Hc. apply filter_In in Hc.
      destruct Hc as [_ Hc]. intros ->. discriminate.
Qed.

Lemma chunkText_chunks_witness :
  exists chunks,
    (forall n, FileDataSource.chunkText
                 (S (List.length Scenario.breakText) + n)
                 Scenario.breakConfig Scenario.breakText
               = Some chunks)
    /\ Forall (fun c => Facts.trimmed c /\ Facts.partOf c Scenario.breakText
                        /\ (JS.len c
                            <= FileDataSource.chunkSize Scenario.breakConfig + 2)%Z)
              chunks
    /\ ((FileDataSource.chunkSize Scenario.breakConfig
         < JS.len Scenario.breakText)%Z ->
        Forall (fun c => c <> []) chunks)
    /\ ((JS.len Scenario.breakText
         <= FileDataSource.chunkSize Scenario.breakConfig)%Z ->
        chunks = [JS.trim Scenario.breakText]).
Proof.
  apply (@chunkText_chunks Scenario.breakConfig Scenario.breakText).
  - simpl. lia.
  - simpl. lia.
Defined.

(** X18. Coverage: when the overlap is at most half the chunk size and the
    text is longer than [chunkSize], the windows of the loop start at 0,
    each next one starts [chunkOverlap] before the end of the one before,
    and every position of the text lies in some window; the chunks
    returned are the trimmed windows that are not empty. *)
Theorem chunkText_windows_cover (cfg : FileDataSource.config) (text : JS.str) :
  (0 < FileDataSource.chunkSize cfg)%Z ->
  (0 <= 2 * FileDataSource.chunkOverlap cfg <= FileDataSource.chunkSize cfg)%Z ->
  (FileDataSource.chunkSize cfg < JS.len text)%Z ->
  exists ws,
    Windows.windows (S (List.length text)) cfg text 0 = Some ws
    /\ FileDataSource.chunkText (S (List.length text)) cfg text
       = Some (filter FileDataSource.nonEmpty (map (Windows.chunkOf text) ws))
    /\ Facts.chained (FileDataSource.chunkOverlap cfg) (JS.len text) 0 ws
    /\ Forall (fun w => (0 <= fst w < JS.len text)%Z
                        /\ (fst w < snd w
                            <= fst w + FileDataSource.chunkSize cfg + 2)%Z
                        /\ (fst w < snd w - FileDataSource.chunkOverlap cfg)%Z)
              ws
    /\ (forall i, (0 <= i < JS.len text)%Z ->
                  exists w, In w ws /\ (fst w <= i < snd w)%Z).
Proof.
  intros Hsize Hov Hlong.
  destruct (@windows_total cfg text Hsize Hov (List.length text) 0%Z
              ltac:(lia) ltac:(unfold JS.len; lia))
    as [ws [Hws [Hc [Hall Hcov]]]].
  exists ws. repeat split; auto.
  unfold FileDataSource.chunkText.
  replace (JS.len text <=? FileDataSource.chunkSize cfg)%Z with false
    by (symmetry; apply Z.leb_gt; lia).
  rewrite chunkLoop_windows, Hws. reflexivity.
Qed.

Lemma chunkText_windows_cover_witness :
  exists ws,
    Windows.windows (S (List.length Scenario.breakText))
      Scenario.breakConfig Scenario.breakText 0 = Some ws
    /\ FileDataSource.chunkText (S (List.length Scenario.breakText))
         Scenario.breakConfig Scenario.breakText
       = Some (filter FileDataSource.nonEmpty
                 (map (Windows.chunkOf Scenario.breakText) ws))
    /\ Facts.chained (FileDataSource.chunkOverlap Scenario.breakConfig)
         (JS.len Scenario.breakText) 0 ws
    /\ Forall (fun w => (0 <= fst w < JS.len Scenario.breakText)%Z
                        /\ (fst w < snd w
                            <= fst w
                               + FileDataSource.chunkSize Scenario.breakConfig
                               + 2)%Z
                        /\ (fst w
                            < snd w
                              - FileDataSource.chunkOverlap
                                  Scenario.breakConfig)%Z)
              ws
    /\ (forall i, (0 <= i < JS.len Scenario.breakText)%Z ->
                  exists w, In w ws /\ (fst w <= i < snd w)%Z).
Proof.
  apply (@chunkText_windows_cover Scenario.breakConfig Scenario.breakText).
  - simpl. lia.
  - simpl. lia.
  - vm_compute. reflexivity.
Defined.

Section LoadTextFacts.

Import FileLoader.

Lemma lit_injective (a b : string) : JS.lit a = JS.lit b -> a = b.
Proof.
  unfold JS.lit. intros H.
  rewrite <- (string_of_list_ascii_of_string a),
          <- (string_of_list_ascii_of_string b), H.
  reflexivity.
Qed.

Lemma decimal_injective (m n : nat) : decimal m = decimal n -> m = n.
Proof.
  unfold decimal. intros H. apply lit_injective in H.
  assert (Hu : Nat.to_uint m = Nat.to_uint n).
  { pose proof (NilEmpty.usu (Nat.to_uint m)) as Hm.
    pose proof (NilEmpty.usu (Nat.to_uint n)) as Hn.
    rewrite H in Hm. rewrite Hm in Hn. congruence. }
  rewrite <- (DecimalNat.Unsigned.of_to m), <- (DecimalNat.Unsigned.of_to n), Hu.
  reflexivity.
Qed.

Lemma chunk_ids (fileName filePath : JS.str) (total : nat) (chunks : list JS.str) :
  forall from,
    map id (map (chunkDocument fileName filePath total)
                (combine (seq from (List.length chunks)) chunks))
    = map (fun i => fileName ++ JS.lit "_chunk_" ++ decimal i)
          (seq from (List.length chunks)).
Proof.
  induction chunks as [|c chunks IH]; intros from; simpl.
  - reflexivity.
  - rewrite IH. reflexivity.
Qed.

Lemma chunk_contents (fileName filePath : JS.str) (total : nat) (chunks : list JS.str) :
  forall from,
    map content (map (chunkDocument fileName filePath total)
                     (combine (seq from (List.length chunks)) chunks))
    = chunks.
Proof.
  induction chunks as [|c chunks IH]; intros from; simpl.
  - reflexivity.
  - rewrite IH. reflexivity.
Qed.

Lemma chunk_ids_NoDup (fileName : JS.str) (l : list nat) :
  NoDup l ->
  NoDup (map (fun i => fileName ++ JS.lit "_chunk_" ++ decimal i) l).
Proof.
  induction 1 as [|i l Hi Hl IH]; simpl; constructor; [|exact IH].
  intros Hin. apply in_map_iff in Hin. destruct Hin as [j [Hj Hjl]].
  apply app_inv_head in Hj. injection Hj as Hj.
  apply decimal_injective in Hj. subst j. exact (Hi Hjl).
Qed.

End LoadTextFacts.

(** X19. [loadText] on a file whose content is chunked with an overlap of
    at most half the chunk size: the documents already loaded stay in
    front, one document is pushed per chunk, in order and with the chunk
    as content, the i-th of them has the id [`${fileName}_chunk_${i}`],
    and these ids are pairwise distinct. *)
Theorem loadText_documents (cfg : FileDataSource.config)
  (documents : list Document) (fileName filePath text : JS.str) :
  (0 < FileDataSource.chunkSize cfg)%Z ->
  (0 <= 2 * FileDataSource.chunkOverlap cfg <= FileDataSource.chunkSize cfg)%Z ->
  exists chunks added,
    FileDataSource.chunkText (S (List.length text)) cfg text = Some chunks
    /\ FileLoader.loadText (S (List.length text)) cfg documents
         fileName filePath text
       = Some (documents ++ added)
    /\ map content added = chunks
    /\ map id added
       = map (fun i => fileName ++ JS.lit "_chunk_" ++ FileLoader.decimal i)
             (seq 0 (List.length chunks))
    /\ NoDup (map id added).
Proof.
  intros Hsize Hov.
  destruct (@chunkText_terminates cfg text Hsize Hov) as [chunks Hchunks].
  exists chunks.
  exists (map (FileLoader.chunkDocument fileName filePath (List.length chunks))
              (combine (seq 0 (List.length chunks)) chunks)).
  split; [exact Hchunks|].
  split; [unfold FileLoader.loadText; rewrite Hchunks; reflexivity|].
  split; [apply chunk_contents|].
  split; [apply chunk_ids|].
  rewrite chunk_ids. apply chunk_ids_NoDup. apply seq_NoDup.
Qed.

Lemma loadText_documents_witness :
  exists chunks added,
    FileDataSource.chunkText (S (List.length Scenario.breakText))
      Scenario.breakConfig Scenario.breakText = Some chunks
    /\ FileLoader.loadText (S (List.length Scenario.breakText))
         Scenario.breakConfig [Scenario.doc1]
         (JS.lit "notes.txt") (JS.lit "docs/notes.txt") Scenario.breakText
       = Some ([Scenario.doc1] ++ added)
    /\ map content added = chunks
    /\ map id added
       = map (fun i => JS.lit "notes.txt" ++ JS.lit "_chunk_"
                       ++ FileLoader.decimal i)
             (seq 0 (List.length chunks))
    /\ NoDup (map id added).
Proof.
  apply (@loadText_documents Scenario.breakConfig [Scenario.doc1]
           (JS.lit "notes.txt") (JS.lit "docs/notes.txt") Scenario.breakText).
  - simpl. lia.
  - simpl. lia.
Defined.
